(** * Finite-difference Jacobian (package [fd]): orchestrator, serial and
      concurrent evaluators

    A shallow embedding of [Jacobian], [jacobianSerial] and
    [jacobianConcurrent] of [src/graph/graph.go] (the [package fd] part of the
    file), together with the properties of the specification that concern
    them.

    Numbers.  Go's [float64] is read over exact arithmetic, as the
    specification's properties are: a scalar is a canonical rational [Qc],
    whose equality is Leibniz equality and whose operations compute.  Go's
    [int] is a 64-bit two's complement integer: a [Z] wrapped by [wrap64]
    wherever the source does arithmetic on it; loop indices that range over
    the dimensions of a matrix are [nat].

    Effects.  The caller's function [f] is called for its effect on a buffer;
    a run records, in order, the argument vectors [f] was evaluated at, the
    final contents of the destination matrix and of the caller's slice [x],
    and whether the call returned, panicked or blocked.  The goroutines of the
    concurrent evaluator are interleaved by an explicit scheduler oracle.

    Package [graph].  [Copy] and [CopyWeighted] of the same file work on
    values of interface types: a source is the record of what its methods
    return, a destination is a state with the methods of its builder, and a
    method that panics returns [None].  What the comments of the interfaces
    ask of an implementation is a hypothesis of the theorems that need it. *)

From Stdlib Require Import String.
From Stdlib Require Import List ZArith QArith Qcanon Lia Bool Permutation.
Import ListNotations.

Local Open Scope Qc_scope.

(** ** Scalars *)

(** The comparison [a == b] of two scalars. *)
Definition Qc_eqb (a b : Qc) : bool := Qeq_bool a b.

(** ** Slices of scalars *)

(** [make([]float64, n)]: a fresh slice of [n] zeros. *)
Definition make (n : nat) : list Qc := repeat 0 n.

(** The builtin [copy(dst, src)]: the first [min (len dst) (len src)] elements
    of [src] overwrite those of [dst]; the length of [dst] is kept. *)
Definition copy (dst src : list Qc) : list Qc :=
  firstn (length dst) src ++ skipn (length src) dst.

(** The assignment [s[j] += v].  Go panics when [j] is out of range; every
    index the evaluators pass is a column index below the length of the
    buffer, and the model leaves the slice as it is otherwise. *)
Fixpoint add_at (j : nat) (v : Qc) (s : list Qc) : list Qc :=
  match s, j with
  | [], _ => []
  | a :: s', O => (a + v) :: s'
  | a :: s', S j' => a :: add_at j' v s'
  end.

(** Modelled from the spec: [floats.AddScaled(dst, alpha, s)], the vector
    helper of section 6 ("scaled-add of a coefficient times a source vector
    into a destination vector, in place"): [dst[i] += alpha * s[i]].  Both
    slices have the row count of the matrix at every call of this file. *)
Fixpoint AddScaled (dst : list Qc) (alpha : Qc) (s : list Qc) : list Qc :=
  match dst, s with
  | d :: dst', v :: s' => (d + alpha * v) :: AddScaled dst' alpha s'
  | _, _ => dst
  end.

(** ** The destination matrix *)

(** Modelled from the spec: [mat64.Dense], the dense-matrix container of
    section 6: [rows] by [cols] scalars, [At d i j] being the entry of row [i]
    and column [j].  Entries outside the dimensions carry no meaning. *)
Record Dense : Type := mkDense {
  rows : nat;
  cols : nat;
  At : nat -> nat -> Qc
}.

(** Modelled from the spec: [dst.Dims()], "get dimensions". *)
Definition Dims (d : Dense) : nat * nat := (rows d, cols d).

(** Modelled from the spec: [dst.Set(i, j, v)], "direct element set". *)
Definition Set_ (d : Dense) (i j : nat) (v : Qc) : Dense :=
  mkDense (rows d) (cols d)
    (fun i' j' => if (i' =? i)%nat && (j' =? j)%nat then v else At d i' j').

(** Modelled from the spec: [dst.SetCol(j, col)], "set a full column from a
    vector". *)
Definition SetCol (d : Dense) (j : nat) (col : list Qc) : Dense :=
  mkDense (rows d) (cols d)
    (fun i' j' => if (j' =? j)%nat then nth i' col 0 else At d i' j').

(** Modelled from the spec: [col := dst.ColView(j)] followed by
    [col.AddScaledVec(col, alpha, yVec)], "read-modify a column as an
    addressable vector (scaled-add)": column [j] of the matrix gains
    [alpha] times the vector. *)
Definition ColView_AddScaledVec (d : Dense) (j : nat) (alpha : Qc)
    (y : list Qc) : Dense :=
  mkDense (rows d) (cols d)
    (fun i' j' =>
       if (j' =? j)%nat then At d i' j' + alpha * nth i' y 0 else At d i' j').

(** Modelled from the spec: [dst.Scale(s, dst)], "uniform in-place scaling by
    a scalar". *)
Definition Scale (s : Qc) (d : Dense) : Dense :=
  mkDense (rows d) (cols d) (fun i' j' => s * At d i' j').

(** Two matrices are the same when they have the same dimensions and the same
    entries inside them. *)
Definition Dense_eq (a b : Dense) : Prop :=
  rows a = rows b /\ cols a = cols b /\
  forall i j, (i < rows a)%nat -> (j < cols a)%nat -> At a i j = At b i j.

(** ** Formulas and settings *)

(** Modelled from the spec: an EvaluationPoint of section 3, the type [Point]
    of the source: [Loc] is the offset, a multiplier of the step along one
    axis, and [Coeff] the weight of that evaluation. *)
Record Point : Type := mkPoint {
  Loc : Qc;
  Coeff : Qc
}.

(** Modelled from the spec: the type [Formula] of section 3: the stencil, the
    derivative order and the default step.  A Go slice is [nil] ([None]) or
    holds its elements, possibly none ([Some []]); the source tests
    [formula.Stencil == nil]. *)
Record Formula : Type := mkFormula {
  Stencil : option (list Point);
  Derivative : Z;
  Step : Qc
}.

(** [range formula.Stencil]: a [nil] slice has no elements. *)
Definition stencil_points (formula : Formula) : list Point :=
  match Stencil formula with
  | None => []
  | Some pts => pts
  end.

(** Modelled from the spec: [formula.isZero()], the test for an unset formula
    ("falls back to a built-in default Forward formula when unset"): every
    field has its zero value. *)
Definition isZero (formula : Formula) : bool :=
  match Stencil formula with
  | None => (Derivative formula =? 0)%Z && Qc_eqb (Step formula) 0
  | Some _ => false
  end.

(** [JacobianSettings]; the fields [Formula] and [Step] are prefixed, since a
    projection cannot share the name of the type or of [Formula]'s step. *)
Record JacobianSettings : Type := mkJacobianSettings {
  Settings_Formula : Formula;
  OriginValue : option (list Qc);
  Settings_Step : Qc;
  Concurrent : bool
}.

(** The zero value [JacobianSettings{}] that replaces a [nil] pointer. *)
Definition zeroSettings : JacobianSettings :=
  mkJacobianSettings (mkFormula None 0%Z 0) None 0 false.

(** ** The caller's function and the record of a run *)

(** Modelled from the spec: the input function contract of section 6,
    [f(outputBuffer, inputVector)], which "writes m outputs for a given
    n-length input" and is pure and deterministic (section 7): [f x i] is the
    value written to [outputBuffer[i]] for the input [x]. *)
Definition UserFn : Type := list Qc -> nat -> Qc.

(** The call [f(y, x)]: every element of the buffer [y] is overwritten. *)
Definition call (f : UserFn) (y x : list Qc) : list Qc :=
  map (f x) (seq 0 (length y)).

(** How a call ends: it returns, it panics with a message, or the calling
    goroutine blocks forever on a channel nobody receives from. *)
Inductive Outcome : Type :=
| Returned
| Panicked (msg : string)
| Deadlocked.

(** What a call leaves behind: the destination matrix, the caller's slice [x]
    and the argument vectors of the calls to [f], oldest first. *)
Record Run : Type := mkRun {
  outcome : Outcome;
  run_dst : Dense;
  run_x : list Qc;
  run_calls : list (list Qc)
}.

(** ** The serial evaluator *)

(** The variables of [jacobianSerial] that its loops assign: the matrix behind
    [dst], the buffers [xcopy], [y] and [col], the slice [origin] ([nil] until
    it is supplied or computed), and the calls made to [f] so far.  The
    caller's slice [x] is part of the state, so that what the loops do to it
    can be stated. *)
Record serialState : Type := mkSerialState {
  st_dst : Dense;
  st_x : list Qc;
  st_xcopy : list Qc;
  st_y : list Qc;
  st_col : list Qc;
  st_origin : option (list Qc);
  st_calls : list (list Qc)
}.

(** The slice behind [origin] when it is read: a [nil] slice has no
    elements. *)
Definition slice_of (o : option (list Qc)) : list Qc :=
  match o with
  | None => []
  | Some v => v
  end.

(** The branch [origin == nil] of the loop body: allocate [origin], refresh
    [xcopy] from [x] and evaluate [f] there. *)
Definition serial_origin (f : UserFn) (m : nat) (s : serialState)
    : serialState :=
  match st_origin s with
  | Some _ => s
  | None =>
      let origin := make m in
      let xcopy := copy (st_xcopy s) (st_x s) in
      let origin := call f origin xcopy in
      mkSerialState (st_dst s) (st_x s) xcopy (st_y s) (st_col s)
        (Some origin) (st_calls s ++ [xcopy])
  end.

(** The body of [for _, pt := range formula.Stencil] for column [j]. *)
Definition serial_point (f : UserFn) (m : nat) (step : Qc) (j : nat)
    (s : serialState) (pt : Point) : serialState :=
  if Qc_eqb (Loc pt) 0 then
    let s := serial_origin f m s in
    let col := AddScaled (st_col s) (Coeff pt) (slice_of (st_origin s)) in
    mkSerialState (st_dst s) (st_x s) (st_xcopy s) (st_y s) col
      (st_origin s) (st_calls s)
  else
    let xcopy := copy (st_xcopy s) (st_x s) in
    let xcopy := add_at j (Loc pt * step) xcopy in
    let y := call f (st_y s) xcopy in
    let col := AddScaled (st_col s) (Coeff pt) y in
    mkSerialState (st_dst s) (st_x s) xcopy y col
      (st_origin s) (st_calls s ++ [xcopy]).

(** The body of [for j := 0; j < n; j++]: clear [col], accumulate the stencil
    into it, and store it as column [j]. *)
Definition serial_column (f : UserFn) (m : nat) (step : Qc)
    (formula : Formula) (s : serialState) (j : nat) : serialState :=
  let col := map (fun _ => 0) (st_col s) in
  let s := mkSerialState (st_dst s) (st_x s) (st_xcopy s) (st_y s) col
             (st_origin s) (st_calls s) in
  let s := fold_left (serial_point f m step j) (stencil_points formula) s in
  mkSerialState (SetCol (st_dst s) j (st_col s)) (st_x s) (st_xcopy s)
    (st_y s) (st_col s) (st_origin s) (st_calls s).

(** [jacobianSerial(dst, f, x, origin, formula, step)]. *)
Definition jacobianSerial (dst : Dense) (f : UserFn) (x : list Qc)
    (origin : option (list Qc)) (formula : Formula) (step : Qc) : Run :=
  let '(m, n) := Dims dst in
  let xcopy := make n in
  let y := make m in
  let col := make m in
  let s := mkSerialState dst x xcopy y col origin [] in
  let s := fold_left (serial_column f m step formula) (seq 0 n) s in
  mkRun Returned (Scale (1 / step) (st_dst s)) (st_x s) (st_calls s).

(** ** The concurrent evaluator *)

(** [jacJob]: the column to perturb and the stencil point to perturb it by. *)
Record jacJob : Type := mkJacJob {
  j : nat;
  pt : Point
}.

(** A worker goroutine: its private buffers [xcopy] and [y], and the job it
    has received and evaluated but not yet added to its column, if any. *)
Record workerState : Type := mkWorkerState {
  w_xcopy : list Qc;
  w_y : list Qc;
  w_job : option jacJob
}.

(** The state the goroutines share: the matrix behind [dst], the caller's
    slice [x], the jobs sent or still to be sent on the channel [jobs], in
    order, the workers, and the calls made to [f] so far. *)
Record poolState : Type := mkPoolState {
  p_dst : Dense;
  p_x : list Qc;
  p_jobs : list jacJob;
  p_workers : list workerState;
  p_calls : list (list Qc)
}.

(** The loops [for i := 0; i < m; i++ { for j := 0; j < n; j++ {
    dst.Set(i, j, 0) } }]. *)
Definition zero_dst (dst : Dense) : Dense :=
  let '(m, n) := Dims dst in
  fold_left
    (fun d i => fold_left (fun d j => Set_ d i j 0) (seq 0 n) d)
    (seq 0 m) dst.

(** The body of the loop that sends the jobs: an origin point is remembered in
    [hasOrigin] and [originCoeff] and sends nothing ([continue]); any other
    point sends one job per column. *)
Definition enqueue_point (n : nat) (acc : list jacJob * bool * Qc)
    (p : Point) : list jacJob * bool * Qc :=
  let '(jobs, hasOrigin, originCoeff) := acc in
  if Qc_eqb (Loc p) 0 then (jobs, true, Coeff p)
  else (jobs ++ map (fun j => mkJacJob j p) (seq 0 n), hasOrigin, originCoeff).

(** The jobs sent on the channel, in order, with the final [hasOrigin] and
    [originCoeff]. *)
Definition enqueue (n : nat) (formula : Formula)
    : list jacJob * bool * Qc :=
  fold_left (enqueue_point n) (stencil_points formula) ([], false, 0).

(** [l] with its element of index [w] replaced. *)
Fixpoint set_nth {A : Type} (w : nat) (v : A) (l : list A) : list A :=
  match l, w with
  | [], _ => []
  | _ :: l', O => v :: l'
  | a :: l', S w' => a :: set_nth w' v l'
  end.

(** One step of worker [w].  A worker that holds an evaluated job takes the
    lock of the job's column, adds [job.pt.Coeff] times [y] to the column and
    releases the lock: the addition is atomic for the other workers.  An idle
    worker receives the next job of the channel, refreshes [xcopy] from [x],
    perturbs coordinate [job.j] and evaluates [f] into [y].  With the channel
    empty an idle worker has nothing to do. *)
Definition worker_step (f : UserFn) (step : Qc) (s : poolState) (w : nat)
    : poolState :=
  match nth_error (p_workers s) w with
  | None => s
  | Some wk =>
      match w_job wk with
      | Some job =>
          let dst :=
            ColView_AddScaledVec (p_dst s) (j job) (Coeff (pt job)) (w_y wk) in
          let wk := mkWorkerState (w_xcopy wk) (w_y wk) None in
          mkPoolState dst (p_x s) (p_jobs s) (set_nth w wk (p_workers s))
            (p_calls s)
      | None =>
          match p_jobs s with
          | [] => s
          | job :: jobs =>
              let xcopy := copy (w_xcopy wk) (p_x s) in
              let xcopy := add_at (j job) (Loc (pt job) * step) xcopy in
              let y := call f (w_y wk) xcopy in
              let wk := mkWorkerState xcopy y (Some job) in
              mkPoolState (p_dst s) (p_x s) jobs (set_nth w wk (p_workers s))
                (p_calls s ++ [xcopy])
          end
      end
  end.

(** Worker [w] adds the job it holds, if it holds one. *)
Definition worker_commit (f : UserFn) (step : Qc) (s : poolState) (w : nat)
    : poolState :=
  match nth_error (p_workers s) w with
  | Some wk =>
      match w_job wk with
      | Some _ => worker_step f step s w
      | None => s
      end
  | None => s
  end.

(** [wg.Wait()] returns once the channel is drained and every worker has
    left its loop.  A run of the pool is the steps the scheduler [oracle]
    names, in its order, followed by whatever is left to do: the workers
    holding a job add it, and the first worker works off the rest of the
    channel.  Every interleaving of the workers is the run of some oracle. *)
Definition run_pool (f : UserFn) (step : Qc) (oracle : list nat)
    (s : poolState) : poolState :=
  let s := fold_left (worker_step f step) oracle s in
  let s :=
    fold_left (worker_commit f step) (seq 0 (length (p_workers s))) s in
  fold_left
    (fun s (_ : jacJob) => worker_step f step (worker_step f step s 0%nat) 0%nat)
    (p_jobs s) s.

(** [jacobianConcurrent(dst, f, x, origin, formula, step, nWorkers)], its
    goroutines scheduled by [oracle].  [make(chan jacJob, nWorkers)] panics
    for a negative capacity; with no worker and a job to send, the first send
    on the channel blocks forever.  The origin task evaluates [f] at a fresh copy of [x]; its
    result is read after [wg.Wait()] only, and its call is recorded after
    those of the workers. *)
Definition jacobianConcurrent (oracle : list nat) (dst : Dense) (f : UserFn)
    (x : list Qc) (origin : option (list Qc)) (formula : Formula) (step : Qc)
    (nWorkers : Z) : Run :=
  let '(m, n) := Dims dst in
  let dst := zero_dst dst in
  if (nWorkers <? 0)%Z then
    mkRun (Panicked "makechan: size out of range") dst x []
  else
    let workers :=
      repeat (mkWorkerState (make n) (make m) None) (Z.to_nat nWorkers) in
    let '(jobs, hasOrigin, originCoeff) := enqueue n formula in
    if (nWorkers =? 0)%Z && (0 <? length jobs)%nat then
      mkRun Deadlocked dst x []
    else
      let s := run_pool f step oracle (mkPoolState dst x jobs workers []) in
      let '(origin, calls) :=
        match hasOrigin, origin with
        | true, None =>
            let origin := make m in
            let xcopy := copy (make n) (p_x s) in
            (Some (call f origin xcopy), p_calls s ++ [xcopy])
        | _, _ => (origin, p_calls s)
        end in
      let dst :=
        if hasOrigin then
          fold_left
            (fun d j => ColView_AddScaledVec d j originCoeff (slice_of origin))
            (seq 0 n) (p_dst s)
        else p_dst s in
      mkRun Returned (Scale (1 / step) dst) (p_x s) calls.

(** ** The orchestrator *)

(** Arithmetic on Go's [int] wraps around in 64-bit two's complement. *)
Definition wrap64 (z : Z) : Z := ((z + 2 ^ 63) mod 2 ^ 64 - 2 ^ 63)%Z.

(** The loop [for _, pt := range formula.Stencil { if pt.Loc == 0 { evals -=
    n - 1; break } }]. *)
Fixpoint subtract_origin (n : Z) (pts : list Point) (evals : Z) : Z :=
  match pts with
  | [] => evals
  | p :: pts' =>
      if Qc_eqb (Loc p) 0 then wrap64 (evals - wrap64 (n - 1))
      else subtract_origin n pts' evals
  end.

(** The variable [evals] once that loop is left. *)
Definition count_evals (n : Z) (formula : Formula) : Z :=
  let evals := wrap64 (n * Z.of_nat (length (stencil_points formula))) in
  subtract_origin n (stencil_points formula) evals.

(** The variable [nWorkers] at the dispatch; [gomaxprocs] is the value of
    [runtime.GOMAXPROCS(0)]. *)
Definition worker_count (concurrent : bool) (gomaxprocs evals : Z) : Z :=
  let nWorkers := 1%Z in
  if concurrent then
    let nWorkers := gomaxprocs in
    if (nWorkers >? evals)%Z then evals else nWorkers
  else nWorkers.

(** The step a call uses: [settings.Step], or the formula's when that is
    zero. *)
Definition resolve_step (settings : JacobianSettings) (formula : Formula)
    : Qc :=
  let step := Settings_Step settings in
  if Qc_eqb step 0 then Step formula else step.

(** Modelled from the spec: the stencil of the built-in formula [Forward],
    "a single origin point with weight -1 and a forward point with weight +1
    at offset 1". *)
Definition forward_stencil : list Point :=
  [mkPoint 0 (-(1)); mkPoint 1 1].

Section Orchestrator.

(** Modelled from the spec: the default step of the built-in formula, whose
    value the specification leaves open. *)
Variable ForwardStep : Qc.

(** Modelled from the spec: the available parallelism,
    [runtime.GOMAXPROCS(0)], "treated as an injected integer". *)
Variable GOMAXPROCS : Z.

(** Modelled from the spec: the built-in formula [Forward], of derivative
    order 1. *)
Definition Forward : Formula :=
  mkFormula (Some forward_stencil) 1%Z ForwardStep.

(** The settings a call works with: a [nil] pointer is replaced by the zero
    value. *)
Definition resolve_settings (settings : option JacobianSettings)
    : JacobianSettings :=
  match settings with
  | None => zeroSettings
  | Some s => s
  end.

(** The formula a call works with: [Forward] when the settings leave it
    unset. *)
Definition resolve_formula (settings : JacobianSettings) : Formula :=
  let formula := Settings_Formula settings in
  if isZero formula then Forward else formula.

(** [Jacobian(dst, f, x, settings)], the goroutines of a concurrent evaluation
    being scheduled by [oracle].  A panic leaves the matrix and the record of
    calls as they are when it is raised. *)
Definition Jacobian (oracle : list nat) (dst : Dense) (f : UserFn)
    (x : list Qc) (settings : option JacobianSettings) : Run :=
  let n := length x in
  if (n =? 0)%nat then
    mkRun (Panicked "jacobian: x has zero length") dst x []
  else
    let '(m, c) := Dims dst in
    if negb (c =? n)%nat then
      mkRun (Panicked "jacobian: mismatched matrix size") dst x []
    else
      let settings := resolve_settings settings in
      if match OriginValue settings with
         | Some o => negb (length o =? m)%nat
         | None => false
         end
      then
        mkRun (Panicked "jacobian: mismatched OriginValue slice length")
          dst x []
      else
        let formula := resolve_formula settings in
        if (Derivative formula =? 0)%Z
           || match Stencil formula with None => true | Some _ => false end
           || Qc_eqb (Step formula) 0
        then mkRun (Panicked "jacobian: bad formula") dst x []
        else if negb (Derivative formula =? 1)%Z then
          mkRun (Panicked "jacobian: invalid derivative order") dst x []
        else
          let step := resolve_step settings formula in
          let evals := count_evals (Z.of_nat n) formula in
          let nWorkers := worker_count (Concurrent settings) GOMAXPROCS evals in
          if (nWorkers =? 1)%Z then
            jacobianSerial dst f x (OriginValue settings) formula step
          else
            jacobianConcurrent oracle dst f x (OriginValue settings) formula
              step nWorkers.

End Orchestrator.

(** ** A concrete instance, for evaluation *)

Module Demo.

(** The rational [n / d]. *)
Definition q (n : Z) (d : positive) : Qc := Q2Qc (n # d).

(** A three-by-two matrix of ones. *)
Definition ones32 : Dense := mkDense 3 2 (fun _ _ => 1).

(** [f(x) = (x0 * x1, x0 + 2 x1, x1 * x1)]. *)
Definition f32 : UserFn := fun x i =>
  match i with
  | 0%nat => nth 0 x 0 * nth 1 x 0
  | 1%nat => nth 0 x 0 + q 2 1 * nth 1 x 0
  | _ => nth 1 x 0 * nth 1 x 0
  end.

(** The entries of a matrix, row by row. *)
Definition entries (d : Dense) : list (list Q) :=
  map (fun i => map (fun j => this (At d i j)) (seq 0 (cols d)))
    (seq 0 (rows d)).

(** Another three-by-two matrix, a two-by-two and a one-by-one one. *)
Definition ramp32 : Dense :=
  mkDense 3 2 (fun i j => q (Z.of_nat (i + 2 * j)) 1).

Definition ones22 : Dense := mkDense 2 2 (fun _ _ => 1).

Definition ones11 : Dense := mkDense 1 1 (fun _ _ => 1).

(** The points [(3, 5)] and [(3)]. *)
Definition x2 : list Qc := [q 3 1; q 5 1].

Definition x1 : list Qc := [q 3 1].

(** [f(x) = (x0 * x0)]. *)
Definition square : UserFn := fun x _ => nth 0 x 0 * nth 0 x 0.

(** A default step for [Forward], and a number of processors. *)
Definition forward_step : Qc := q 1 50000000.

Definition procs : Z := 8.

(** The central difference, with weights -1/2 and 1/2 at offsets -1 and 1;
    a formula with two origin points; a formula whose stencil is set and
    empty; a formula whose stencil is not set. *)
Definition central : Formula :=
  mkFormula (Some [mkPoint (-(1)) (q (-1) 2); mkPoint 1 (q 1 2)]) 1 (q 1 10).

Definition two_origins : Formula :=
  mkFormula (Some [mkPoint 0 1; mkPoint 0 1; mkPoint 1 1]) 1 (q 1 10).

Definition empty_formula : Formula := mkFormula (Some []) 1 (q 1 10).

Definition unset_stencil : Formula := mkFormula None 1 (q 1 10).

(** Settings around these formulas. *)
Definition central_settings (concurrent : bool) : JacobianSettings :=
  mkJacobianSettings central None 0 concurrent.

Definition empty_settings : JacobianSettings :=
  mkJacobianSettings empty_formula None 0 false.

Definition unset_settings : JacobianSettings :=
  mkJacobianSettings unset_stencil None 0 false.

Definition micro_settings : JacobianSettings :=
  mkJacobianSettings (mkFormula None 0 0) None (q 1 1000000) false.

End Demo.

(** ** What the specification says, in its own terms *)

(** The sum of a list of scalars. *)
Definition Qcsum (l : list Qc) : Qc := fold_right Qcplus 0 l.

(** [x] perturbed only in coordinate [c], by [d]. *)
Definition perturbed (x : list Qc) (c : nat) (d : Qc) : list Qc :=
  map (fun k => if (k =? c)%nat then nth k x 0 + d else nth k x 0)
    (seq 0 (length x)).

(** Component [i] of the origin term: the supplied precomputed origin value
    when present, [f] at the unperturbed [x] otherwise. *)
Definition origin_term (f : UserFn) (x : list Qc)
    (origin : option (list Qc)) (i : nat) : Qc :=
  match origin with
  | Some o => nth i o 0
  | None => f x i
  end.

(** Component [i] of the evaluation a stencil point asks for in column [c]. *)
Definition stencil_term (f : UserFn) (x : list Qc)
    (origin : option (list Qc)) (step : Qc) (i c : nat) (p : Point) : Qc :=
  if Qc_eqb (Loc p) 0 then origin_term f x origin i
  else f (perturbed x c (Loc p * step)) i.

(** The weighted sum over the stencil for entry [(i, c)]. *)
Definition stencil_sum (f : UserFn) (x : list Qc)
    (origin : option (list Qc)) (pts : list Point) (step : Qc) (i c : nat)
    : Qc :=
  Qcsum (map (fun p => Coeff p * stencil_term f x origin step i c p) pts).

(** The finite-difference quotient: the stencil sum divided by the step. *)
Definition difference_quotient (f : UserFn) (x : list Qc)
    (origin : option (list Qc)) (pts : list Point) (step : Qc) (i c : nat)
    : Qc :=
  (1 / step) * stencil_sum f x origin pts step i c.

(** A stencil point at offset 0. *)
Definition is_origin (p : Point) : bool := Qc_eqb (Loc p) 0.

(** The stencil contains an origin point. *)
Definition has_origin (pts : list Point) : bool := existsb is_origin pts.

(** The invariant of section 3: at most one point of a stencil has offset
    0. *)
Definition single_origin (pts : list Point) : bool :=
  (length (filter is_origin pts) <=? 1)%nat.

(** A supplied origin value has as many elements as the matrix has rows. *)
Definition origin_fits (origin : option (list Qc)) (m : nat) : bool :=
  match origin with
  | Some o => (length o =? m)%nat
  | None => true
  end.

(** The number of evaluations as section 4.1 words it: [n] times the size of
    the stencil, minus [n - 1] if the stencil contains an origin point. *)
Definition spec_evals (n : nat) (pts : list Point) : Z :=
  (Z.of_nat n * Z.of_nat (length pts)
   - (if has_origin pts then Z.of_nat n - 1 else 0))%Z.

(** The worker count as section 4.1 words it: 1 if concurrency is not
    requested, otherwise the lesser of the available parallelism and
    [evals]. *)
Definition spec_workers (concurrent : bool) (parallelism evals : Z) : Z :=
  if concurrent then Z.min parallelism evals else 1%Z.

(** The largest value of Go's [int]. *)
Definition max_int : Z := (2 ^ 63 - 1)%Z.

(** The identity matrix. *)
Definition identity_entry (i c : nat) : Qc :=
  if (i =? c)%nat then 1 else 0.

(** The identity function [f(x) = x]. *)
Definition identity_fn : UserFn := fun x i => nth i x 0.

(** The number of calls of [f] at the point [x]. *)
Definition calls_at (x : list Qc) (calls : list (list Qc)) : nat :=
  count_occ (list_eq_dec Qc_eq_dec) calls x.

Section OrchestratorTerms.

Variable ForwardStep : Qc.
Variable GOMAXPROCS : Z.

(** The checks of [Jacobian] all pass: [x] is not empty, the matrix has as
    many columns as [x] has elements, a supplied origin value fits the rows,
    and the resolved formula has a derivative order that is not 0, a stencil
    that is not [nil], a step that is not 0, and derivative order 1.  Every
    valid input of section 4.1 passes them. *)
Definition accepted (dst : Dense) (x : list Qc)
    (settings : option JacobianSettings) : bool :=
  let s := resolve_settings settings in
  let formula := resolve_formula ForwardStep s in
  negb (length x =? 0)%nat
  && (cols dst =? length x)%nat
  && origin_fits (OriginValue s) (rows dst)
  && negb (Derivative formula =? 0)%Z
  && match Stencil formula with None => false | Some _ => true end
  && negb (Qc_eqb (Step formula) 0)
  && (Derivative formula =? 1)%Z.

(** The step, the evaluation count and the worker count of a call. *)
Definition call_step (settings : option JacobianSettings) : Qc :=
  let s := resolve_settings settings in
  resolve_step s (resolve_formula ForwardStep s).

Definition call_evals (x : list Qc) (settings : option JacobianSettings)
    : Z :=
  count_evals (Z.of_nat (length x))
    (resolve_formula ForwardStep (resolve_settings settings)).

Definition call_workers (x : list Qc) (settings : option JacobianSettings)
    : Z :=
  worker_count (Concurrent (resolve_settings settings)) GOMAXPROCS
    (call_evals x settings).

End OrchestratorTerms.

(** ** Invariants of the loops *)

(** What the loops of [jacobianSerial] keep true, for a matrix of [m] rows and
    [n] columns: the caller's [x] is untouched, the buffers keep their
    lengths, and [origin] is the supplied slice or, when none was supplied,
    either still [nil] or the value of [f] at [x]. *)
Definition serial_inv (f : UserFn) (m n : nat) (x : list Qc)
    (origin : option (list Qc)) (s : serialState) : Prop :=
  st_x s = x /\
  length (st_xcopy s) = n /\ length (st_y s) = m /\ length (st_col s) = m /\
  rows (st_dst s) = m /\ cols (st_dst s) = n /\
  (st_origin s = origin \/
   (origin = None /\ st_origin s = Some (call f (make m) x))).

(** The number of evaluations of [f] at [x] a serial run has made: one once
    [origin] has been computed, none before or when it was supplied. *)
Definition origin_calls (origin : option (list Qc)) (s : serialState) : nat :=
  match origin, st_origin s with
  | None, Some _ => 1
  | _, _ => 0
  end.

(** The point a worker evaluates [f] at for a job. *)
Definition job_point (x : list Qc) (step : Qc) (job : jacJob) : list Qc :=
  perturbed x (j job) (Loc (pt job) * step).

(** Component [i] of what a job adds to its column. *)
Definition job_term (f : UserFn) (x : list Qc) (step : Qc) (i : nat)
    (job : jacJob) : Qc :=
  Coeff (pt job) * f (job_point x step job) i.

(** Component [i] of what the jobs of a list add to column [c]. *)
Definition jobs_sum (f : UserFn) (x : list Qc) (step : Qc) (i c : nat)
    (jobs : list jacJob) : Qc :=
  Qcsum (map (job_term f x step i)
           (filter (fun job => (j job =? c)%nat) jobs)).

(** The jobs the workers hold: received and evaluated, not yet added. *)
Definition held (workers : list workerState) : list jacJob :=
  flat_map
    (fun wk => match w_job wk with Some job => [job] | None => [] end)
    workers.

(** The jobs of a pool that have not reached the matrix yet. *)
Definition pending (s : poolState) : list jacJob :=
  held (p_workers s) ++ p_jobs s.

(** What a worker keeps true: its buffers keep their lengths, and [y] holds
    the value of [f] at the point of the job it holds. *)
Definition worker_inv (f : UserFn) (m n : nat) (x : list Qc) (step : Qc)
    (wk : workerState) : Prop :=
  length (w_xcopy wk) = n /\ length (w_y wk) = m /\
  match w_job wk with
  | Some job => w_y wk = call f (make m) (job_point x step job)
  | None => True
  end.

(** A job the evaluator sends: its column exists and its point is not an
    origin point. *)
Definition job_ok (n : nat) (job : jacJob) : Prop :=
  (j job < n)%nat /\ is_origin (pt job) = false.

(** What the steps of the pool keep true. *)
Definition pool_inv (f : UserFn) (m n : nat) (x : list Qc) (step : Qc)
    (s : poolState) : Prop :=
  p_x s = x /\ rows (p_dst s) = m /\ cols (p_dst s) = n /\
  Forall (worker_inv f m n x step) (p_workers s) /\
  Forall (job_ok n) (pending s).

(** The quantity the steps of the pool conserve for entry [(i, c)]: what the
    matrix holds plus what is still to be added. *)
Definition pool_total (f : UserFn) (x : list Qc) (step : Qc) (i c : nat)
    (s : poolState) : Qc :=
  At (p_dst s) i c + jobs_sum f x step i c (pending s).

(** The jobs the evaluator sends for a stencil: for each point that is not an
    origin point, in order, one job per column. *)
Definition stencil_jobs (n : nat) (pts : list Point) : list jacJob :=
  flat_map (fun p => map (fun c => mkJacJob c p) (seq 0 n))
    (filter (fun p => negb (is_origin p)) pts).

(** The weight of the last origin point of a stencil, [c0] if it has none. *)
Definition last_origin_coeff (pts : list Point) (c0 : Qc) : Qc :=
  fold_left (fun c p => if is_origin p then Coeff p else c) pts c0.

(** Entry [(i, c)] as the concurrent evaluator assembles it: the jobs of
    column [c], and the origin value weighted by the last origin point. *)
Definition concurrent_quotient (f : UserFn) (x : list Qc)
    (origin : option (list Qc)) (pts : list Point) (step : Qc) (i c : nat)
    : Qc :=
  (1 / step)
  * (Qcsum (map (fun p => Coeff p * f (perturbed x c (Loc p * step)) i)
              (filter (fun p => negb (is_origin p)) pts))
     + if has_origin pts
       then last_origin_coeff pts 0 * origin_term f x origin i
       else 0).

(** The states the pool reaches from a state, one worker step at a time. *)
Inductive pool_steps (f : UserFn) (step : Qc) (s : poolState)
    : poolState -> Prop :=
| pool_steps_refl : pool_steps f step s s
| pool_steps_step (s' : poolState) (w : nat) :
    pool_steps f step s s' -> pool_steps f step s (worker_step f step s' w).

(** ** The points at which [f] is evaluated *)

(** The points at which column [c] asks for [f]: [x] perturbed in coordinate
    [c], once for each stencil point that is not an origin point. *)
Definition column_points (x : list Qc) (step : Qc) (pts : list Point)
    (c : nat) : list (list Qc) :=
  map (fun p => perturbed x c (Loc p * step))
    (filter (fun p => negb (is_origin p)) pts).

(** The perturbed points of all [n] columns. *)
Definition perturbed_points (x : list Qc) (step : Qc) (pts : list Point)
    (n : nat) : list (list Qc) :=
  flat_map (column_points x step pts) (seq 0 n).

(** The evaluation at [x] itself: made when the stencil has an origin point
    and no origin value was supplied. *)
Definition origin_point (x : list Qc) (origin : option (list Qc))
    (pts : list Point) : list (list Qc) :=
  match origin with
  | None => if has_origin pts then [x] else []
  | Some _ => []
  end.

(** ** Settings with one field replaced *)

(** The settings [s] with the concurrency flag replaced. *)
Definition with_concurrent (s : JacobianSettings) (b : bool)
    : JacobianSettings :=
  mkJacobianSettings (Settings_Formula s) (OriginValue s) (Settings_Step s) b.

(** The settings [s] with the origin value replaced. *)
Definition with_origin (s : JacobianSettings) (o : option (list Qc))
    : JacobianSettings :=
  mkJacobianSettings (Settings_Formula s) o (Settings_Step s) (Concurrent s).

(** ** Functions to differentiate, and stencils *)

(** The function [a * f + g], component by component. *)
Definition lincomb (a : Qc) (f g : UserFn) : UserFn :=
  fun x i => a * f x i + g x i.

(** The affine function [x |-> A x + b]: component [i] is the sum over [k]
    of [A i k * x_k], plus [b i]. *)
Definition affine (A : nat -> nat -> Qc) (b : nat -> Qc) : UserFn :=
  fun x i => Qcsum (map (fun k => A i k * nth k x 0) (seq 0 (length x))) + b i.

(** A stencil is consistent with the first derivative: its weights sum to 0
    and its weights times offsets sum to 1. *)
Definition consistent (pts : list Point) : Prop :=
  Qcsum (map Coeff pts) = 0 /\
  Qcsum (map (fun p => Coeff p * Loc p) pts) = 1.

(** ** Package [graph]: the interfaces [Copy] and [CopyWeighted] work with *)

Section GraphPackage.

(** The dynamic types of the nodes and of the edges, with the methods of the
    interfaces [Node] ([ID() int64]), [Edge] ([From()], [To()]) and
    [WeightedEdge] ([Weight() float64]). *)
Context {N E : Type}.
Variable Node_ID : N -> Z.
Variables Edge_From Edge_To : E -> N.
Variable WeightedEdge_Weight : E -> Qc.

(** A value of interface type [Graph], as [Copy] reads it: what its methods
    return.  [Edge] returns [nil] ([None]) when there is no edge.  The source
    is read as a value: what its methods return does not change while the
    destination is built. *)
Record Graph : Type := mkGraph {
  Graph_Has : N -> bool;
  Graph_Nodes : list N;
  Graph_From : N -> list N;
  Graph_HasEdgeBetween : N -> N -> bool;
  Graph_Edge : N -> N -> option E
}.

(** A value of interface type [Weighted]: a [Graph] with the methods
    [WeightedEdge] and [Weight]. *)
Record Weighted : Type := mkWeighted {
  Weighted_Graph : Graph;
  Weighted_WeightedEdge : N -> N -> option E;
  Weighted_Weight : N -> N -> Qc * bool
}.

(** The state behind the destination. *)
Context {B : Type}.

(** The methods of interface [Builder] ([NodeAdder] and [EdgeAdder]) on a
    destination in state [B]; a method that panics returns [None]. *)
Record Builder : Type := mkBuilder {
  Builder_NewNode : B -> N;
  Builder_AddNode : B -> N -> option B;
  Builder_NewEdge : B -> N -> N -> E;
  Builder_SetEdge : B -> E -> option B
}.

(** The methods of interface [WeightedBuilder] ([NodeAdder] and
    [WeightedEdgeAdder]). *)
Record WeightedBuilder : Type := mkWeightedBuilder {
  WeightedBuilder_NewNode : B -> N;
  WeightedBuilder_AddNode : B -> N -> option B;
  WeightedBuilder_NewWeightedEdge : B -> N -> N -> Qc -> E;
  WeightedBuilder_SetWeightedEdge : B -> E -> option B
}.

(** The loop [for _, n := range nodes { dst.AddNode(n) }]; [None] when a
    call panics. *)
Fixpoint add_nodes (add : B -> N -> option B) (dst : B) (nodes : list N)
    : option B :=
  match nodes with
  | [] => Some dst
  | n :: nodes' =>
      match add dst n with
      | Some dst' => add_nodes add dst' nodes'
      | None => None
      end
  end.

(** The loop [for _, v := range src.From(u) { dst.SetEdge(dst.NewEdge(u,
    v)) }]. *)
Fixpoint set_edges_from (bd : Builder) (dst : B) (u : N) (vs : list N)
    : option B :=
  match vs with
  | [] => Some dst
  | v :: vs' =>
      match Builder_SetEdge bd dst (Builder_NewEdge bd dst u v) with
      | Some dst' => set_edges_from bd dst' u vs'
      | None => None
      end
  end.

(** The loop [for _, u := range nodes] around it. *)
Fixpoint set_edges (bd : Builder) (src : Graph) (dst : B) (us : list N)
    : option B :=
  match us with
  | [] => Some dst
  | u :: us' =>
      match set_edges_from bd dst u (Graph_From src u) with
      | Some dst' => set_edges bd src dst' us'
      | None => None
      end
  end.

(** [Copy(dst, src)]: the state of the destination when the call returns,
    [None] when it panics. *)
Definition Copy (bd : Builder) (dst : B) (src : Graph) : option B :=
  let nodes := Graph_Nodes src in
  match add_nodes (Builder_AddNode bd) dst nodes with
  | Some dst' => set_edges bd src dst' nodes
  | None => None
  end.

(** The loop [for _, v := range src.From(u)] of [CopyWeighted]: the call
    [src.WeightedEdge(u, v).Weight()] panics on a [nil] edge. *)
Fixpoint set_weighted_edges_from (bd : WeightedBuilder) (src : Weighted)
    (dst : B) (u : N) (vs : list N) : option B :=
  match vs with
  | [] => Some dst
  | v :: vs' =>
      match Weighted_WeightedEdge src u v with
      | None => None
      | Some e =>
          match WeightedBuilder_SetWeightedEdge bd dst
                  (WeightedBuilder_NewWeightedEdge bd dst u v
                     (WeightedEdge_Weight e)) with
          | Some dst' => set_weighted_edges_from bd src dst' u vs'
          | None => None
          end
      end
  end.

Fixpoint set_weighted_edges (bd : WeightedBuilder) (src : Weighted) (dst : B)
    (us : list N) : option B :=
  match us with
  | [] => Some dst
  | u :: us' =>
      match set_weighted_edges_from bd src dst u
              (Graph_From (Weighted_Graph src) u) with
      | Some dst' => set_weighted_edges bd src dst' us'
      | None => None
      end
  end.

(** [CopyWeighted(dst, src)]. *)
Definition CopyWeighted (bd : WeightedBuilder) (dst : B) (src : Weighted)
    : option B :=
  let nodes := Graph_Nodes (Weighted_Graph src) in
  match add_nodes (WeightedBuilder_AddNode bd) dst nodes with
  | Some dst' => set_weighted_edges bd src dst' nodes
  | None => None
  end.

(** What the comments of [NodeAdder] and [EdgeAdder] ask of a destination,
    in terms of the node IDs ([has]) and the edges ([edge], from ID to ID) it
    holds: [AddNode] panics on an ID that is present and otherwise adds the
    node and keeps what is there; [NewEdge] returns an edge between the two
    nodes; [SetEdge] adds the edge and keeps what is there.  An edge between
    equal IDs is left to the implementation. *)
Record BuilderContract (bd : Builder) (has : B -> Z -> Prop)
    (edge : B -> Z -> Z -> Prop) : Prop := mkBuilderContract {
  AddNode_clash : forall b n,
    has b (Node_ID n) -> Builder_AddNode bd b n = None;
  AddNode_adds : forall b n b',
    Builder_AddNode bd b n = Some b' ->
    has b' (Node_ID n) /\ (forall k, has b k -> has b' k) /\
    (forall u v, edge b u v -> edge b' u v);
  NewEdge_ends : forall b u v,
    Edge_From (Builder_NewEdge bd b u v) = u /\
    Edge_To (Builder_NewEdge bd b u v) = v;
  SetEdge_adds : forall b e b',
    Builder_SetEdge bd b e = Some b' ->
    (Node_ID (Edge_From e) <> Node_ID (Edge_To e) ->
     edge b' (Node_ID (Edge_From e)) (Node_ID (Edge_To e))) /\
    (forall k, has b k -> has b' k) /\
    (forall u v, edge b u v -> edge b' u v)
}.

(** What the comments ask of a directed weighted destination, in terms of
    the node IDs and of the weight of the edge from ID to ID, if there is
    one: [SetWeightedEdge] sets the weight of the edge it is given and of no
    other. *)
Record WeightedBuilderContract (bd : WeightedBuilder) (has : B -> Z -> Prop)
    (wt : B -> Z -> Z -> option Qc) : Prop := mkWeightedBuilderContract {
  WAddNode_clash : forall b n,
    has b (Node_ID n) -> WeightedBuilder_AddNode bd b n = None;
  WAddNode_adds : forall b n b',
    WeightedBuilder_AddNode bd b n = Some b' ->
    has b' (Node_ID n) /\ (forall k, has b k -> has b' k) /\
    (forall u v, wt b' u v = wt b u v);
  NewWeightedEdge_ends : forall b u v w,
    Edge_From (WeightedBuilder_NewWeightedEdge bd b u v w) = u /\
    Edge_To (WeightedBuilder_NewWeightedEdge bd b u v w) = v /\
    WeightedEdge_Weight (WeightedBuilder_NewWeightedEdge bd b u v w) = w;
  SetWeightedEdge_sets : forall b e b',
    WeightedBuilder_SetWeightedEdge bd b e = Some b' ->
    (Node_ID (Edge_From e) <> Node_ID (Edge_To e) ->
     wt b' (Node_ID (Edge_From e)) (Node_ID (Edge_To e))
     = Some (WeightedEdge_Weight e)) /\
    (forall k, has b k -> has b' k) /\
    (forall u v,
       (u, v) <> (Node_ID (Edge_From e), Node_ID (Edge_To e)) ->
       wt b' u v = wt b u v)
}.

(** The edges a source lists, as pairs of IDs, in the order of the loops. *)
Definition listed_edges (src : Graph) : list (Z * Z) :=
  flat_map
    (fun u => map (fun v => (Node_ID u, Node_ID v)) (Graph_From src u))
    (Graph_Nodes src).

End GraphPackage.

Arguments Graph : clear implicits.
Arguments Weighted : clear implicits.
Arguments Builder : clear implicits.
Arguments WeightedBuilder : clear implicits.

(** ** A directed graph on lists, for evaluation *)

Module DemoGraph.

(** A node is its ID; an edge carries its two ends and its weight; a graph
    holds the IDs of its nodes and its edges, the latest first. *)
Definition edge : Type := Z * Z * Qc.

Definition state : Type := list Z * list edge.

Definition id (n : Z) : Z := n.

Definition from (e : edge) : Z := fst (fst e).

Definition to (e : edge) : Z := snd (fst e).

Definition weight (e : edge) : Qc := snd e.

Definition mem (k : Z) (l : list Z) : bool := existsb (Z.eqb k) l.

Definition touch (k : Z) (l : list Z) : list Z :=
  if mem k l then l else k :: l.

(** [AddNode] panics on an ID the graph holds. *)
Definition add_node (b : state) (n : Z) : option state :=
  if mem n (fst b) then None else Some (n :: fst b, snd b).

(** [SetEdge] and [SetWeightedEdge] panic on an edge from a node to itself
    and add the ends of the edge when they are missing. *)
Definition set_edge (b : state) (e : edge) : option state :=
  if (from e =? to e)%Z then None
  else Some (touch (from e) (touch (to e) (fst b)), e :: snd b).

(** [NewNode] picks an ID above those in use. *)
Definition new_node (b : state) : Z := (fold_right Z.max 0 (fst b) + 1)%Z.

Definition builder : Builder Z edge state :=
  mkBuilder new_node add_node (fun _ u v => (u, v, 0)) set_edge.

Definition weighted_builder : WeightedBuilder Z edge state :=
  mkWeightedBuilder new_node add_node (fun _ u v w => (u, v, w)) set_edge.

(** What the graph holds: a node ID, the weight of the edge between two
    IDs, an edge between two IDs. *)
Definition has (b : state) (k : Z) : Prop := In k (fst b).

Definition weight_of (b : state) (u v : Z) : option Qc :=
  match find (fun e => (from e =? u)%Z && (to e =? v)%Z) (snd b) with
  | Some e => Some (weight e)
  | None => None
  end.

Definition has_edge (b : state) (u v : Z) : Prop := weight_of b u v <> None.

(** The undirected path 1 - 2 - 3 as a source, its edges weighted 1/2 and
    3/2, and a source that lists a neighbour without an edge to it. *)
Definition path_weight (u v : Z) : Qc :=
  if ((u =? 1) && (v =? 2) || (u =? 2) && (v =? 1))%Z then Demo.q 1 2
  else Demo.q 3 2.

Definition path_from (u : Z) : list Z :=
  if (u =? 1)%Z then [2%Z]
  else if (u =? 2)%Z then [1%Z; 3%Z]
  else if (u =? 3)%Z then [2%Z]
  else [].

Definition path : Graph Z edge :=
  mkGraph (fun n => mem n [1; 2; 3]%Z) [1; 2; 3]%Z path_from
    (fun u v => mem v (path_from u))
    (fun u v => if mem v (path_from u) then Some (u, v, path_weight u v)
                else None).

Definition weighted_path : Weighted Z edge :=
  mkWeighted path (Graph_Edge path)
    (fun u v => (path_weight u v, mem v (path_from u) || (u =? v)%Z)).

Definition broken_path : Weighted Z edge :=
  mkWeighted path (fun _ _ => None) (fun _ _ => (0, false)).

(** An empty destination, and one that already holds the node 2. *)
Definition empty : state := ([], []).

Definition taken : state := ([2%Z], []).

End DemoGraph.

(** ** Scalars and slices: basic facts *)

Lemma Qc_eqb_spec (a b : Qc) : reflect (a = b) (Qc_eqb a b).
Proof.
  unfold Qc_eqb. destruct (Qeq_bool a b) eqn:E; constructor.
  - apply Qc_is_canon. now apply Qeq_bool_eq.
  - intros ->. rewrite Qeq_bool_refl in E. discriminate.
Qed.

Lemma Qc_eqb_refl (a : Qc) : Qc_eqb a a = true.
Proof. destruct (Qc_eqb_spec a a); congruence. Qed.

Lemma Qc_eqb_false (a b : Qc) : a <> b -> Qc_eqb a b = false.
Proof. destruct (Qc_eqb_spec a b); congruence. Qed.

Lemma make_length (n : nat) : length (make n) = n.
Proof. apply repeat_length. Qed.

Lemma nth_make (n i : nat) : nth i (make n) 0 = 0.
Proof.
  unfold make. revert i. induction n as [|n IH]; intros [|i]; simpl; auto.
Qed.

Lemma nth_map_seq (g : nat -> Qc) (n k : nat) :
  (k < n)%nat -> nth k (map g (seq 0 n)) 0 = g k.
Proof.
  intros Hk. rewrite (nth_indep _ 0 (g 0%nat))
    by now rewrite length_map, length_seq.
  now rewrite map_nth, seq_nth.
Qed.

Lemma nth_zeroed (l : list Qc) (i : nat) :
  nth i (map (fun _ : Qc => 0) l) 0 = 0.
Proof.
  revert i. induction l as [|a l IH]; intros [|i]; simpl; auto.
Qed.

Lemma copy_length (dst src : list Qc) : length (copy dst src) = length dst.
Proof.
  unfold copy. rewrite length_app, length_firstn, length_skipn. lia.
Qed.

Lemma copy_full (dst src : list Qc) :
  length dst = length src -> copy dst src = src.
Proof.
  intros H. unfold copy. rewrite H, firstn_all, skipn_all2 by lia.
  apply app_nil_r.
Qed.

Lemma add_at_length (c : nat) (v : Qc) (s : list Qc) :
  length (add_at c v s) = length s.
Proof.
  revert c. induction s as [|a s IH]; intros [|c]; simpl; auto.
Qed.

Lemma nth_add_at (c k : nat) (v : Qc) (s : list Qc) :
  (c < length s)%nat ->
  nth k (add_at c v s) 0 = if (k =? c)%nat then nth k s 0 + v else nth k s 0.
Proof.
  revert c k. induction s as [|a s IH]; intros c k Hc; simpl in Hc; [lia|].
  destruct c as [|c], k as [|k]; simpl; auto.
  apply IH. lia.
Qed.

Lemma add_at_perturbed (x : list Qc) (c : nat) (d : Qc) :
  (c < length x)%nat -> add_at c d x = perturbed x c d.
Proof.
  intros Hc. apply nth_ext with (d := 0) (d' := 0).
  - unfold perturbed. now rewrite add_at_length, length_map, length_seq.
  - intros k Hk. rewrite add_at_length in Hk. rewrite nth_add_at by auto.
    unfold perturbed. now rewrite nth_map_seq.
Qed.

Lemma perturbed_length (x : list Qc) (c : nat) (d : Qc) :
  length (perturbed x c d) = length x.
Proof. unfold perturbed. now rewrite length_map, length_seq. Qed.

Lemma perturbed_neq (x : list Qc) (c : nat) (d : Qc) :
  (c < length x)%nat -> d <> 0 -> perturbed x c d <> x.
Proof.
  intros Hc Hd E. apply (f_equal (fun l => nth c l 0)) in E.
  rewrite <- add_at_perturbed, nth_add_at, Nat.eqb_refl in E by auto.
  apply Hd. apply (f_equal (fun z => z - nth c x 0)) in E.
  ring_simplify in E. exact E.
Qed.

Lemma AddScaled_length (dst : list Qc) (alpha : Qc) (s : list Qc) :
  length (AddScaled dst alpha s) = length dst.
Proof.
  revert s. induction dst as [|d dst IH]; intros [|v s]; simpl; auto.
Qed.

Lemma nth_AddScaled (dst : list Qc) (alpha : Qc) (s : list Qc) (i : nat) :
  (i < length dst)%nat ->
  nth i (AddScaled dst alpha s) 0 = nth i dst 0 + alpha * nth i s 0.
Proof.
  revert s i. induction dst as [|d dst IH]; intros s i Hi; simpl in Hi; [lia|].
  destruct s as [|v s], i as [|i]; simpl; try ring.
  apply IH. lia.
Qed.

Lemma call_length (f : UserFn) (y x : list Qc) :
  length (call f y x) = length y.
Proof. unfold call. now rewrite length_map, length_seq. Qed.

Lemma nth_call (f : UserFn) (y x : list Qc) (i : nat) :
  (i < length y)%nat -> nth i (call f y x) 0 = f x i.
Proof.
  intros Hi. unfold call. now rewrite nth_map_seq.
Qed.

Lemma Qcsum_app (l1 l2 : list Qc) : Qcsum (l1 ++ l2) = Qcsum l1 + Qcsum l2.
Proof.
  induction l1 as [|a l1 IH]; simpl; [ring|]. rewrite IH. ring.
Qed.

(** ** The serial evaluator: what its loops compute *)

Section SerialFacts.

Variable f : UserFn.
Variables m n : nat.
Variable x : list Qc.
Variable origin : option (list Qc).
Variable step : Qc.
Hypothesis x_len : length x = n.

Lemma serial_origin_inv (s : serialState) :
  serial_inv f m n x origin s ->
  serial_inv f m n x origin (serial_origin f m s) /\
  st_dst (serial_origin f m s) = st_dst s /\
  st_col (serial_origin f m s) = st_col s /\
  forall i, (i < m)%nat ->
    nth i (slice_of (st_origin (serial_origin f m s))) 0
    = origin_term f x origin i.
Proof.
  intros (Hx & Hxc & Hy & Hc & Hr & Hcs & Ho).
  unfold serial_origin. destruct (st_origin s) as [o|] eqn:Eo.
  - repeat split; auto.
    + unfold serial_inv. rewrite Eo. tauto.
    + intros i Hi. rewrite Eo. simpl.
      destruct Ho as [<-|[-> Ho]]; simpl; auto.
      injection Ho as ->. now rewrite nth_call by now rewrite make_length.
  - assert (origin = None) as -> by (destruct Ho as [<-|[? ?]]; congruence).
    rewrite Hx, copy_full by congruence.
    repeat split; simpl; auto.
    intros i Hi. now rewrite nth_call by now rewrite make_length.
Qed.

Lemma serial_point_inv (c : nat) (s : serialState) (p : Point) :
  (c < n)%nat ->
  serial_inv f m n x origin s ->
  serial_inv f m n x origin (serial_point f m step c s p) /\
  st_dst (serial_point f m step c s p) = st_dst s /\
  forall i, (i < m)%nat ->
    nth i (st_col (serial_point f m step c s p)) 0
    = nth i (st_col s) 0 + Coeff p * stencil_term f x origin step i c p.
Proof.
  intros Hc Hs. unfold serial_point, stencil_term.
  destruct (Qc_eqb (Loc p) 0).
  - destruct (serial_origin_inv s Hs) as (Hs' & Hd & Hcol & Ho).
    destruct Hs' as (Hx & Hxc & Hy & Hcl & Hr & Hcs & Hor).
    repeat split; simpl; auto.
    + now rewrite AddScaled_length.
    + intros i Hi. rewrite nth_AddScaled by lia. now rewrite Ho, Hcol.
  - destruct Hs as (Hx & Hxc & Hy & Hcl & Hr & Hcs & Hor).
    rewrite Hx, copy_full by congruence.
    repeat split; simpl; auto.
    + rewrite add_at_length. congruence.
    + now rewrite call_length.
    + now rewrite AddScaled_length.
    + intros i Hi. rewrite nth_AddScaled, nth_call by lia.
      now rewrite add_at_perturbed by lia.
Qed.

Lemma serial_points_inv (c : nat) (pts : list Point) (s : serialState) :
  (c < n)%nat ->
  serial_inv f m n x origin s ->
  serial_inv f m n x origin (fold_left (serial_point f m step c) pts s) /\
  st_dst (fold_left (serial_point f m step c) pts s) = st_dst s /\
  forall i, (i < m)%nat ->
    nth i (st_col (fold_left (serial_point f m step c) pts s)) 0
    = nth i (st_col s) 0 + stencil_sum f x origin pts step i c.
Proof.
  intros Hc. revert s. induction pts as [|p pts IH]; intros s Hs; simpl.
  - split; [assumption|split; [reflexivity|]].
    intros i _. unfold stencil_sum. simpl. ring.
  - destruct (serial_point_inv c s p Hc Hs) as (Hs1 & Hd1 & Hcol1).
    destruct (IH _ Hs1) as (Hs2 & Hd2 & Hcol2).
    split; [assumption|split; [congruence|]].
    intros i Hi. rewrite Hcol2, Hcol1 by auto.
    unfold stencil_sum. simpl. ring.
Qed.

Lemma serial_column_inv (formula : Formula) (s : serialState) (c : nat) :
  (c < n)%nat ->
  serial_inv f m n x origin s ->
  serial_inv f m n x origin (serial_column f m step formula s c) /\
  forall i k, (i < m)%nat ->
    At (st_dst (serial_column f m step formula s c)) i k
    = if (k =? c)%nat
      then stencil_sum f x origin (stencil_points formula) step i c
      else At (st_dst s) i k.
Proof.
  intros Hc Hs. unfold serial_column.
  set (s0 := mkSerialState _ _ _ _ (map _ _) _ _).
  assert (Hs0 : serial_inv f m n x origin s0).
  { destruct Hs as (Hx & Hxc & Hy & Hcl & Hr & Hcs & Hor).
    repeat split; simpl; auto. now rewrite length_map. }
  destruct (serial_points_inv c (stencil_points formula) s0 Hc Hs0)
    as (Hs1 & Hd1 & Hcol1).
  destruct Hs1 as (Hx & Hxc & Hy & Hcl & Hr & Hcs & Hor).
  split.
  - repeat split; simpl; auto.
  - intros i k Hi. simpl. destruct (k =? c)%nat.
    + rewrite Hcol1 by auto. subst s0. simpl.
      destruct Hs as (_ & _ & _ & Hcl0 & _).
      rewrite nth_zeroed. ring.
    + now rewrite Hd1.
Qed.

Lemma serial_columns_inv (formula : Formula) (k : nat) (s : serialState) :
  (k <= n)%nat ->
  serial_inv f m n x origin s ->
  serial_inv f m n x origin
    (fold_left (serial_column f m step formula) (seq 0 k) s) /\
  forall i c, (i < m)%nat -> (c < k)%nat ->
    At (st_dst (fold_left (serial_column f m step formula) (seq 0 k) s)) i c
    = stencil_sum f x origin (stencil_points formula) step i c.
Proof.
  intros Hk Hs. induction k as [|k IH].
  - simpl. split; auto. intros; lia.
  - rewrite seq_S, fold_left_app. cbn [fold_left Nat.add].
    destruct IH as (Hs1 & Hat); [lia|].
    destruct (serial_column_inv formula _ k ltac:(lia) Hs1) as (Hs2 & Hcol).
    split; auto. intros i c Hi Hc. rewrite Hcol by auto.
    destruct (Nat.eqb_spec c k) as [->|Hne]; auto.
    apply Hat; lia.
Qed.

End SerialFacts.

(** ** The serial evaluator: where it evaluates [f] *)

Lemma calls_at_snoc (x y : list Qc) (calls : list (list Qc)) :
  calls_at x (calls ++ [y])
  = (calls_at x calls + if list_eq_dec Qc_eq_dec y x then 1 else 0)%nat.
Proof. unfold calls_at. rewrite count_occ_app. reflexivity. Qed.

Lemma calls_at_snoc_same (x : list Qc) (calls : list (list Qc)) :
  calls_at x (calls ++ [x]) = S (calls_at x calls).
Proof.
  rewrite calls_at_snoc. destruct (list_eq_dec Qc_eq_dec x x); [lia|congruence].
Qed.

Lemma calls_at_snoc_other (x y : list Qc) (calls : list (list Qc)) :
  y <> x -> calls_at x (calls ++ [y]) = calls_at x calls.
Proof.
  intros H. rewrite calls_at_snoc.
  destruct (list_eq_dec Qc_eq_dec y x); [congruence|lia].
Qed.

Lemma offset_nonzero (p : Point) (step : Qc) :
  Qc_eqb (Loc p) 0 = false -> step <> 0 -> Loc p * step <> 0.
Proof.
  intros Hp Hs E. destruct (Qc_eqb_spec (Loc p) 0) as [|Hl]; [discriminate|].
  apply Qcmult_integral in E. tauto.
Qed.

Section SerialCalls.

Variable f : UserFn.
Variables m n : nat.
Variable x : list Qc.
Variable origin : option (list Qc).
Variable step : Qc.
Hypothesis x_len : length x = n.
Hypothesis step_nonzero : step <> 0.

Lemma serial_point_calls (c : nat) (s : serialState) (p : Point) :
  (c < n)%nat ->
  serial_inv f m n x origin s ->
  calls_at x (st_calls s) = origin_calls origin s ->
  calls_at x (st_calls (serial_point f m step c s p))
  = origin_calls origin (serial_point f m step c s p).
Proof.
  intros Hc (Hx & Hxc & Hy & Hcl & Hr & Hcs & Hor) Hcalls.
  unfold serial_point. destruct (Qc_eqb (Loc p) 0) eqn:Ep.
  - unfold serial_origin, origin_calls in *.
    destruct (st_origin s) as [o|] eqn:Eo; simpl; rewrite ?Eo; auto.
    assert (origin = None) as -> by (destruct Hor as [<-|[? ?]]; congruence).
    rewrite Hx, copy_full by congruence.
    rewrite calls_at_snoc_same, Hcalls. reflexivity.
  - unfold origin_calls in *. simpl.
    rewrite Hx, copy_full by congruence.
    rewrite add_at_perturbed by lia.
    rewrite calls_at_snoc_other; auto.
    apply perturbed_neq; [lia|]. now apply offset_nonzero.
Qed.

Lemma serial_points_calls (c : nat) (pts : list Point) (s : serialState) :
  (c < n)%nat ->
  serial_inv f m n x origin s ->
  calls_at x (st_calls s) = origin_calls origin s ->
  calls_at x (st_calls (fold_left (serial_point f m step c) pts s))
  = origin_calls origin (fold_left (serial_point f m step c) pts s).
Proof.
  intros Hc. revert s. induction pts as [|p pts IH]; intros s Hs Hcalls; simpl.
  - assumption.
  - apply IH.
    + now apply serial_point_inv.
    + now apply serial_point_calls.
Qed.

Lemma serial_column_calls (formula : Formula) (s : serialState) (c : nat) :
  (c < n)%nat ->
  serial_inv f m n x origin s ->
  calls_at x (st_calls s) = origin_calls origin s ->
  calls_at x (st_calls (serial_column f m step formula s c))
  = origin_calls origin (serial_column f m step formula s c).
Proof.
  intros Hc Hs Hcalls. unfold serial_column.
  set (s0 := mkSerialState _ _ _ _ (map _ _) _ _).
  assert (Hs0 : serial_inv f m n x origin s0).
  { destruct Hs as (Hx & Hxc & Hy & Hcl & Hr & Hcs & Hor).
    repeat split; simpl; auto. now rewrite length_map. }
  pose proof (serial_points_calls c (stencil_points formula) s0 Hc Hs0 Hcalls)
    as H.
  exact H.
Qed.

Lemma serial_columns_calls (formula : Formula) (k : nat) (s : serialState) :
  (k <= n)%nat ->
  serial_inv f m n x origin s ->
  calls_at x (st_calls s) = origin_calls origin s ->
  calls_at x
    (st_calls (fold_left (serial_column f m step formula) (seq 0 k) s))
  = origin_calls origin
      (fold_left (serial_column f m step formula) (seq 0 k) s).
Proof.
  intros Hk Hs Hcalls. induction k as [|k IH]; [assumption|].
  rewrite seq_S, fold_left_app. cbn [fold_left Nat.add].
  apply serial_column_calls; [lia| |apply IH; lia].
  apply serial_columns_inv; auto. lia.
Qed.

End SerialCalls.

(** ** The serial evaluator: the run as a whole *)

Lemma serial_initial_inv (dst : Dense) (f : UserFn) (x : list Qc)
    (origin : option (list Qc)) :
  serial_inv f (rows dst) (cols dst) x origin
    (mkSerialState dst x (make (cols dst)) (make (rows dst))
       (make (rows dst)) origin []).
Proof. repeat split; simpl; auto using make_length. Qed.

Lemma jacobianSerial_entries (dst : Dense) (f : UserFn) (x : list Qc)
    (origin : option (list Qc)) (formula : Formula) (step : Qc) :
  length x = cols dst ->
  let r := jacobianSerial dst f x origin formula step in
  outcome r = Returned /\
  rows (run_dst r) = rows dst /\ cols (run_dst r) = cols dst /\
  run_x r = x /\
  forall i c, (i < rows dst)%nat -> (c < cols dst)%nat ->
    At (run_dst r) i c
    = difference_quotient f x origin (stencil_points formula) step i c.
Proof.
  intros Hx. unfold jacobianSerial, Dims. cbv zeta.
  destruct (serial_columns_inv f (rows dst) (cols dst) x origin step Hx
              formula (cols dst) _ (le_n _) (serial_initial_inv dst f x origin))
    as ((Hsx & _ & _ & _ & Hr & Hc & _) & Hat).
  simpl. repeat split; auto.
  intros i c Hi Hc'. unfold difference_quotient. now rewrite Hat.
Qed.

Lemma origin_calls_bound (origin : option (list Qc)) (s : serialState) :
  (origin_calls origin s <= 1)%nat /\
  (origin <> None -> origin_calls origin s = 0%nat).
Proof.
  unfold origin_calls. destruct origin, (st_origin s); split; auto; congruence.
Qed.

Lemma jacobianSerial_calls (dst : Dense) (f : UserFn) (x : list Qc)
    (origin : option (list Qc)) (formula : Formula) (step : Qc) :
  length x = cols dst -> step <> 0 ->
  let calls := run_calls (jacobianSerial dst f x origin formula step) in
  (calls_at x calls <= 1)%nat /\
  (origin <> None -> calls_at x calls = 0%nat).
Proof.
  intros Hx Hstep. unfold jacobianSerial, Dims. cbv zeta. simpl.
  rewrite (serial_columns_calls f (rows dst) (cols dst) x origin step Hx Hstep
             formula (cols dst) _ (le_n _) (serial_initial_inv dst f x origin)).
  - apply origin_calls_bound.
  - unfold origin_calls. simpl. now destruct origin.
Qed.

(** ** The worker pool: lists of workers and of jobs *)

Lemma set_nth_split {A : Type} (l1 l2 : list A) (a v : A) :
  set_nth (length l1) v (l1 ++ a :: l2) = l1 ++ v :: l2.
Proof. induction l1 as [|b l1 IH]; simpl; congruence. Qed.

Lemma set_nth_length {A : Type} (w : nat) (v : A) (l : list A) :
  length (set_nth w v l) = length l.
Proof. revert w. induction l as [|a l IH]; intros [|w]; simpl; auto. Qed.

Lemma nth_error_set_nth {A : Type} (w w' : nat) (v : A) (l : list A) :
  nth_error (set_nth w v l) w'
  = if (w' =? w)%nat
    then match nth_error l w with Some _ => Some v | None => None end
    else nth_error l w'.
Proof.
  revert w w'. induction l as [|a l IH]; intros [|w] [|w']; simpl; auto;
    try (destruct w'; reflexivity).
  now destruct (w' =? w)%nat.
Qed.

Lemma held_app (l1 l2 : list workerState) :
  held (l1 ++ l2) = held l1 ++ held l2.
Proof. unfold held. apply flat_map_app. Qed.

Lemma jobs_sum_app (f : UserFn) (x : list Qc) (step : Qc) (i c : nat)
    (l1 l2 : list jacJob) :
  jobs_sum f x step i c (l1 ++ l2)
  = jobs_sum f x step i c l1 + jobs_sum f x step i c l2.
Proof. unfold jobs_sum. now rewrite filter_app, map_app, Qcsum_app. Qed.

Lemma jobs_sum_cons (f : UserFn) (x : list Qc) (step : Qc) (i c : nat)
    (job : jacJob) (l : list jacJob) :
  jobs_sum f x step i c (job :: l)
  = (if (j job =? c)%nat then job_term f x step i job else 0)
    + jobs_sum f x step i c l.
Proof.
  unfold jobs_sum. simpl. destruct (j job =? c)%nat; simpl; ring.
Qed.

Lemma jobs_sum_nil (f : UserFn) (x : list Qc) (step : Qc) (i c : nat) :
  jobs_sum f x step i c [] = 0.
Proof. reflexivity. Qed.

Lemma call_buffer (f : UserFn) (y y' p : list Qc) :
  length y = length y' -> call f y p = call f y' p.
Proof. unfold call. now intros ->. Qed.

(** ** The worker pool: one step *)

Section PoolFacts.

Variable f : UserFn.
Variables m n : nat.
Variable x : list Qc.
Variable step : Qc.
Hypothesis x_len : length x = n.

Lemma worker_step_inv (s : poolState) (w : nat) :
  pool_inv f m n x step s ->
  pool_inv f m n x step (worker_step f step s w) /\
  forall i c, (i < m)%nat ->
    pool_total f x step i c (worker_step f step s w)
    = pool_total f x step i c s.
Proof.
  intros (Hx & Hr & Hc & Hw & Hj). unfold worker_step.
  destruct (nth_error (p_workers s) w) as [wk|] eqn:Ew.
  2:{ split; [repeat split; auto|reflexivity]. }
  destruct (nth_error_split _ _ Ew) as (l1 & l2 & Hl & Hlen).
  subst w. unfold pool_inv, pool_total, pending in *. rewrite Hl in *.
  rewrite set_nth_split.
  apply Forall_app in Hw as (Hw1 & Hw2).
  apply Forall_cons_iff in Hw2 as ((Hxc & Hy & Hjob) & Hw2).
  rewrite held_app in Hj. change (held (wk :: l2)) with
    (match w_job wk with Some job => [job] | None => [] end ++ held l2) in Hj.
  destruct (w_job wk) as [job|] eqn:Ej.
  - (* the worker adds the job it holds *)
    cbn [p_x p_dst p_jobs p_workers rows cols ColView_AddScaledVec At w_job].
    rewrite !held_app.
    change (held (wk :: l2)) with
      (match w_job wk with Some job => [job] | None => [] end ++ held l2).
    change (held (mkWorkerState (w_xcopy wk) (w_y wk) None :: l2))
      with (held l2).
    rewrite Ej. split.
    + split; [assumption|split; [assumption|split; [assumption|split]]].
      * apply Forall_app. split; auto. constructor; auto.
        repeat split; auto.
      * rewrite <- app_assoc in Hj. rewrite <- app_assoc.
        apply Forall_app in Hj as (Hj1 & Hj2).
        apply Forall_cons_iff in Hj2 as (_ & Hj2).
        apply Forall_app. split; auto.
    + intros i c Hi.
      rewrite !jobs_sum_app, jobs_sum_cons, jobs_sum_nil.
      unfold job_term. rewrite Hjob, nth_call by now rewrite make_length.
      rewrite Nat.eqb_sym. destruct (j job =? c)%nat; ring.
  - (* the worker receives the next job *)
    cbn [app] in Hj.
    destruct (p_jobs s) as [|job jobs] eqn:Eq.
    + split; [|intros; rewrite ?Hl, ?Eq; reflexivity]. rewrite Hl, Eq, held_app.
      change (held (wk :: l2)) with
        (match w_job wk with Some job => [job] | None => [] end ++ held l2).
      rewrite Ej. cbn [app].
      split; [assumption|split; [assumption|split; [assumption|split]]]; auto.
      apply Forall_app. split; auto. constructor; auto.
      repeat split; auto. now rewrite Ej.
    + assert (Hjob' : job_ok n job).
      { apply Forall_app in Hj as (_ & Hj).
        now apply Forall_cons_iff in Hj as (Hj & _). }
      cbn [p_x p_dst p_jobs p_workers rows cols At w_job].
      rewrite !set_nth_split, !held_app.
      change (held (wk :: l2)) with
        (match w_job wk with Some job => [job] | None => [] end ++ held l2).
      match goal with |- context [held (?wk' :: l2)] =>
        change (held (wk' :: l2)) with ([job] ++ held l2) end.
      rewrite Ej. cbn [app]. split.
      * split; [assumption|split; [assumption|split; [assumption|split]]].
        -- apply Forall_app. split; auto. constructor; auto.
           repeat split; simpl.
           ++ rewrite add_at_length, copy_length. exact Hxc.
           ++ rewrite call_length. exact Hy.
           ++ rewrite Hx, copy_full by congruence.
              rewrite add_at_perturbed by (destruct Hjob'; lia).
              apply call_buffer. now rewrite make_length.
        -- rewrite <- !app_assoc in *. cbn [app] in *.
           apply Forall_app in Hj as (Hj1 & Hj2).
           apply Forall_app in Hj2 as (Hj2 & Hj3).
           apply Forall_cons_iff in Hj3 as (Hj3 & Hj4).
           apply Forall_app. split; auto. constructor; auto.
           apply Forall_app. split; auto.
      * intros i c Hi.
        repeat (rewrite jobs_sum_app || rewrite jobs_sum_cons). ring.
Qed.

Lemma worker_step_calls (s : poolState) (w : nat) :
  step <> 0 ->
  pool_inv f m n x step s ->
  calls_at x (p_calls (worker_step f step s w)) = calls_at x (p_calls s).
Proof.
  intros Hstep (Hx & Hr & Hc & Hw & Hj). unfold worker_step.
  destruct (nth_error (p_workers s) w) as [wk|] eqn:Ew; auto.
  destruct (w_job wk) eqn:Ej; auto.
  unfold pending in Hj. destruct (p_jobs s) as [|job jobs]; auto.
  apply Forall_app in Hj as (_ & Hj).
  apply Forall_cons_iff in Hj as ((Hjn & Hjo) & _).
  apply Forall_forall with (x := wk) in Hw; [|eapply nth_error_In; eauto].
  destruct Hw as (Hxc & _).
  cbn [p_calls]. rewrite Hx, copy_full by congruence.
  rewrite add_at_perturbed by lia.
  apply calls_at_snoc_other. apply perturbed_neq; [lia|].
  now apply offset_nonzero.
Qed.

Lemma worker_step_frame (s : poolState) (w : nat) :
  length (p_workers (worker_step f step s w)) = length (p_workers s) /\
  p_x (worker_step f step s w) = p_x s /\
  (p_jobs s = [] -> p_jobs (worker_step f step s w) = []).
Proof.
  unfold worker_step. destruct (nth_error (p_workers s) w) as [wk|]; auto.
  destruct (w_job wk); [simpl; now rewrite set_nth_length|].
  destruct (p_jobs s) eqn:E; cbn [p_workers p_x p_jobs].
  - repeat split; auto.
  - rewrite set_nth_length. repeat split. discriminate.
Qed.

Lemma pool_steps_frame (s s' : poolState) :
  pool_steps f step s s' ->
  length (p_workers s') = length (p_workers s) /\
  p_x s' = p_x s /\
  (p_jobs s = [] -> p_jobs s' = []).
Proof.
  intros Hsteps. induction Hsteps as [|s' w Hsteps (Hl & Hx & Hj)]; auto.
  destruct (worker_step_frame s' w) as (Hl' & Hx' & Hj').
  repeat split; try congruence. auto.
Qed.

(** ** The worker pool: what every run keeps *)

Lemma pool_steps_trans (s1 s2 s3 : poolState) :
  pool_steps f step s1 s2 -> pool_steps f step s2 s3 ->
  pool_steps f step s1 s3.
Proof.
  intros H12 H23. induction H23; [assumption|]. now constructor.
Qed.

Lemma pool_steps_inv (s s' : poolState) :
  pool_steps f step s s' ->
  pool_inv f m n x step s ->
  pool_inv f m n x step s' /\
  (forall i c, (i < m)%nat ->
     pool_total f x step i c s' = pool_total f x step i c s) /\
  (step <> 0 -> calls_at x (p_calls s') = calls_at x (p_calls s)).
Proof.
  intros Hsteps Hs. induction Hsteps as [|s' w Hsteps (Hs' & Ht & Hc)].
  - auto.
  - destruct (worker_step_inv s' w Hs') as (Hs2 & Ht2).
    split; [assumption|split].
    + intros i c Hi. now rewrite Ht2, Ht.
    + intros Hstep. now rewrite worker_step_calls, Hc.
Qed.

Lemma oracle_steps (oracle : list nat) (s : poolState) :
  pool_steps f step s (fold_left (worker_step f step) oracle s).
Proof.
  revert s. induction oracle as [|w oracle IH]; intros s; simpl.
  - constructor.
  - eapply pool_steps_trans; [|apply IH]. repeat constructor.
Qed.

Lemma worker_commit_steps (s : poolState) (w : nat) :
  pool_steps f step s (worker_commit f step s w).
Proof.
  unfold worker_commit. destruct (nth_error (p_workers s) w) as [wk|].
  - destruct (w_job wk); repeat constructor.
  - constructor.
Qed.

Lemma flush_steps (ws : list nat) (s : poolState) :
  pool_steps f step s (fold_left (worker_commit f step) ws s).
Proof.
  revert s. induction ws as [|w ws IH]; intros s; simpl.
  - constructor.
  - eapply pool_steps_trans; [apply worker_commit_steps|apply IH].
Qed.

Lemma drain_steps (cnt : list jacJob) (s : poolState) :
  pool_steps f step s
    (fold_left
       (fun s (_ : jacJob) =>
          worker_step f step (worker_step f step s 0%nat) 0%nat) cnt s).
Proof.
  revert s. induction cnt as [|a cnt IH]; intros s; simpl.
  - constructor.
  - eapply pool_steps_trans; [|apply IH]. repeat constructor.
Qed.

Lemma run_pool_steps (oracle : list nat) (s : poolState) :
  pool_steps f step s (run_pool f step oracle s).
Proof.
  unfold run_pool.
  eapply pool_steps_trans; [apply oracle_steps|].
  eapply pool_steps_trans; [apply flush_steps|apply drain_steps].
Qed.

(** ** The worker pool: every job reaches the matrix *)

Lemma worker_commit_frame (s : poolState) (w : nat) :
  length (p_workers (worker_commit f step s w)) = length (p_workers s) /\
  p_jobs (worker_commit f step s w) = p_jobs s.
Proof.
  unfold worker_commit, worker_step.
  destruct (nth_error (p_workers s) w) as [wk|]; auto.
  destruct (w_job wk); auto. simpl. now rewrite set_nth_length.
Qed.

Lemma worker_commit_workers (s : poolState) (w w' : nat)
    (wk' : workerState) :
  nth_error (p_workers (worker_commit f step s w)) w' = Some wk' ->
  if (w' =? w)%nat then w_job wk' = None
  else nth_error (p_workers s) w' = Some wk'.
Proof.
  unfold worker_commit, worker_step.
  destruct (nth_error (p_workers s) w) as [wk|] eqn:Ew.
  - destruct (w_job wk) eqn:Ej.
    + simpl. rewrite nth_error_set_nth, Ew.
      destruct (w' =? w)%nat; auto. now intros [= <-].
    + destruct (Nat.eqb_spec w' w) as [->|]; auto. congruence.
  - destruct (Nat.eqb_spec w' w) as [->|]; auto. congruence.
Qed.

Lemma flush_idle (k : nat) (s : poolState) :
  let s' := fold_left (worker_commit f step) (seq 0 k) s in
  length (p_workers s') = length (p_workers s) /\
  p_jobs s' = p_jobs s /\
  forall w wk, (w < k)%nat -> nth_error (p_workers s') w = Some wk ->
    w_job wk = None.
Proof.
  induction k as [|k IH]; cbv zeta.
  - simpl. repeat split; auto. intros; lia.
  - rewrite seq_S, fold_left_app. cbn [fold_left Nat.add].
    cbv zeta in IH. destruct IH as (Hl1 & Hj1 & Hi1).
    set (s1 := fold_left (worker_commit f step) (seq 0 k) s) in *.
    destruct (worker_commit_frame s1 k) as (Hl2 & Hj2).
    repeat split; try congruence.
    intros w wk Hw Hn. apply worker_commit_workers in Hn.
    destruct (Nat.eqb_spec w k) as [->|Hne]; auto.
    apply (Hi1 w); auto. lia.
Qed.

Lemma idle_held (ws : list workerState) :
  (forall w wk, nth_error ws w = Some wk -> w_job wk = None) ->
  held ws = [].
Proof.
  induction ws as [|wk ws IH]; intros H; auto.
  unfold held in *. simpl. rewrite (H 0%nat wk eq_refl). simpl.
  apply IH. intros w wk' Hn. apply (H (S w)). exact Hn.
Qed.

Lemma drain_done (cnt : list jacJob) (s : poolState) :
  length cnt = length (p_jobs s) ->
  held (p_workers s) = [] ->
  p_workers s <> [] \/ p_jobs s = [] ->
  pending
    (fold_left
       (fun s (_ : jacJob) =>
          worker_step f step (worker_step f step s 0%nat) 0%nat) cnt s)
  = [].
Proof.
  revert s. induction cnt as [|a cnt IH]; intros s Hlen Hheld Hws.
  - simpl. unfold pending. rewrite Hheld.
    destruct (p_jobs s); [reflexivity|discriminate].
  - destruct (p_jobs s) as [|job q] eqn:Eq; [discriminate|].
    destruct Hws as [Hws|]; [|discriminate].
    destruct (p_workers s) as [|wk0 rest] eqn:Ews; [congruence|].
    cbn [fold_left]. apply IH.
    + unfold worker_step at 2. rewrite Ews. cbn [nth_error].
      assert (Ej : w_job wk0 = None).
      { unfold held in Hheld. simpl in Hheld. now destruct (w_job wk0). }
      rewrite Ej, Eq. unfold worker_step. simpl. simpl in Hlen. lia.
    + unfold worker_step at 2. rewrite Ews. cbn [nth_error].
      assert (Ej : w_job wk0 = None).
      { unfold held in Hheld. simpl in Hheld. now destruct (w_job wk0). }
      rewrite Ej, Eq. unfold worker_step. simpl.
      unfold held in Hheld. simpl in Hheld. rewrite Ej in Hheld. exact Hheld.
    + left. unfold worker_step at 2. rewrite Ews. cbn [nth_error].
      assert (Ej : w_job wk0 = None).
      { unfold held in Hheld. simpl in Hheld. now destruct (w_job wk0). }
      rewrite Ej, Eq. unfold worker_step. simpl. discriminate.
Qed.

Lemma run_pool_done (oracle : list nat) (s : poolState) :
  p_workers s <> [] \/ p_jobs s = [] ->
  pending (run_pool f step oracle s) = [].
Proof.
  intros Hws. unfold run_pool.
  set (s1 := fold_left (worker_step f step) oracle s).
  destruct (flush_idle (length (p_workers s1)) s1) as (Hl & Hj & Hidle).
  set (s2 := fold_left (worker_commit f step) _ s1) in *.
  apply drain_done; auto.
  - apply idle_held. intros w wk Hn. apply (Hidle w wk); auto.
    rewrite <- Hl. apply nth_error_Some. congruence.
  - destruct (pool_steps_frame s s1 (oracle_steps oracle s)) as (Hl1 & _ & Hj1).
    destruct Hws as [Hws|Hws].
    + left. intros E. apply Hws. apply length_zero_iff_nil.
      rewrite <- Hl1, <- Hl, E. reflexivity.
    + right. rewrite Hj. auto.
Qed.

(** Every complete interleaving of the workers is the run of some oracle. *)
Lemma flush_idle_id (ws : list nat) (s : poolState) :
  held (p_workers s) = [] ->
  fold_left (worker_commit f step) ws s = s.
Proof.
  intros Hheld. induction ws as [|w ws IH]; [reflexivity|].
  cbn [fold_left]. replace (worker_commit f step s w) with s; [exact IH|].
  unfold worker_commit.
  destruct (nth_error (p_workers s) w) as [wk|] eqn:Ew; [|reflexivity].
  destruct (w_job wk) as [job|] eqn:Ej; [|reflexivity].
  apply nth_error_split in Ew. destruct Ew as (l1 & l2 & Hl & _).
  rewrite Hl, held_app in Hheld. apply app_eq_nil in Hheld.
  destruct Hheld as (_ & Hheld). unfold held in Hheld. simpl in Hheld.
  rewrite Ej in Hheld. discriminate.
Qed.

Lemma run_pool_complete (s s' : poolState) :
  pool_steps f step s s' -> pending s' = [] ->
  exists oracle, run_pool f step oracle s = s'.
Proof.
  intros Hsteps Hdone.
  assert (Ho : exists oracle, fold_left (worker_step f step) oracle s = s').
  { clear Hdone. induction Hsteps as [|s' w Hsteps (oracle & Ho)].
    - now exists [].
    - exists (oracle ++ [w]). rewrite fold_left_app, Ho. reflexivity. }
  destruct Ho as (oracle & Ho). exists oracle.
  unfold pending in Hdone. apply app_eq_nil in Hdone.
  destruct Hdone as (Hheld & Hjobs).
  unfold run_pool. rewrite Ho, flush_idle_id, Hjobs by assumption.
  reflexivity.
Qed.

(** What a run of the pool leaves in the matrix: every job sent has been
    added to its column, whatever the schedule. *)
Lemma run_pool_entries (oracle : list nat) (s : poolState) :
  pool_inv f m n x step s ->
  p_workers s <> [] \/ p_jobs s = [] ->
  let s' := run_pool f step oracle s in
  rows (p_dst s') = m /\ cols (p_dst s') = n /\ p_x s' = x /\
  (step <> 0 -> calls_at x (p_calls s') = calls_at x (p_calls s)) /\
  forall i c, (i < m)%nat ->
    At (p_dst s') i c = At (p_dst s) i c + jobs_sum f x step i c (pending s).
Proof.
  intros Hs Hws s'.
  destruct (pool_steps_inv s s' (run_pool_steps oracle s) Hs)
    as ((Hx & Hr & Hc & _) & Ht & Hcalls).
  repeat split; auto.
  intros i c Hi. specialize (Ht i c Hi). unfold pool_total in Ht.
  unfold s' in Ht at 2. rewrite run_pool_done in Ht by assumption.
  rewrite jobs_sum_nil in Ht. rewrite <- Ht. ring.
Qed.


End PoolFacts.

(** ** The concurrent evaluator: clearing the matrix *)

Lemma zero_row (d : Dense) (i k : nat) :
  let d' := fold_left (fun d c => Set_ d i c 0) (seq 0 k) d in
  rows d' = rows d /\ cols d' = cols d /\
  forall i' c, At d' i' c
    = if (i' =? i)%nat && (c <? k)%nat then 0 else At d i' c.
Proof.
  induction k as [|k IH]; cbv zeta.
  - simpl. repeat split; auto. intros i' c. now rewrite andb_false_r.
  - rewrite seq_S, fold_left_app. cbn [fold_left Nat.add].
    cbv zeta in IH. destruct IH as (Hr & Hc & Hat).
    repeat split; auto. intros i' c. cbn [Set_ At]. rewrite Hat.
    destruct (Nat.eqb_spec i' i), (Nat.eqb_spec c k),
      (Nat.ltb_spec c k), (Nat.ltb_spec c (S k)); simpl; auto; lia.
Qed.

Lemma zero_rows (d : Dense) (n k : nat) :
  let d' :=
    fold_left (fun d i => fold_left (fun d c => Set_ d i c 0) (seq 0 n) d)
      (seq 0 k) d in
  rows d' = rows d /\ cols d' = cols d /\
  forall i c, At d' i c
    = if (i <? k)%nat && (c <? n)%nat then 0 else At d i c.
Proof.
  induction k as [|k IH]; cbv zeta.
  - simpl. repeat split; auto.
  - rewrite seq_S, fold_left_app. cbn [fold_left Nat.add].
    cbv zeta in IH. destruct IH as (Hr & Hc & Hat).
    destruct (zero_row
      (fold_left (fun d i => fold_left (fun d c => Set_ d i c 0) (seq 0 n) d)
         (seq 0 k) d) k n) as (Hr' & Hc' & Hat').
    repeat split; try congruence. intros i c. rewrite Hat', Hat.
    destruct (Nat.eqb_spec i k), (Nat.ltb_spec i k),
      (Nat.ltb_spec i (S k)), (Nat.ltb_spec c n); simpl; auto; lia.
Qed.

Lemma zero_dst_spec (d : Dense) :
  rows (zero_dst d) = rows d /\ cols (zero_dst d) = cols d /\
  forall i c, (i < rows d)%nat -> (c < cols d)%nat -> At (zero_dst d) i c = 0.
Proof.
  unfold zero_dst, Dims.
  destruct (zero_rows d (cols d) (rows d)) as (Hr & Hc & Hat).
  repeat split; auto. intros i c Hi Hc'. rewrite Hat.
  destruct (Nat.ltb_spec i (rows d)), (Nat.ltb_spec c (cols d)); auto; lia.
Qed.

(** ** The concurrent evaluator: the jobs it sends *)

Lemma enqueue_fold (n : nat) (pts : list Point) (jobs : list jacJob)
    (h : bool) (c0 : Qc) :
  fold_left (enqueue_point n) pts (jobs, h, c0)
  = (jobs ++ stencil_jobs n pts, h || has_origin pts,
     last_origin_coeff pts c0).
Proof.
  revert jobs h c0. induction pts as [|p pts IH]; intros jobs h c0.
  - simpl. now rewrite app_nil_r, orb_false_r.
  - cbn [fold_left]. unfold enqueue_point at 2.
    change (Qc_eqb (Loc p) 0) with (is_origin p).
    destruct (is_origin p) eqn:Ep; rewrite IH;
      unfold stencil_jobs, has_origin, last_origin_coeff;
      cbn [filter existsb fold_left]; rewrite Ep; cbn [negb flat_map].
    + now rewrite orb_true_r.
    + now rewrite app_assoc.
Qed.

Lemma enqueue_spec (n : nat) (formula : Formula) :
  enqueue n formula
  = (stencil_jobs n (stencil_points formula),
     has_origin (stencil_points formula),
     last_origin_coeff (stencil_points formula) 0).
Proof. unfold enqueue. now rewrite enqueue_fold. Qed.

Lemma column_jobs_sum (f : UserFn) (x : list Qc) (step : Qc) (i c : nat)
    (p : Point) (k : nat) :
  jobs_sum f x step i c (map (fun c' => mkJacJob c' p) (seq 0 k))
  = if (c <? k)%nat then job_term f x step i (mkJacJob c p) else 0.
Proof.
  induction k as [|k IH].
  - reflexivity.
  - rewrite seq_S, map_app, jobs_sum_app, IH. cbn [map Nat.add].
    rewrite jobs_sum_cons, jobs_sum_nil. cbn [j].
    destruct (Nat.ltb_spec c k), (Nat.ltb_spec c (S k)),
      (Nat.eqb_spec k c) as [->|]; try lia; ring.
Qed.

Lemma stencil_jobs_sum (f : UserFn) (x : list Qc) (step : Qc) (i c n : nat)
    (pts : list Point) :
  (c < n)%nat ->
  jobs_sum f x step i c (stencil_jobs n pts)
  = Qcsum (map (fun p => Coeff p * f (perturbed x c (Loc p * step)) i)
             (filter (fun p => negb (is_origin p)) pts)).
Proof.
  intros Hc. induction pts as [|p pts IH]; [reflexivity|].
  unfold stencil_jobs in *. cbn [filter].
  destruct (is_origin p); cbn [negb flat_map map Qcsum fold_right]; auto.
  rewrite jobs_sum_app, IH, column_jobs_sum.
  destruct (Nat.ltb_spec c n); [|lia]. reflexivity.
Qed.

Lemma stencil_jobs_ok (n : nat) (pts : list Point) :
  Forall (job_ok n) (stencil_jobs n pts).
Proof.
  induction pts as [|p pts IH]; [constructor|].
  unfold stencil_jobs in *. cbn [filter].
  destruct (is_origin p) eqn:Ep; cbn [negb flat_map]; auto.
  apply Forall_app. split; auto.
  apply Forall_forall. intros job Hin. apply in_map_iff in Hin.
  destruct Hin as (c & <- & Hin). apply in_seq in Hin.
  split; simpl; auto. lia.
Qed.

(** ** The concurrent evaluator: adding the origin value *)

Lemma origin_fold (d : Dense) (coeff : Qc) (v : list Qc) (k : nat) :
  let d' :=
    fold_left (fun d c => ColView_AddScaledVec d c coeff v) (seq 0 k) d in
  rows d' = rows d /\ cols d' = cols d /\
  forall i c, At d' i c
    = if (c <? k)%nat then At d i c + coeff * nth i v 0 else At d i c.
Proof.
  induction k as [|k IH]; cbv zeta.
  - simpl. repeat split; auto.
  - rewrite seq_S, fold_left_app. cbn [fold_left Nat.add].
    cbv zeta in IH. destruct IH as (Hr & Hc & Hat).
    repeat split; auto. intros i c. cbn [ColView_AddScaledVec At].
    rewrite Hat.
    destruct (Nat.eqb_spec c k), (Nat.ltb_spec c k),
      (Nat.ltb_spec c (S k)); auto; lia.
Qed.

(** ** The concurrent evaluator: the run as a whole *)

Lemma held_idle (wk : workerState) (k : nat) :
  w_job wk = None -> held (repeat wk k) = [].
Proof.
  intros H. induction k as [|k IH]; auto.
  unfold held in *. simpl. now rewrite H.
Qed.

Lemma pool_initial_inv (dst : Dense) (f : UserFn) (x : list Qc) (step : Qc)
    (pts : list Point) (k : nat) :
  pool_inv f (rows dst) (cols dst) x step
    (mkPoolState (zero_dst dst) x (stencil_jobs (cols dst) pts)
       (repeat (mkWorkerState (make (cols dst)) (make (rows dst)) None) k)
       []).
Proof.
  destruct (zero_dst_spec dst) as (Hr & Hc & _).
  unfold pool_inv, pending. cbn [p_x p_dst p_workers p_jobs].
  rewrite held_idle by reflexivity.
  repeat split; auto.
  - apply Forall_forall. intros wk Hin. apply repeat_spec in Hin. subst wk.
    repeat split; simpl; apply make_length.
  - apply stencil_jobs_ok.
Qed.

Lemma jacobianConcurrent_run (oracle : list nat) (dst : Dense) (f : UserFn)
    (x : list Qc) (origin : option (list Qc)) (formula : Formula)
    (step : Qc) (nWorkers : Z) :
  length x = cols dst ->
  (0 < nWorkers)%Z \/
  (nWorkers = 0%Z /\ stencil_jobs (cols dst) (stencil_points formula) = []) ->
  let r := jacobianConcurrent oracle dst f x origin formula step nWorkers in
  outcome r = Returned /\
  rows (run_dst r) = rows dst /\ cols (run_dst r) = cols dst /\
  run_x r = x /\
  (step <> 0 ->
   (calls_at x (run_calls r) <= 1)%nat /\
   (origin <> None -> calls_at x (run_calls r) = 0%nat)) /\
  forall i c, (i < rows dst)%nat -> (c < cols dst)%nat ->
    At (run_dst r) i c
    = concurrent_quotient f x origin (stencil_points formula) step i c.
Proof.
  intros Hx Hw. unfold jacobianConcurrent, Dims. cbv zeta.
  rewrite enqueue_spec.
  assert (Hneg : (nWorkers <? 0)%Z = false) by (apply Z.ltb_ge; lia).
  rewrite Hneg.
  set (pts := stencil_points formula) in *.
  assert (Hdead : (nWorkers =? 0)%Z
                  && (0 <? length (stencil_jobs (cols dst) pts))%nat = false).
  { destruct Hw as [Hw|[-> ->]]; [|reflexivity].
    destruct (Z.eqb_spec nWorkers 0); [lia|reflexivity]. }
  rewrite Hdead.
  set (s0 := mkPoolState _ _ _ _ _).
  assert (Hws : p_workers s0 <> [] \/ p_jobs s0 = []).
  { subst s0. cbn [p_workers p_jobs]. destruct Hw as [Hw|[_ ->]]; auto.
    left. destruct (Z.to_nat nWorkers) eqn:E; [lia|discriminate]. }
  destruct (run_pool_entries f (rows dst) (cols dst) x step Hx oracle s0
              (pool_initial_inv dst f x step pts _) Hws)
    as (Hr & Hc & Hpx & Hcalls & Hat).
  set (s1 := run_pool f step oracle s0) in *.
  destruct (zero_dst_spec dst) as (_ & _ & Hzero).
  assert (Hentry : forall i c, (i < rows dst)%nat -> (c < cols dst)%nat ->
    At (p_dst s1) i c
    = Qcsum (map (fun p => Coeff p * f (perturbed x c (Loc p * step)) i)
               (filter (fun p => negb (is_origin p)) pts))).
  { intros i c Hi Hc'. rewrite Hat by auto. subst s0. unfold pending.
    cbn [p_dst p_workers p_jobs]. rewrite held_idle by reflexivity.
    cbn [app]. rewrite Hzero, stencil_jobs_sum by auto. ring. }
  unfold concurrent_quotient. fold pts.
  destruct (has_origin pts) eqn:Eh.
  - destruct (origin_fold (p_dst s1) (last_origin_coeff pts 0)
                (slice_of (match origin with
                           | None => Some (call f (make (rows dst))
                                             (copy (make (cols dst)) (p_x s1)))
                           | Some _ => origin end)) (cols dst))
      as (Hr' & Hc' & Hat').
    destruct origin as [o|];
      cbn [outcome run_dst run_x run_calls Scale rows cols At].
    + split; [reflexivity|]. do 3 (split; [congruence|]). split.
      * intros Hstep. rewrite Hcalls by assumption. split; auto.
      * intros i c Hi Hcc. rewrite Hat', Hentry by auto.
        destruct (Nat.ltb_spec c (cols dst)); [|lia]. reflexivity.
    + rewrite Hpx, copy_full in * by now rewrite make_length.
      split; [reflexivity|]. do 3 (split; [congruence|]). split.
      * intros Hstep. rewrite calls_at_snoc_same, Hcalls by assumption.
        split; [auto|congruence].
      * intros i c Hi Hcc. rewrite Hat', Hentry by auto.
        destruct (Nat.ltb_spec c (cols dst)); [|lia].
        cbn [slice_of origin_term].
        now rewrite nth_call by now rewrite make_length.
  - destruct origin as [o|];
      cbn [outcome run_dst run_x run_calls Scale rows cols At];
      (split; [reflexivity|]; do 3 (split; [congruence|]); split;
       [intros Hstep; rewrite Hcalls by assumption; split; auto
       |intros i c Hi Hcc; rewrite Hentry by auto; ring]).
Qed.

Lemma jacobianConcurrent_panic (oracle : list nat) (dst : Dense) (f : UserFn)
    (x : list Qc) (origin : option (list Qc)) (formula : Formula)
    (step : Qc) (nWorkers : Z) :
  (nWorkers < 0)%Z ->
  jacobianConcurrent oracle dst f x origin formula step nWorkers
  = mkRun (Panicked "makechan: size out of range") (zero_dst dst) x [].
Proof.
  intros H. unfold jacobianConcurrent, Dims.
  apply Z.ltb_lt in H. now rewrite H.
Qed.

Lemma jacobianConcurrent_deadlock (oracle : list nat) (dst : Dense)
    (f : UserFn) (x : list Qc) (origin : option (list Qc))
    (formula : Formula) (step : Qc) :
  stencil_jobs (cols dst) (stencil_points formula) <> [] ->
  jacobianConcurrent oracle dst f x origin formula step 0
  = mkRun Deadlocked (zero_dst dst) x [].
Proof.
  intros H. unfold jacobianConcurrent, Dims. cbn [Z.ltb Z.compare Z.eqb].
  rewrite enqueue_spec.
  destruct (stencil_jobs (cols dst) (stencil_points formula)); [congruence|].
  reflexivity.
Qed.

(** ** The two evaluators compared *)

Lemma last_cons {A : Type} (a d : A) (l : list A) :
  last (a :: l) d = last l a.
Proof.
  revert a d. induction l as [|b l IH]; intros a d; [reflexivity|].
  change (last (a :: b :: l) d) with (last (b :: l) d).
  now rewrite !IH.
Qed.

Lemma last_origin_coeff_last (pts : list Point) (c0 : Qc) :
  last_origin_coeff pts c0 = last (map Coeff (filter is_origin pts)) c0.
Proof.
  revert c0. induction pts as [|p pts IH]; intros c0; [reflexivity|].
  unfold last_origin_coeff in *. cbn [fold_left filter].
  destruct (is_origin p); rewrite IH; [|reflexivity].
  cbn [map]. now rewrite last_cons.
Qed.

Lemma has_origin_filter (pts : list Point) :
  has_origin pts = (0 <? length (filter is_origin pts))%nat.
Proof.
  induction pts as [|p pts IH]; [reflexivity|].
  unfold has_origin in *. cbn [existsb filter].
  destruct (is_origin p); [reflexivity|exact IH].
Qed.

Lemma single_origin_coeff (pts : list Point) :
  single_origin pts = true ->
  Qcsum (map Coeff (filter is_origin pts))
  = if has_origin pts then last_origin_coeff pts 0 else 0.
Proof.
  unfold single_origin. rewrite has_origin_filter, last_origin_coeff_last.
  intros H. apply Nat.leb_le in H.
  destruct (filter is_origin pts) as [|p [|q l]]; simpl in *; try lia.
  - reflexivity.
  - ring.
Qed.

Lemma stencil_sum_split (f : UserFn) (x : list Qc)
    (origin : option (list Qc)) (pts : list Point) (step : Qc) (i c : nat) :
  stencil_sum f x origin pts step i c
  = Qcsum (map (fun p => Coeff p * f (perturbed x c (Loc p * step)) i)
             (filter (fun p => negb (is_origin p)) pts))
    + Qcsum (map Coeff (filter is_origin pts)) * origin_term f x origin i.
Proof.
  unfold stencil_sum. induction pts as [|p pts IH]; simpl; [ring|].
  rewrite IH. unfold stencil_term. fold (is_origin p).
  destruct (is_origin p); simpl; ring.
Qed.

Lemma quotients_agree (f : UserFn) (x : list Qc) (origin : option (list Qc))
    (pts : list Point) (step : Qc) (i c : nat) :
  single_origin pts = true ->
  concurrent_quotient f x origin pts step i c
  = difference_quotient f x origin pts step i c.
Proof.
  intros H. unfold concurrent_quotient, difference_quotient.
  rewrite stencil_sum_split, single_origin_coeff by assumption.
  destruct (has_origin pts); ring.
Qed.

(** ** The orchestrator: its checks and its dispatch *)

Lemma wrap64_small (z : Z) :
  (- 2 ^ 63 <= z <= max_int)%Z -> wrap64 z = z.
Proof.
  unfold wrap64, max_int. intros H. rewrite Z.mod_small; lia.
Qed.

Lemma subtract_origin_spec (n : Z) (pts : list Point) (evals : Z) :
  (0 <= n)%Z ->
  (n <= evals <= max_int /\ evals - (n - 1) <= max_int)%Z
  \/ has_origin pts = false ->
  subtract_origin n pts evals
  = (evals - if has_origin pts then n - 1 else 0)%Z.
Proof.
  intros Hn H. induction pts as [|p pts IH].
  - cbn. lia.
  - unfold has_origin in *. cbn [existsb subtract_origin] in *.
    change (Qc_eqb (Loc p) 0) with (is_origin p).
    destruct (is_origin p); cbn [orb] in *.
    + destruct H as [H|H]; [|discriminate].
      rewrite (wrap64_small (n - 1)) by (unfold max_int in *; lia).
      rewrite wrap64_small by (unfold max_int in *; lia). reflexivity.
    + apply IH. exact H.
Qed.

Lemma has_origin_nonempty (pts : list Point) :
  has_origin pts = true -> (1 <= length pts)%nat.
Proof. destruct pts; simpl; [discriminate|lia]. Qed.

Lemma count_evals_spec (n : nat) (formula : Formula) :
  (Z.of_nat n * Z.of_nat (length (stencil_points formula)) <= max_int)%Z ->
  count_evals (Z.of_nat n) formula = spec_evals n (stencil_points formula).
Proof.
  intros H. unfold count_evals, spec_evals.
  set (pts := stencil_points formula) in *.
  assert (H0 : (0 <= Z.of_nat n * Z.of_nat (length pts))%Z) by lia.
  rewrite wrap64_small by (unfold max_int in *; lia).
  apply subtract_origin_spec; [lia|].
  destruct (has_origin pts) eqn:E; auto. left.
  apply has_origin_nonempty in E. unfold max_int in *. split; nia.
Qed.

Lemma worker_count_spec (concurrent : bool) (gomaxprocs evals : Z) :
  worker_count concurrent gomaxprocs evals
  = spec_workers concurrent gomaxprocs evals.
Proof.
  unfold worker_count, spec_workers. destruct concurrent; auto.
  destruct (Z.gtb_spec gomaxprocs evals); lia.
Qed.

Section OrchestratorFacts.

Variable ForwardStep : Qc.
Variable GOMAXPROCS : Z.

Lemma Jacobian_rejected (oracle : list nat) (dst : Dense) (f : UserFn)
    (x : list Qc) (settings : option JacobianSettings) :
  accepted ForwardStep dst x settings = false ->
  exists msg, Jacobian ForwardStep GOMAXPROCS oracle dst f x settings
              = mkRun (Panicked msg) dst x [].
Proof.
  unfold accepted, Jacobian, Dims, origin_fits. cbv zeta.
  destruct (length x =? 0)%nat; cbn [negb andb orb]; [eauto|].
  destruct (cols dst =? length x)%nat; cbn [negb andb orb]; [|eauto].
  destruct (OriginValue (resolve_settings settings)) as [o|];
    [destruct (length o =? rows dst)%nat; cbn [negb andb orb]; [|eauto]|];
    (destruct (Derivative _ =? 0)%Z; cbn [negb andb orb]; [eauto|];
     destruct (Stencil _); cbn [negb andb orb]; [|eauto];
     destruct (Qc_eqb _ 0); cbn [negb andb orb]; [eauto|];
     destruct (Derivative _ =? 1)%Z; cbn [negb andb orb];
       [discriminate|eauto]).
Qed.

Lemma Jacobian_accepted (oracle : list nat) (dst : Dense) (f : UserFn)
    (x : list Qc) (settings : option JacobianSettings) :
  accepted ForwardStep dst x settings = true ->
  Jacobian ForwardStep GOMAXPROCS oracle dst f x settings
  = let s := resolve_settings settings in
    if (call_workers ForwardStep GOMAXPROCS x settings =? 1)%Z then
      jacobianSerial dst f x (OriginValue s) (resolve_formula ForwardStep s)
        (call_step ForwardStep settings)
    else
      jacobianConcurrent oracle dst f x (OriginValue s)
        (resolve_formula ForwardStep s) (call_step ForwardStep settings)
        (call_workers ForwardStep GOMAXPROCS x settings).
Proof.
  unfold accepted, Jacobian, Dims, origin_fits, call_workers, call_step,
    call_evals.
  cbv zeta.
  destruct (length x =? 0)%nat; [discriminate|].
  destruct (cols dst =? length x)%nat; [|discriminate].
  destruct (OriginValue (resolve_settings settings)) as [o|];
    [destruct (length o =? rows dst)%nat; [|discriminate]|];
    destruct (Derivative _ =? 0)%Z; cbn [negb andb orb]; try discriminate;
    destruct (Stencil _); cbn [negb andb orb]; try discriminate;
    destruct (Qc_eqb _ 0); cbn [negb andb orb]; try discriminate;
    destruct (Derivative _ =? 1)%Z; cbn [negb andb orb]; try discriminate;
    reflexivity.
Qed.

Lemma Jacobian_settings_ext (oracle : list nat) (dst : Dense) (f : UserFn)
    (x : list Qc) (s1 s2 : option JacobianSettings) :
  OriginValue (resolve_settings s1) = OriginValue (resolve_settings s2) ->
  resolve_formula ForwardStep (resolve_settings s1)
  = resolve_formula ForwardStep (resolve_settings s2) ->
  resolve_step (resolve_settings s1)
    (resolve_formula ForwardStep (resolve_settings s1))
  = resolve_step (resolve_settings s2)
      (resolve_formula ForwardStep (resolve_settings s2)) ->
  Concurrent (resolve_settings s1) = Concurrent (resolve_settings s2) ->
  Jacobian ForwardStep GOMAXPROCS oracle dst f x s1
  = Jacobian ForwardStep GOMAXPROCS oracle dst f x s2.
Proof.
  intros Ho Hf Hs Hc. unfold Jacobian. cbv zeta.
  rewrite Hs, Ho, Hc, Hf. reflexivity.
Qed.

Lemma accepted_facts (dst : Dense) (x : list Qc)
    (settings : option JacobianSettings) :
  accepted ForwardStep dst x settings = true ->
  x <> [] /\ length x = cols dst /\
  origin_fits (OriginValue (resolve_settings settings)) (rows dst) = true /\
  Derivative (resolve_formula ForwardStep (resolve_settings settings)) = 1%Z /\
  Stencil (resolve_formula ForwardStep (resolve_settings settings)) <> None /\
  Step (resolve_formula ForwardStep (resolve_settings settings)) <> 0 /\
  call_step ForwardStep settings <> 0.
Proof.
  unfold accepted. cbv zeta. intros H.
  repeat (apply andb_prop in H; destruct H as [H ?]).
  assert (Hs : Step (resolve_formula ForwardStep (resolve_settings settings)) <> 0).
  { intros E. rewrite E, Qc_eqb_refl in *. discriminate. }
  repeat split; auto.
  - intros ->. discriminate.
  - symmetry. now apply Nat.eqb_eq.
  - now apply Z.eqb_eq.
  - destruct (Stencil _); congruence.
  - unfold call_step, resolve_step.
    destruct (Qc_eqb_spec (Settings_Step (resolve_settings settings)) 0); auto.
Qed.

End OrchestratorFacts.

(** ** The concurrent evaluator: every worker count *)

Lemma Qc_eqb_neq (a b : Qc) : Qc_eqb a b = false -> a <> b.
Proof. destruct (Qc_eqb_spec a b); congruence. Qed.

Lemma Dense_eq_entries (a b : Dense) (e : nat -> nat -> Qc) :
  rows a = rows b -> cols a = cols b ->
  (forall i c, (i < rows a)%nat -> (c < cols a)%nat -> At a i c = e i c) ->
  (forall i c, (i < rows b)%nat -> (c < cols b)%nat -> At b i c = e i c) ->
  Dense_eq a b.
Proof.
  intros Hr Hc Ha Hb. repeat split; auto.
  intros i c Hi Hc'. rewrite Ha, Hb by congruence. reflexivity.
Qed.

(** What a concurrent evaluation leaves, whatever the worker count: without
    a channel or without anybody to receive the first job, the cleared
    matrix; otherwise the quotient of the concurrent path.  The caller's [x]
    is untouched, and [f] is evaluated at it at most once, never when an
    origin value was supplied. *)
Lemma jacobianConcurrent_any (oracle : list nat) (dst : Dense) (f : UserFn)
    (x : list Qc) (origin : option (list Qc)) (formula : Formula)
    (step : Qc) (nWorkers : Z) :
  length x = cols dst -> step <> 0 ->
  let r := jacobianConcurrent oracle dst f x origin formula step nWorkers in
  let stuck :=
    (nWorkers <? 0)%Z
    || (nWorkers =? 0)%Z
       && (0 <? length (stencil_jobs (cols dst) (stencil_points formula)))%nat
  in
  outcome r
  = (if (nWorkers <? 0)%Z then Panicked "makechan: size out of range"
     else if stuck then Deadlocked else Returned) /\
  rows (run_dst r) = rows dst /\ cols (run_dst r) = cols dst /\
  run_x r = x /\
  (calls_at x (run_calls r) <= 1)%nat /\
  (origin <> None -> calls_at x (run_calls r) = 0%nat) /\
  forall i c, (i < rows dst)%nat -> (c < cols dst)%nat ->
    At (run_dst r) i c
    = if stuck then 0
      else concurrent_quotient f x origin (stencil_points formula) step i c.
Proof.
  intros Hx Hstep. cbv zeta.
  destruct (zero_dst_spec dst) as (Hzr & Hzc & Hz).
  destruct (Z.ltb_spec nWorkers 0) as [Hneg|Hpos]; cbn [orb].
  - rewrite jacobianConcurrent_panic by assumption. simpl.
    repeat split; auto; try discriminate.
  - destruct (Z.eqb_spec nWorkers 0) as [->|Hnz]; cbn [andb].
    + destruct (stencil_jobs (cols dst) (stencil_points formula)) eqn:Ej.
      * destruct (jacobianConcurrent_run oracle dst f x origin formula step 0
                    Hx (or_intror (conj eq_refl Ej)))
          as (Ho & Hr & Hc & Hrx & Hcalls & Hat).
        destruct (Hcalls Hstep). cbn [length Nat.ltb Nat.leb].
        repeat split; auto.
      * rewrite jacobianConcurrent_deadlock by congruence.
        cbn [length Nat.ltb Nat.leb]. simpl.
        repeat split; auto; try discriminate.
    + assert (Hw : (0 < nWorkers)%Z) by lia.
      destruct (jacobianConcurrent_run oracle dst f x origin formula step
                  nWorkers Hx (or_introl Hw))
        as (Ho & Hr & Hc & Hrx & Hcalls & Hat).
      destruct (Hcalls Hstep). repeat split; auto.
Qed.


(** ** The properties of the specification *)

(** C1.  For every valid input, after the serial evaluation path returns,
    entry [(i, c)] of the destination equals [1 / step] times the sum, over
    the stencil points, of the weight of the point times component [i] of
    [f] at [x] perturbed only in coordinate [c] by the offset times the step;
    the term of an origin point is the supplied precomputed origin value when
    there is one, and [f] at the unperturbed [x] otherwise. *)
Theorem jacobianSerial_difference_quotient (dst : Dense) (f : UserFn)
    (x : list Qc) (origin : option (list Qc)) (formula : Formula)
    (step : Qc) :
  length x = cols dst ->
  origin_fits origin (rows dst) = true ->
  step <> 0 ->
  let r := jacobianSerial dst f x origin formula step in
  outcome r = Returned /\
  forall i c, (i < rows dst)%nat -> (c < cols dst)%nat ->
    At (run_dst r) i c
    = difference_quotient f x origin (stencil_points formula) step i c.
Proof.
  intros Hx _ _.
  destruct (jacobianSerial_entries dst f x origin formula step Hx)
    as (Ho & _ & _ & _ & Hat).
  split; assumption.
Qed.

(** C2.  For every valid input, the serial and the concurrent evaluation
    paths return the same destination matrix, whatever the schedule of the
    workers and however many workers there are.  The stencil satisfies the
    invariant of section 3: at most one of its points is an origin point. *)
Theorem serial_concurrent_agree (oracle : list nat) (dst : Dense)
    (f : UserFn) (x : list Qc) (origin : option (list Qc))
    (formula : Formula) (step : Qc) (nWorkers : Z) :
  length x = cols dst ->
  origin_fits origin (rows dst) = true ->
  step <> 0 ->
  single_origin (stencil_points formula) = true ->
  (0 < nWorkers)%Z ->
  let serial := jacobianSerial dst f x origin formula step in
  let concurrent :=
    jacobianConcurrent oracle dst f x origin formula step nWorkers in
  outcome serial = Returned /\ outcome concurrent = Returned /\
  Dense_eq (run_dst serial) (run_dst concurrent).
Proof.
  intros Hx _ _ Hone Hw.
  destruct (jacobianSerial_entries dst f x origin formula step Hx)
    as (Hos & Hrs & Hcs & _ & Hats).
  destruct (jacobianConcurrent_run oracle dst f x origin formula step nWorkers
              Hx (or_introl Hw))
    as (Hoc & Hrc & Hcc & _ & _ & Hatc).
  cbv zeta. split; [assumption|split; [assumption|]].
  apply Dense_eq_entries
    with (e := difference_quotient f x origin (stencil_points formula) step);
    try congruence.
  - intros i c Hi Hc. apply Hats; congruence.
  - intros i c Hi Hc. rewrite Hatc by congruence.
    now apply quotients_agree.
Qed.

(** C3.  Whenever a precondition is violated -- [x] is empty, the column
    count of the matrix differs from the length of [x], a supplied origin
    value does not have one element per row, the resolved formula has
    derivative order zero or step zero, or its derivative order is not 1 --
    [Jacobian] panics with the matrix and [x] as they were and without a
    single call of [f]. *)
Theorem Jacobian_precondition_panics (ForwardStep : Qc) (GOMAXPROCS : Z)
    (oracle : list nat) (dst : Dense) (f : UserFn) (x : list Qc)
    (settings : option JacobianSettings) :
  let s := resolve_settings settings in
  let formula := resolve_formula ForwardStep s in
  x = [] \/ cols dst <> length x \/
  origin_fits (OriginValue s) (rows dst) = false \/
  Derivative formula = 0%Z \/ Step formula = 0 \/ Derivative formula <> 1%Z ->
  exists msg,
    Jacobian ForwardStep GOMAXPROCS oracle dst f x settings
    = mkRun (Panicked msg) dst x [].
Proof.
  cbv zeta. intros H. apply Jacobian_rejected.
  destruct (accepted ForwardStep dst x settings) eqn:E; [|reflexivity].
  destruct (accepted_facts ForwardStep dst x settings E)
    as (H1 & H2 & H3 & H4 & H5 & H6 & H7).
  destruct H as [H|[H|[H|[H|[H|H]]]]]; congruence.
Qed.

(** C4, as the code has it.  Whenever the stencil of the resolved formula is
    [nil] (unset), [Jacobian] panics, with the matrix and [x] as they were
    and without a call of [f].  A stencil that is set but holds no point is
    not refused. *)
Theorem Jacobian_nil_stencil_panics (ForwardStep : Qc) (GOMAXPROCS : Z)
    (oracle : list nat) (dst : Dense) (f : UserFn) (x : list Qc)
    (settings : option JacobianSettings) :
  Stencil (resolve_formula ForwardStep (resolve_settings settings)) = None ->
  exists msg,
    Jacobian ForwardStep GOMAXPROCS oracle dst f x settings
    = mkRun (Panicked msg) dst x [].
Proof.
  intros H. apply Jacobian_rejected.
  destruct (accepted ForwardStep dst x settings) eqn:E; [|reflexivity].
  destruct (accepted_facts ForwardStep dst x settings E)
    as (_ & _ & _ & _ & H5 & _).
  congruence.
Qed.

(** C5.  For every input the orchestrator accepts, with the product of the
    two lengths within the range of [int]: the variable [evals] is the length
    of [x] times the size of the stencil, minus the length of [x] less one
    when the stencil contains an origin point; the worker count is 1 when
    concurrency is not requested and otherwise the lesser of the available
    parallelism and [evals], which it then never exceeds (3 workers for 3
    evaluations and a parallelism of 8); and the serial evaluator runs
    exactly when the worker count is 1. *)
Theorem Jacobian_worker_count (ForwardStep : Qc) (GOMAXPROCS : Z)
    (oracle : list nat) (dst : Dense) (f : UserFn) (x : list Qc)
    (settings : option JacobianSettings) :
  let s := resolve_settings settings in
  let formula := resolve_formula ForwardStep s in
  let evals := call_evals ForwardStep x settings in
  let nWorkers := call_workers ForwardStep GOMAXPROCS x settings in
  accepted ForwardStep dst x settings = true ->
  (Z.of_nat (length x) * Z.of_nat (length (stencil_points formula))
   <= max_int)%Z ->
  evals = spec_evals (length x) (stencil_points formula) /\
  nWorkers = spec_workers (Concurrent s) GOMAXPROCS evals /\
  (Concurrent s = true -> (nWorkers <= evals)%Z) /\
  worker_count true 8 3 = 3%Z /\
  Jacobian ForwardStep GOMAXPROCS oracle dst f x settings
  = if (nWorkers =? 1)%Z then
      jacobianSerial dst f x (OriginValue s) formula
        (call_step ForwardStep settings)
    else
      jacobianConcurrent oracle dst f x (OriginValue s) formula
        (call_step ForwardStep settings) nWorkers.
Proof.
  cbv zeta. intros Hacc Hfit.
  assert (Hw : call_workers ForwardStep GOMAXPROCS x settings
               = spec_workers (Concurrent (resolve_settings settings))
                   GOMAXPROCS (call_evals ForwardStep x settings))
    by apply worker_count_spec.
  split; [now apply count_evals_spec|].
  split; [exact Hw|].
  split; [|split; [reflexivity|now apply Jacobian_accepted]].
  intros Hc. rewrite Hw, Hc. unfold spec_workers. lia.
Qed.

(** C6.  For every non-empty [x] and every non-zero step, [Jacobian] with a
    formula whose stencil is exactly the origin with weight -1 and the
    point at offset 1 with weight +1, applied to the identity function on a
    square matrix, yields the identity matrix, on the serial path and, with
    at least one processor and twice the length of [x] within the range of
    [int], on the concurrent path under every schedule. *)
Theorem Jacobian_identity (ForwardStep : Qc) (GOMAXPROCS : Z)
    (oracle : list nat) (dst : Dense) (x : list Qc) (fstep step : Qc)
    (concurrent : bool) :
  x <> [] ->
  rows dst = length x -> cols dst = length x ->
  fstep <> 0 ->
  (concurrent = true ->
   (1 <= GOMAXPROCS)%Z /\ (2 * Z.of_nat (length x) <= max_int)%Z) ->
  let formula := mkFormula (Some forward_stencil) 1%Z fstep in
  let settings := mkJacobianSettings formula None step concurrent in
  let r :=
    Jacobian ForwardStep GOMAXPROCS oracle dst identity_fn x (Some settings) in
  outcome r = Returned /\
  rows (run_dst r) = length x /\ cols (run_dst r) = length x /\
  forall i c, (i < length x)%nat -> (c < length x)%nat ->
    At (run_dst r) i c = identity_entry i c.
Proof.
  intros Hne Hr Hc Hf Hconc. cbv zeta.
  set (formula := mkFormula (Some forward_stencil) 1%Z fstep).
  set (settings := Some (mkJacobianSettings formula None step concurrent)).
  assert (Hacc : accepted ForwardStep dst x settings = true).
  { unfold accepted, origin_fits. cbn. rewrite Hc, Nat.eqb_refl.
    rewrite (Qc_eqb_false fstep 0) by assumption.
    destruct x; [congruence|reflexivity]. }
  destruct (accepted_facts ForwardStep dst x settings Hacc)
    as (_ & Hx & _ & _ & _ & _ & Hstep).
  rewrite Jacobian_accepted by assumption. cbv zeta.
  change (resolve_formula ForwardStep (resolve_settings settings))
    with formula.
  change (OriginValue (resolve_settings settings)) with (@None (list Qc)).
  set (h := call_step ForwardStep settings) in *.
  assert (Hq : forall i c, (i < length x)%nat -> (c < length x)%nat ->
    difference_quotient identity_fn x None forward_stencil h i c
    = identity_entry i c).
  { intros i c Hi Hc'.
    unfold difference_quotient, stencil_sum, forward_stencil, stencil_term.
    cbn [map Qcsum fold_right Loc Coeff].
    rewrite Qc_eqb_refl. change (Qc_eqb 1 0) with false.
    unfold origin_term, identity_fn, identity_entry.
    rewrite <- add_at_perturbed, nth_add_at by lia.
    destruct (i =? c)%nat; field; assumption. }
  destruct (call_workers ForwardStep GOMAXPROCS x settings =? 1)%Z eqn:Ew.
  - destruct (jacobianSerial_entries dst identity_fn x None formula h Hx)
      as (Ho & Hr' & Hc' & _ & Hat).
    repeat split; try congruence.
    intros i c Hi Hcc. rewrite Hat by congruence. now apply Hq.
  - assert (Hw : (0 < call_workers ForwardStep GOMAXPROCS x settings)%Z).
    { unfold call_workers in *. rewrite worker_count_spec in *.
      change (Concurrent (resolve_settings settings)) with concurrent in *.
      unfold spec_workers in *. destruct concurrent; [|discriminate].
      destruct (Hconc eq_refl) as (Hp & Hfit).
      unfold call_evals.
      change (resolve_formula ForwardStep (resolve_settings settings))
        with formula.
      rewrite count_evals_spec
        by (change (Z.of_nat (length (stencil_points formula))) with 2%Z;
            lia).
      unfold spec_evals.
      change (Z.of_nat (length (stencil_points formula))) with 2%Z.
      change (has_origin (stencil_points formula)) with true.
      cbv iota. lia. }
    destruct (jacobianConcurrent_run oracle dst identity_fn x None formula h
                _ Hx (or_introl Hw))
      as (Ho & Hr' & Hc' & _ & _ & Hat).
    repeat split; try congruence.
    intros i c Hi Hcc. rewrite Hat by congruence.
    rewrite quotients_agree by reflexivity. now apply Hq.
Qed.

(** C7.  For every call: when the settings carry a precomputed origin value,
    [f] is never evaluated at the unperturbed point [x]; and when they carry
    none, [f] is evaluated at [x] at most once. *)
Theorem Jacobian_origin_calls (ForwardStep : Qc) (GOMAXPROCS : Z)
    (oracle : list nat) (dst : Dense) (f : UserFn) (x : list Qc)
    (settings : option JacobianSettings) :
  let r := Jacobian ForwardStep GOMAXPROCS oracle dst f x settings in
  (OriginValue (resolve_settings settings) <> None ->
   calls_at x (run_calls r) = 0%nat) /\
  (calls_at x (run_calls r) <= 1)%nat.
Proof.
  cbv zeta.
  destruct (accepted ForwardStep dst x settings) eqn:E.
  - destruct (accepted_facts ForwardStep dst x settings E)
      as (_ & Hx & _ & _ & _ & _ & Hstep).
    rewrite Jacobian_accepted by assumption. cbv zeta.
    destruct (_ =? 1)%Z.
    + destruct (jacobianSerial_calls dst f x
                  (OriginValue (resolve_settings settings))
                  (resolve_formula ForwardStep (resolve_settings settings))
                  (call_step ForwardStep settings) Hx Hstep).
      split; assumption.
    + destruct (jacobianConcurrent_any oracle dst f x
                  (OriginValue (resolve_settings settings))
                  (resolve_formula ForwardStep (resolve_settings settings))
                  (call_step ForwardStep settings)
                  (call_workers ForwardStep GOMAXPROCS x settings) Hx Hstep)
        as (_ & _ & _ & _ & Hle & Hzero & _).
      split; assumption.
  - destruct (Jacobian_rejected ForwardStep GOMAXPROCS oracle dst f x settings E)
      as (msg & ->).
    simpl. split; auto.
Qed.

(** C8.  For every matrix, function and [x], a call with [nil] settings is
    the same run -- the same panic, the same calls of [f], the same final
    matrix -- as a call with the zero value of the settings, and as a call
    with the defaults spelled out: the formula [Forward], its own step, no
    precomputed origin value, concurrency off. *)
Theorem Jacobian_nil_settings (ForwardStep : Qc) (GOMAXPROCS : Z)
    (oracle : list nat) (dst : Dense) (f : UserFn) (x : list Qc) :
  Jacobian ForwardStep GOMAXPROCS oracle dst f x None
  = Jacobian ForwardStep GOMAXPROCS oracle dst f x (Some zeroSettings) /\
  Jacobian ForwardStep GOMAXPROCS oracle dst f x None
  = Jacobian ForwardStep GOMAXPROCS oracle dst f x
      (Some (mkJacobianSettings (Forward ForwardStep) None
               (Step (Forward ForwardStep)) false)).
Proof.
  split; [reflexivity|].
  assert (Hf : resolve_formula ForwardStep zeroSettings = Forward ForwardStep).
  { reflexivity. }
  apply Jacobian_settings_ext; unfold resolve_settings; rewrite ?Hf;
    try reflexivity.
  unfold resolve_step, zeroSettings.
  cbn [Settings_Step Step Forward]. rewrite Qc_eqb_refl.
  now destruct (Qc_eqb ForwardStep 0).
Qed.

(** C9.  For every call, [Jacobian] leaves the input vector [x] unchanged:
    after the call, whether it returned, panicked or blocked, [x] holds
    exactly what it held before. *)
Theorem Jacobian_preserves_x (ForwardStep : Qc) (GOMAXPROCS : Z)
    (oracle : list nat) (dst : Dense) (f : UserFn) (x : list Qc)
    (settings : option JacobianSettings) :
  run_x (Jacobian ForwardStep GOMAXPROCS oracle dst f x settings) = x.
Proof.
  destruct (accepted ForwardStep dst x settings) eqn:E.
  - destruct (accepted_facts ForwardStep dst x settings E)
      as (_ & Hx & _ & _ & _ & _ & Hstep).
    rewrite Jacobian_accepted by assumption. cbv zeta.
    destruct (_ =? 1)%Z.
    + now apply jacobianSerial_entries.
    + now apply jacobianConcurrent_any.
  - destruct (Jacobian_rejected ForwardStep GOMAXPROCS oracle dst f x settings E)
      as (msg & ->).
    reflexivity.
Qed.

(** C10.  For every input the orchestrator accepts, the final contents of
    the destination do not depend on its initial contents: two calls that
    differ only in the values the matrix holds beforehand, and possibly in
    the schedule of their workers, end alike and leave the same matrix. *)
Theorem Jacobian_overwrites (ForwardStep : Qc) (GOMAXPROCS : Z)
    (oracle1 oracle2 : list nat) (dst1 dst2 : Dense) (f : UserFn)
    (x : list Qc) (settings : option JacobianSettings) :
  rows dst1 = rows dst2 -> cols dst1 = cols dst2 ->
  accepted ForwardStep dst1 x settings = true ->
  let r1 := Jacobian ForwardStep GOMAXPROCS oracle1 dst1 f x settings in
  let r2 := Jacobian ForwardStep GOMAXPROCS oracle2 dst2 f x settings in
  outcome r1 = outcome r2 /\ Dense_eq (run_dst r1) (run_dst r2).
Proof.
  intros Hr Hc Hacc1. cbv zeta.
  assert (Hacc2 : accepted ForwardStep dst2 x settings = true).
  { unfold accepted in *. now rewrite <- Hr, <- Hc. }
  destruct (accepted_facts ForwardStep dst1 x settings Hacc1)
    as (_ & Hx1 & _ & _ & _ & _ & Hstep).
  assert (Hx2 : length x = cols dst2) by congruence.
  rewrite !Jacobian_accepted by assumption. cbv zeta.
  set (origin := OriginValue (resolve_settings settings)).
  set (formula := resolve_formula ForwardStep (resolve_settings settings)).
  set (step := call_step ForwardStep settings) in *.
  set (nWorkers := call_workers ForwardStep GOMAXPROCS x settings).
  destruct (nWorkers =? 1)%Z.
  - destruct (jacobianSerial_entries dst1 f x origin formula step Hx1)
      as (Ho1 & Hr1 & Hc1 & _ & Hat1).
    destruct (jacobianSerial_entries dst2 f x origin formula step Hx2)
      as (Ho2 & Hr2 & Hc2 & _ & Hat2).
    split; [congruence|].
    apply Dense_eq_entries
      with (e := difference_quotient f x origin (stencil_points formula) step);
      try congruence.
    + intros i c Hi Hc'. apply Hat1; congruence.
    + intros i c Hi Hc'. apply Hat2; congruence.
  - destruct (jacobianConcurrent_any oracle1 dst1 f x origin formula step
                nWorkers Hx1 Hstep)
      as (Ho1 & Hr1 & Hc1 & _ & _ & _ & Hat1).
    destruct (jacobianConcurrent_any oracle2 dst2 f x origin formula step
                nWorkers Hx2 Hstep)
      as (Ho2 & Hr2 & Hc2 & _ & _ & _ & Hat2).
    rewrite <- Hc in Ho2, Hat2.
    split; [congruence|].
    eapply Dense_eq_entries; try congruence.
    + intros i c Hi Hc'. apply Hat1; congruence.
    + intros i c Hi Hc'. apply Hat2; congruence.
Qed.

(** ** The properties at concrete inputs *)

(** The forward difference of [x0 * x0] at 3 with step 1e-6 is 6 + 1e-6. *)
Example Jacobian_square :
  let r := Jacobian Demo.forward_step Demo.procs [] Demo.ones11 Demo.square
             Demo.x1 (Some Demo.micro_settings) in
  outcome r = Returned /\
  Demo.entries (run_dst r) = [[(6000001 # 1000000)%Q]] /\
  run_calls r = [Demo.x1; [Demo.q 3000001 1000000]].
Proof.
  repeat split.
Qed.

(** The central difference of [Demo.f32] at [(3, 5)], serially and with
    three workers stepping out of order. *)
Example Jacobian_central :
  Demo.entries
    (run_dst (Jacobian Demo.forward_step Demo.procs [] Demo.ones32 Demo.f32
                Demo.x2 (Some (Demo.central_settings false))))
  = [[5; 3]; [1; 2]; [0; 10]]%Q /\
  Demo.entries
    (run_dst (Jacobian Demo.forward_step Demo.procs [2; 0; 1; 1; 0; 2; 3]%nat
                Demo.ones32 Demo.f32 Demo.x2
                (Some (Demo.central_settings true))))
  = [[5; 3]; [1; 2]; [0; 10]]%Q.
Proof. split; vm_compute; reflexivity. Qed.

(** The hypothesis of C2 on the stencil cannot be dropped: with two origin
    points the serial path adds the origin value twice, the concurrent path
    once. *)
Example two_origins_disagree :
  let serial :=
    jacobianSerial Demo.ones11 Demo.square Demo.x1 None Demo.two_origins 1 in
  let concurrent :=
    jacobianConcurrent [] Demo.ones11 Demo.square Demo.x1 None
      Demo.two_origins 1 2 in
  single_origin (stencil_points Demo.two_origins) = false /\
  this (At (run_dst serial) 0 0) = 34%Q /\
  this (At (run_dst concurrent) 0 0) = 25%Q.
Proof. repeat split. Qed.

Lemma jacobianSerial_difference_quotient_witness :
  let r :=
    jacobianSerial Demo.ones32 Demo.f32 Demo.x2 None Demo.central
      (Demo.q 1 10) in
  outcome r = Returned /\
  forall i c, (i < rows Demo.ones32)%nat -> (c < cols Demo.ones32)%nat ->
    At (run_dst r) i c
    = difference_quotient Demo.f32 Demo.x2 None
        (stencil_points Demo.central) (Demo.q 1 10) i c.
Proof.
  apply (jacobianSerial_difference_quotient Demo.ones32 Demo.f32 Demo.x2 None
           Demo.central (Demo.q 1 10)).
  - reflexivity.
  - reflexivity.
  - apply Qc_eqb_neq. reflexivity.
Defined.

Lemma serial_concurrent_agree_witness :
  let serial :=
    jacobianSerial Demo.ones32 Demo.f32 Demo.x2 None Demo.central
      (Demo.q 1 10) in
  let concurrent :=
    jacobianConcurrent [1; 0; 1; 0]%nat Demo.ones32 Demo.f32 Demo.x2 None
      Demo.central (Demo.q 1 10) 2 in
  outcome serial = Returned /\ outcome concurrent = Returned /\
  Dense_eq (run_dst serial) (run_dst concurrent).
Proof.
  apply (serial_concurrent_agree [1; 0; 1; 0]%nat Demo.ones32 Demo.f32
           Demo.x2 None Demo.central (Demo.q 1 10) 2).
  - reflexivity.
  - reflexivity.
  - apply Qc_eqb_neq. reflexivity.
  - reflexivity.
  - lia.
Defined.

Lemma Jacobian_precondition_panics_witness :
  cols Demo.ones32 <> length Demo.x1 /\
  exists msg,
    Jacobian Demo.forward_step Demo.procs [] Demo.ones32 Demo.f32 Demo.x1 None
    = mkRun (Panicked msg) Demo.ones32 Demo.x1 [].
Proof.
  split.
  - simpl. lia.
  - apply (Jacobian_precondition_panics Demo.forward_step Demo.procs []
             Demo.ones32 Demo.f32 Demo.x1 None).
    right. left. simpl. lia.
Defined.

(** C4, as the specification has it, fails: a formula whose stencil is set
    and holds no point is accepted, and the call returns. *)
Lemma Jacobian_empty_stencil_returns :
  stencil_points
    (resolve_formula Demo.forward_step
       (resolve_settings (Some Demo.empty_settings))) = [] /\
  outcome (Jacobian Demo.forward_step Demo.procs [] Demo.ones32 Demo.f32
             Demo.x2 (Some Demo.empty_settings)) = Returned /\
  forall msg,
    outcome (Jacobian Demo.forward_step Demo.procs [] Demo.ones32 Demo.f32
               Demo.x2 (Some Demo.empty_settings)) <> Panicked msg.
Proof.
  split; [reflexivity|]. split; [reflexivity|]. intros msg. discriminate.
Qed.

Lemma Jacobian_nil_stencil_panics_witness :
  Stencil
    (resolve_formula Demo.forward_step
       (resolve_settings (Some Demo.unset_settings))) = None /\
  exists msg,
    Jacobian Demo.forward_step Demo.procs [] Demo.ones32 Demo.f32 Demo.x2
      (Some Demo.unset_settings)
    = mkRun (Panicked msg) Demo.ones32 Demo.x2 [].
Proof.
  split.
  - reflexivity.
  - apply (Jacobian_nil_stencil_panics Demo.forward_step Demo.procs []
             Demo.ones32 Demo.f32 Demo.x2 (Some Demo.unset_settings)).
    reflexivity.
Defined.

Lemma Jacobian_worker_count_witness :
  let settings := Some (Demo.central_settings true) in
  let s := resolve_settings settings in
  let formula := resolve_formula Demo.forward_step s in
  let evals := call_evals Demo.forward_step Demo.x2 settings in
  let nWorkers := call_workers Demo.forward_step Demo.procs Demo.x2 settings in
  evals = spec_evals (length Demo.x2) (stencil_points formula) /\
  nWorkers = spec_workers (Concurrent s) Demo.procs evals /\
  (Concurrent s = true -> (nWorkers <= evals)%Z) /\
  worker_count true 8 3 = 3%Z /\
  Jacobian Demo.forward_step Demo.procs [] Demo.ones32 Demo.f32 Demo.x2
    settings
  = if (nWorkers =? 1)%Z then
      jacobianSerial Demo.ones32 Demo.f32 Demo.x2 (OriginValue s) formula
        (call_step Demo.forward_step settings)
    else
      jacobianConcurrent [] Demo.ones32 Demo.f32 Demo.x2 (OriginValue s)
        formula (call_step Demo.forward_step settings) nWorkers.
Proof.
  apply (Jacobian_worker_count Demo.forward_step Demo.procs [] Demo.ones32
           Demo.f32 Demo.x2 (Some (Demo.central_settings true))).
  - reflexivity.
  - unfold max_int. simpl. lia.
Defined.

Lemma Jacobian_identity_witness :
  let formula := mkFormula (Some forward_stencil) 1%Z (Demo.q 1 10) in
  let settings := mkJacobianSettings formula None 0 true in
  let r :=
    Jacobian Demo.forward_step Demo.procs [0; 1; 0]%nat Demo.ones22
      identity_fn Demo.x2 (Some settings) in
  outcome r = Returned /\
  rows (run_dst r) = length Demo.x2 /\ cols (run_dst r) = length Demo.x2 /\
  forall i c, (i < length Demo.x2)%nat -> (c < length Demo.x2)%nat ->
    At (run_dst r) i c = identity_entry i c.
Proof.
  apply (Jacobian_identity Demo.forward_step Demo.procs [0; 1; 0]%nat
           Demo.ones22 Demo.x2 (Demo.q 1 10) 0 true).
  - discriminate.
  - reflexivity.
  - reflexivity.
  - apply Qc_eqb_neq. reflexivity.
  - intros _. unfold Demo.procs, max_int. simpl. lia.
Defined.

Lemma Jacobian_overwrites_witness :
  let settings := Some (Demo.central_settings true) in
  let r1 :=
    Jacobian Demo.forward_step Demo.procs [] Demo.ones32 Demo.f32 Demo.x2
      settings in
  let r2 :=
    Jacobian Demo.forward_step Demo.procs [1; 0; 1]%nat Demo.ramp32 Demo.f32
      Demo.x2 settings in
  outcome r1 = outcome r2 /\ Dense_eq (run_dst r1) (run_dst r2).
Proof.
  apply (Jacobian_overwrites Demo.forward_step Demo.procs [] [1; 0; 1]%nat
           Demo.ones32 Demo.ramp32 Demo.f32 Demo.x2
           (Some (Demo.central_settings true))).
  - reflexivity.
  - reflexivity.
  - reflexivity.
Defined.

(** ** The evaluations of [f]: which points, how many *)

Section SerialTrace.

Variable f : UserFn.
Variables m n : nat.
Variable x : list Qc.
Variable origin : option (list Qc).
Variable step : Qc.
Hypothesis x_len : length x = n.

Lemma serial_point_trace (c : nat) (s : serialState) (p : Point)
    (acc : list (list Qc)) :
  (c < n)%nat ->
  serial_inv f m n x origin s ->
  Permutation (st_calls s) (repeat x (origin_calls origin s) ++ acc) ->
  let s' := serial_point f m step c s p in
  Permutation (st_calls s')
    (repeat x (origin_calls origin s')
     ++ acc ++ (if is_origin p then [] else [perturbed x c (Loc p * step)]))
  /\ (st_origin s' = None <-> st_origin s = None /\ is_origin p = false).
Proof.
  intros Hc (Hx & Hxc & Hy & Hcl & Hr & Hcs & Hor) Hp. cbv zeta.
  unfold serial_point, is_origin. destruct (Qc_eqb (Loc p) 0) eqn:Ep.
  - unfold serial_origin, origin_calls in *.
    destruct (st_origin s) as [o|] eqn:Eo; cbn [st_calls st_origin].
    + rewrite Eo, app_nil_r. split; [exact Hp|]. split; [discriminate|].
      intros (H & _). discriminate.
    + assert (origin = None) as -> by (destruct Hor as [<-|[? ?]]; congruence).
      rewrite Hx, copy_full by congruence. rewrite app_nil_r.
      split; [|split; [discriminate|intros (_ & H); discriminate]].
      cbn [repeat app] in *. rewrite Hp.
      rewrite <- Permutation_cons_append. reflexivity.
  - unfold origin_calls in *. cbn [st_calls st_origin].
    rewrite Hx, copy_full by congruence.
    rewrite add_at_perturbed by lia. split; [|tauto].
    rewrite Hp, !app_assoc. reflexivity.
Qed.

Lemma serial_points_trace (c : nat) (pts : list Point) (s : serialState)
    (acc : list (list Qc)) :
  (c < n)%nat ->
  serial_inv f m n x origin s ->
  Permutation (st_calls s) (repeat x (origin_calls origin s) ++ acc) ->
  let s' := fold_left (serial_point f m step c) pts s in
  Permutation (st_calls s')
    (repeat x (origin_calls origin s') ++ acc ++ column_points x step pts c)
  /\ (st_origin s' = None <-> st_origin s = None /\ has_origin pts = false).
Proof.
  intros Hc. revert s acc.
  induction pts as [|p pts IH]; intros s acc Hs Hp; cbv zeta.
  - cbn [fold_left]. unfold column_points. cbn [filter map has_origin existsb].
    rewrite app_nil_r. split; [exact Hp|tauto].
  - cbn [fold_left].
    destruct (serial_point_trace c s p acc Hc Hs Hp) as (Hp1 & Ho1).
    destruct (serial_point_inv f m n x origin step x_len c s p Hc Hs)
      as (Hs1 & _).
    destruct (IH _ _ Hs1 Hp1) as (Hp2 & Ho2). split.
    + rewrite Hp2. apply Permutation_app_head.
      unfold column_points. cbn [filter].
      destruct (is_origin p); cbn [negb map].
      * now rewrite app_nil_r.
      * rewrite <- app_assoc. reflexivity.
    + rewrite Ho2, Ho1. unfold has_origin. cbn [existsb].
      destruct (is_origin p); cbn [orb]; intuition congruence.
Qed.

Lemma serial_columns_trace (formula : Formula) (k : nat) (s : serialState) :
  (k <= n)%nat ->
  serial_inv f m n x origin s ->
  st_calls s = [] -> st_origin s = origin ->
  let pts := stencil_points formula in
  let s' := fold_left (serial_column f m step formula) (seq 0 k) s in
  Permutation (st_calls s')
    (repeat x (origin_calls origin s') ++ perturbed_points x step pts k)
  /\ (st_origin s' = None
      <-> origin = None /\ (has_origin pts = false \/ k = 0%nat)).
Proof.
  intros Hk Hs Hc0 Ho0. cbv zeta. induction k as [|k IH].
  - cbn [seq fold_left]. rewrite Hc0, Ho0. unfold origin_calls. rewrite Ho0.
    split; [now destruct origin|]. intuition.
  - rewrite seq_S, fold_left_app. cbn [fold_left Nat.add].
    destruct IH as (Hp & Ho); [lia|].
    destruct (serial_columns_inv f m n x origin step x_len formula k s
                ltac:(lia) Hs) as (Hs1 & _).
    set (s1 := fold_left (serial_column f m step formula) (seq 0 k) s) in *.
    unfold serial_column.
    set (s0 := mkSerialState _ _ _ _ (map _ _) _ _).
    assert (Hs0 : serial_inv f m n x origin s0).
    { destruct Hs1 as (Hx & Hxc & Hy & Hcl & Hr & Hcs & Hor).
      repeat split; simpl; auto. now rewrite length_map. }
    destruct (serial_points_trace k (stencil_points formula) s0 _
                ltac:(lia) Hs0 Hp) as (Hp2 & Ho2).
    cbn [st_calls st_origin]. split.
    + unfold origin_calls in *. cbn [st_origin]. rewrite Hp2.
      apply Permutation_app_head. unfold perturbed_points.
      rewrite seq_S, flat_map_app. cbn [flat_map Nat.add].
      now rewrite app_nil_r.
    + rewrite Ho2. subst s0. cbn [st_origin]. rewrite Ho.
      split.
      * intros ((Hn & _) & Hh). auto.
      * intros (Hn & [Hh|Hh]); [|lia]. auto.
Qed.

End SerialTrace.

Lemma jacobianSerial_trace (dst : Dense) (f : UserFn) (x : list Qc)
    (origin : option (list Qc)) (formula : Formula) (step : Qc) :
  length x = cols dst -> (0 < cols dst)%nat ->
  Permutation (run_calls (jacobianSerial dst f x origin formula step))
    (origin_point x origin (stencil_points formula)
     ++ perturbed_points x step (stencil_points formula) (cols dst)).
Proof.
  intros Hx Hn. unfold jacobianSerial, Dims. cbv zeta. cbn [run_calls].
  destruct (serial_columns_trace f (rows dst) (cols dst) x origin step Hx
              formula (cols dst) _ (le_n _) (serial_initial_inv dst f x origin)
              eq_refl eq_refl) as (Hp & Ho).
  cbv zeta in Hp, Ho. rewrite Hp. apply Permutation_app_tail.
  unfold origin_calls, origin_point.
  destruct origin as [o|]; [reflexivity|].
  destruct (st_origin _) as [o|] eqn:E.
  - destruct (has_origin (stencil_points formula)); [reflexivity|].
    assert (H : Some o = None) by (apply Ho; auto). discriminate.
  - destruct Ho as (Ho & _). destruct (Ho eq_refl) as (_ & [->|H]);
      [reflexivity|lia].
Qed.

Lemma flat_map_cons_split {A B : Type} (h : A -> B) (k : A -> list B)
    (l : list A) :
  Permutation (flat_map (fun a => h a :: k a) l) (map h l ++ flat_map k l).
Proof.
  induction l as [|a l IH]; [reflexivity|].
  cbn [flat_map map app]. constructor.
  rewrite IH, !app_assoc. apply Permutation_app_tail, Permutation_app_comm.
Qed.

Lemma flat_map_swap {A B C : Type} (g : A -> B -> C) (la : list A)
    (lb : list B) :
  Permutation (flat_map (fun a => map (g a) lb) la)
    (flat_map (fun b => map (fun a => g a b) la) lb).
Proof.
  induction lb as [|b lb IH].
  - cbn [flat_map map]. induction la; [reflexivity|assumption].
  - cbn [map flat_map]. rewrite flat_map_cons_split.
    now apply Permutation_app_head.
Qed.

Lemma stencil_jobs_points (x : list Qc) (step : Qc) (pts : list Point)
    (n : nat) :
  Permutation (map (job_point x step) (stencil_jobs n pts))
    (perturbed_points x step pts n).
Proof.
  unfold stencil_jobs, perturbed_points, column_points.
  rewrite flat_map_concat_map, concat_map, map_map, <- flat_map_concat_map.
  rewrite flat_map_swap.
  apply Permutation_refl'. apply flat_map_ext. intros p.
  now rewrite map_map.
Qed.

Section PoolTrace.

Variable f : UserFn.
Variables m n : nat.
Variable x : list Qc.
Variable step : Qc.
Hypothesis x_len : length x = n.

Lemma worker_step_trace (s : poolState) (w : nat) :
  pool_inv f m n x step s ->
  p_calls (worker_step f step s w)
  ++ map (job_point x step) (p_jobs (worker_step f step s w))
  = p_calls s ++ map (job_point x step) (p_jobs s).
Proof.
  intros (Hx & Hr & Hc & Hw & Hj). unfold worker_step.
  destruct (nth_error (p_workers s) w) as [wk|] eqn:Ew; auto.
  destruct (w_job wk) eqn:Ej; auto.
  unfold pending in Hj.
  destruct (p_jobs s) as [|job jobs] eqn:Eq; [now rewrite Eq|].
  apply Forall_app in Hj as (_ & Hj).
  apply Forall_cons_iff in Hj as ((Hjn & _) & _).
  apply Forall_forall with (x := wk) in Hw; [|eapply nth_error_In; eauto].
  destruct Hw as (Hxc & _).
  cbn [p_calls p_jobs map]. rewrite Hx, copy_full by congruence.
  rewrite add_at_perturbed by lia. rewrite <- app_assoc. reflexivity.
Qed.

Lemma pool_steps_trace (s s' : poolState) :
  pool_steps f step s s' ->
  pool_inv f m n x step s ->
  p_calls s' ++ map (job_point x step) (p_jobs s')
  = p_calls s ++ map (job_point x step) (p_jobs s).
Proof.
  intros Hsteps Hs. induction Hsteps as [|s' w Hsteps IH]; auto.
  rewrite worker_step_trace; auto.
  now apply (pool_steps_inv f m n x step x_len s s').
Qed.

Lemma run_pool_trace (oracle : list nat) (s : poolState) :
  pool_inv f m n x step s ->
  p_workers s <> [] \/ p_jobs s = [] ->
  p_calls (run_pool f step oracle s)
  = p_calls s ++ map (job_point x step) (p_jobs s).
Proof.
  intros Hs Hws.
  rewrite <- (pool_steps_trace s _ (run_pool_steps f step oracle s) Hs).
  pose proof (run_pool_done f n x step x_len oracle s Hws) as Hdone.
  unfold pending in Hdone. apply app_eq_nil in Hdone.
  destruct Hdone as (_ & ->). now rewrite app_nil_r.
Qed.

End PoolTrace.

Lemma jacobianConcurrent_trace (oracle : list nat) (dst : Dense) (f : UserFn)
    (x : list Qc) (origin : option (list Qc)) (formula : Formula)
    (step : Qc) (nWorkers : Z) :
  length x = cols dst ->
  (0 < nWorkers)%Z \/
  (nWorkers = 0%Z /\ stencil_jobs (cols dst) (stencil_points formula) = []) ->
  Permutation
    (run_calls (jacobianConcurrent oracle dst f x origin formula step nWorkers))
    (origin_point x origin (stencil_points formula)
     ++ perturbed_points x step (stencil_points formula) (cols dst)).
Proof.
  intros Hx Hw. unfold jacobianConcurrent, Dims. cbv zeta.
  rewrite enqueue_spec.
  assert (Hneg : (nWorkers <? 0)%Z = false) by (apply Z.ltb_ge; lia).
  rewrite Hneg.
  set (pts := stencil_points formula) in *.
  assert (Hdead : (nWorkers =? 0)%Z
                  && (0 <? length (stencil_jobs (cols dst) pts))%nat = false).
  { destruct Hw as [Hw|[-> ->]]; [|reflexivity].
    destruct (Z.eqb_spec nWorkers 0); [lia|reflexivity]. }
  rewrite Hdead.
  set (s0 := mkPoolState _ _ _ _ _).
  assert (Hws : p_workers s0 <> [] \/ p_jobs s0 = []).
  { subst s0. cbn [p_workers p_jobs]. destruct Hw as [Hw|[_ ->]]; auto.
    left. destruct (Z.to_nat nWorkers) eqn:E; [lia|discriminate]. }
  pose proof (run_pool_trace f (rows dst) (cols dst) x step Hx oracle s0
                (pool_initial_inv dst f x step pts _) Hws) as Hcalls.
  destruct (run_pool_entries f (rows dst) (cols dst) x step Hx oracle s0
              (pool_initial_inv dst f x step pts _) Hws)
    as (_ & _ & Hpx & _).
  set (s1 := run_pool f step oracle s0) in *.
  subst s0. cbn [p_calls p_jobs app] in Hcalls.
  unfold origin_point.
  destruct (has_origin pts), origin as [o|]; cbn [run_calls];
    rewrite ?Hpx, ?copy_full by (now rewrite make_length);
    rewrite Hcalls, ?stencil_jobs_points; cbn [app]; try reflexivity.
  rewrite <- Permutation_cons_append. reflexivity.
Qed.

(** ** The orchestrator on accepted inputs *)

Lemma spec_evals_lower (n : nat) (pts : list Point) :
  (1 <= n)%nat -> pts <> [] -> (1 <= spec_evals n pts)%Z.
Proof.
  intros Hn Hp. unfold spec_evals.
  assert (1 <= length pts)%nat by (destruct pts; simpl; [congruence|lia]).
  destruct (has_origin pts); nia.
Qed.

Lemma concurrent_ready (ForwardStep : Qc) (GOMAXPROCS : Z)
    (procs_pos : (1 <= GOMAXPROCS)%Z) (dst : Dense) (x : list Qc)
    (settings : option JacobianSettings) :
  let s := resolve_settings settings in
  let formula := resolve_formula ForwardStep s in
  let pts := stencil_points formula in
  let nWorkers := call_workers ForwardStep GOMAXPROCS x settings in
  accepted ForwardStep dst x settings = true ->
  (Z.of_nat (length x) * Z.of_nat (length pts) <= max_int)%Z ->
  (nWorkers =? 1)%Z = false ->
  (0 < nWorkers)%Z \/ (nWorkers = 0%Z /\ stencil_jobs (cols dst) pts = []).
Proof.
  intros s formula pts nWorkers Hacc Hfit Hw.
  destruct (accepted_facts ForwardStep dst x settings Hacc)
    as (Hne & Hx & _).
  assert (Hn : (1 <= length x)%nat) by (destruct x; simpl; [congruence|lia]).
  unfold nWorkers, call_workers in *. rewrite worker_count_spec in *.
  unfold call_evals in *. fold s formula in Hw |- *.
  rewrite count_evals_spec in * by exact Hfit. fold pts in Hw |- *.
  unfold spec_workers in *.
  destruct (Concurrent s); [|discriminate].
  destruct pts as [|p l] eqn:Ep.
  - right. split; [|reflexivity]. unfold spec_evals. simpl. lia.
  - left. assert (1 <= spec_evals (length x) (p :: l))%Z
      by (apply spec_evals_lower; [lia|discriminate]).
    lia.
Qed.

(** The run of an accepted call: it returns, and each entry is the quotient
    of the path the dispatch chose, whatever the matrix held and whatever the
    schedule. *)
Lemma Jacobian_run (ForwardStep : Qc) (GOMAXPROCS : Z)
    (procs_pos : (1 <= GOMAXPROCS)%Z) (dst : Dense) (x : list Qc)
    (settings : option JacobianSettings) :
  let s := resolve_settings settings in
  let formula := resolve_formula ForwardStep s in
  let pts := stencil_points formula in
  let h := call_step ForwardStep settings in
  let nWorkers := call_workers ForwardStep GOMAXPROCS x settings in
  accepted ForwardStep dst x settings = true ->
  (Z.of_nat (length x) * Z.of_nat (length pts) <= max_int)%Z ->
  forall (oracle : list nat) (f : UserFn),
  let r := Jacobian ForwardStep GOMAXPROCS oracle dst f x settings in
  outcome r = Returned /\
  rows (run_dst r) = rows dst /\ cols (run_dst r) = cols dst /\
  Permutation (run_calls r)
    (origin_point x (OriginValue s) pts
     ++ perturbed_points x h pts (length x)) /\
  forall i c, (i < rows dst)%nat -> (c < cols dst)%nat ->
    At (run_dst r) i c
    = (if (nWorkers =? 1)%Z then difference_quotient else concurrent_quotient)
        f x (OriginValue s) pts h i c.
Proof.
  intros s formula pts h nWorkers Hacc Hfit oracle f. cbv zeta.
  destruct (accepted_facts ForwardStep dst x settings Hacc)
    as (Hne & Hx & _).
  assert (Hn : (0 < cols dst)%nat)
    by (rewrite <- Hx; destruct x; simpl; [congruence|lia]).
  rewrite Jacobian_accepted by assumption. cbv zeta.
  fold s formula h nWorkers. rewrite Hx.
  destruct (nWorkers =? 1)%Z eqn:Ew.
  - destruct (jacobianSerial_entries dst f x (OriginValue s) formula h Hx)
      as (Ho & Hr & Hc & _ & Hat).
    repeat split; auto. now apply jacobianSerial_trace.
  - pose proof (concurrent_ready ForwardStep GOMAXPROCS procs_pos dst x
                  settings Hacc Hfit Ew) as Hw.
    destruct (jacobianConcurrent_run oracle dst f x (OriginValue s) formula h
                nWorkers Hx Hw)
      as (Ho & Hr & Hc & _ & _ & Hat).
    repeat split; auto. now apply jacobianConcurrent_trace.
Qed.

Lemma Jacobian_valid_entries (ForwardStep : Qc) (GOMAXPROCS : Z)
    (oracle : list nat) (dst : Dense) (f : UserFn) (x : list Qc)
    (settings : option JacobianSettings) :
  let s := resolve_settings settings in
  let pts := stencil_points (resolve_formula ForwardStep s) in
  accepted ForwardStep dst x settings = true ->
  single_origin pts = true ->
  (1 <= GOMAXPROCS)%Z ->
  (Z.of_nat (length x) * Z.of_nat (length pts) <= max_int)%Z ->
  let r := Jacobian ForwardStep GOMAXPROCS oracle dst f x settings in
  outcome r = Returned /\
  rows (run_dst r) = rows dst /\ cols (run_dst r) = cols dst /\
  forall i c, (i < rows dst)%nat -> (c < cols dst)%nat ->
    At (run_dst r) i c
    = difference_quotient f x (OriginValue s) pts
        (call_step ForwardStep settings) i c.
Proof.
  cbv zeta. intros Hacc Hone Hp Hfit.
  destruct (Jacobian_run ForwardStep GOMAXPROCS Hp dst x settings Hacc Hfit
              oracle f) as (Ho & Hr & Hc & _ & Hat).
  repeat split; auto. intros i c Hi Hc'. rewrite Hat by assumption.
  destruct (_ =? 1)%Z; [reflexivity|]. now apply quotients_agree.
Qed.

Lemma perturbed_points_length (x : list Qc) (step : Qc) (pts : list Point)
    (n : nat) :
  length (perturbed_points x step pts n)
  = (n * length (filter (fun p => negb (is_origin p)) pts))%nat.
Proof.
  unfold perturbed_points.
  rewrite <- (length_seq n 0) at 2.
  generalize (seq 0 n). intros l. induction l as [|c l IH]; [reflexivity|].
  cbn [flat_map length]. rewrite length_app, IH.
  unfold column_points. rewrite length_map. lia.
Qed.

Lemma filter_split_length (pts : list Point) :
  (length (filter is_origin pts)
   + length (filter (fun p => negb (is_origin p)) pts))%nat = length pts.
Proof.
  induction pts as [|p pts IH]; [reflexivity|].
  cbn [filter]. destruct (is_origin p); cbn [negb length]; lia.
Qed.

(** ** Further properties of the orchestrator *)

(** X1.  For every input [Jacobian] accepts, with a stencil of at most one
    origin point, at least one processor and no overflow of [int],
    [Jacobian] returns and entry [(i, c)] of the matrix is the difference
    quotient of the stencil, on whichever path the call is dispatched and
    under every schedule. *)
Theorem Jacobian_valid_difference_quotient (ForwardStep : Qc)
    (GOMAXPROCS : Z) (oracle : list nat) (dst : Dense) (f : UserFn)
    (x : list Qc) (settings : option JacobianSettings) :
  let s := resolve_settings settings in
  let pts := stencil_points (resolve_formula ForwardStep s) in
  accepted ForwardStep dst x settings = true ->
  single_origin pts = true ->
  (1 <= GOMAXPROCS)%Z ->
  (Z.of_nat (length x) * Z.of_nat (length pts) <= max_int)%Z ->
  let r := Jacobian ForwardStep GOMAXPROCS oracle dst f x settings in
  outcome r = Returned /\
  rows (run_dst r) = rows dst /\ cols (run_dst r) = cols dst /\
  forall i c, (i < rows dst)%nat -> (c < cols dst)%nat ->
    At (run_dst r) i c
    = difference_quotient f x (OriginValue s) pts
        (call_step ForwardStep settings) i c.
Proof.
  cbv zeta. intros Hacc Hone Hp Hfit.
  now apply Jacobian_valid_entries.
Qed.

Lemma Jacobian_valid_difference_quotient_witness :
  let r :=
    Jacobian Demo.forward_step Demo.procs [2; 0; 1]%nat Demo.ones32 Demo.f32
      Demo.x2 (Some (Demo.central_settings true)) in
  outcome r = Returned /\
  rows (run_dst r) = 3%nat /\ cols (run_dst r) = 2%nat /\
  forall i c, (i < 3)%nat -> (c < 2)%nat ->
    At (run_dst r) i c
    = difference_quotient Demo.f32 Demo.x2 None
        (stencil_points Demo.central) (Demo.q 1 10) i c.
Proof.
  apply (Jacobian_valid_difference_quotient Demo.forward_step Demo.procs
           [2; 0; 1]%nat Demo.ones32 Demo.f32 Demo.x2
           (Some (Demo.central_settings true))).
  - reflexivity.
  - reflexivity.
  - unfold Demo.procs. lia.
  - unfold max_int. simpl. lia.
Defined.

(** X2.  With at least one processor and no overflow of [int], [Jacobian]
    returns exactly when its checks pass: an accepted call never panics and
    never blocks, an input that fails a check never returns. *)
Theorem Jacobian_returns_iff_accepted (ForwardStep : Qc) (GOMAXPROCS : Z)
    (oracle : list nat) (dst : Dense) (f : UserFn) (x : list Qc)
    (settings : option JacobianSettings) :
  let pts :=
    stencil_points (resolve_formula ForwardStep (resolve_settings settings)) in
  (1 <= GOMAXPROCS)%Z ->
  (Z.of_nat (length x) * Z.of_nat (length pts) <= max_int)%Z ->
  outcome (Jacobian ForwardStep GOMAXPROCS oracle dst f x settings) = Returned
  <-> accepted ForwardStep dst x settings = true.
Proof.
  cbv zeta. intros Hp Hfit. split.
  - intros Ho. destruct (accepted ForwardStep dst x settings) eqn:E; auto.
    destruct (Jacobian_rejected ForwardStep GOMAXPROCS oracle dst f x settings E)
      as (msg & Hr).
    rewrite Hr in Ho. discriminate.
  - intros Hacc.
    now destruct (Jacobian_run ForwardStep GOMAXPROCS Hp dst x settings Hacc
                    Hfit oracle f).
Qed.

Lemma Jacobian_returns_iff_accepted_witness :
  outcome (Jacobian Demo.forward_step Demo.procs [] Demo.ones32 Demo.f32
             Demo.x2 None) = Returned
  <-> accepted Demo.forward_step Demo.ones32 Demo.x2 None = true.
Proof.
  apply (Jacobian_returns_iff_accepted Demo.forward_step Demo.procs []
           Demo.ones32 Demo.f32 Demo.x2 None).
  - unfold Demo.procs. lia.
  - unfold max_int. simpl. lia.
Defined.

(** X3.  For every accepted input, with at least one processor and no
    overflow of [int], the evaluations of [f] are, up to their order, the
    point [x] itself -- once, and only if the stencil has an origin point and
    no origin value was supplied -- and, for every column and every stencil
    point that is not an origin point, [x] perturbed in that column by the
    offset times the step, once each. *)
Theorem Jacobian_points_evaluated (ForwardStep : Qc) (GOMAXPROCS : Z)
    (oracle : list nat) (dst : Dense) (f : UserFn) (x : list Qc)
    (settings : option JacobianSettings) :
  let s := resolve_settings settings in
  let pts := stencil_points (resolve_formula ForwardStep s) in
  accepted ForwardStep dst x settings = true ->
  (1 <= GOMAXPROCS)%Z ->
  (Z.of_nat (length x) * Z.of_nat (length pts) <= max_int)%Z ->
  Permutation
    (run_calls (Jacobian ForwardStep GOMAXPROCS oracle dst f x settings))
    (origin_point x (OriginValue s) pts
     ++ perturbed_points x (call_step ForwardStep settings) pts (length x)).
Proof.
  cbv zeta. intros Hacc Hp Hfit.
  now destruct (Jacobian_run ForwardStep GOMAXPROCS Hp dst x settings Hacc
                  Hfit oracle f) as (_ & _ & _ & Hcalls & _).
Qed.

Lemma Jacobian_points_evaluated_witness :
  Permutation
    (run_calls (Jacobian Demo.forward_step Demo.procs [1; 0]%nat Demo.ones32
                  Demo.f32 Demo.x2 (Some (Demo.central_settings true))))
    (origin_point Demo.x2 None (stencil_points Demo.central)
     ++ perturbed_points Demo.x2 (Demo.q 1 10) (stencil_points Demo.central)
          (length Demo.x2)).
Proof.
  apply (Jacobian_points_evaluated Demo.forward_step Demo.procs [1; 0]%nat
           Demo.ones32 Demo.f32 Demo.x2 (Some (Demo.central_settings true))).
  - reflexivity.
  - unfold Demo.procs. lia.
  - unfold max_int. simpl. lia.
Defined.

(** X4.  For every accepted input whose stencil has at most one origin point,
    the variable [evals] of [Jacobian] is the number of evaluations of [f]
    the call makes when no origin value is supplied; a supplied origin value
    saves one evaluation when the stencil has an origin point. *)
Theorem Jacobian_evaluation_count (ForwardStep : Qc) (GOMAXPROCS : Z)
    (oracle : list nat) (dst : Dense) (f : UserFn) (x : list Qc)
    (settings : option JacobianSettings) :
  let s := resolve_settings settings in
  let pts := stencil_points (resolve_formula ForwardStep s) in
  accepted ForwardStep dst x settings = true ->
  single_origin pts = true ->
  (1 <= GOMAXPROCS)%Z ->
  (Z.of_nat (length x) * Z.of_nat (length pts) <= max_int)%Z ->
  Z.of_nat
    (length (run_calls (Jacobian ForwardStep GOMAXPROCS oracle dst f x settings)))
  = (call_evals ForwardStep x settings
     - match OriginValue s with
       | Some _ => if has_origin pts then 1 else 0
       | None => 0
       end)%Z.
Proof.
  cbv zeta. intros Hacc Hone Hp Hfit.
  destruct (Jacobian_run ForwardStep GOMAXPROCS Hp dst x settings Hacc Hfit
              oracle f) as (_ & _ & _ & Hcalls & _).
  rewrite (Permutation_length Hcalls), length_app, perturbed_points_length.
  unfold call_evals. rewrite count_evals_spec by exact Hfit.
  unfold spec_evals, origin_point.
  set (pts := stencil_points _) in *.
  pose proof (filter_split_length pts) as Hsplit.
  unfold single_origin in Hone. apply Nat.leb_le in Hone.
  rewrite has_origin_filter.
  destruct (OriginValue (resolve_settings settings)) as [o|];
    destruct (Nat.ltb_spec 0 (length (filter is_origin pts)));
    cbn [length]; nia.
Qed.

Lemma Jacobian_evaluation_count_witness :
  Z.of_nat
    (length (run_calls (Jacobian Demo.forward_step Demo.procs [] Demo.ones32
                          Demo.f32 Demo.x2 None)))
  = (call_evals Demo.forward_step Demo.x2 None - 0)%Z.
Proof.
  apply (Jacobian_evaluation_count Demo.forward_step Demo.procs []
           Demo.ones32 Demo.f32 Demo.x2 None).
  - reflexivity.
  - reflexivity.
  - unfold Demo.procs. lia.
  - unfold max_int. simpl. lia.
Defined.

(** X5.  A formula whose stencil is set and holds no point is accepted: the
    call returns, leaves the matrix all zero and never evaluates [f], on
    either path. *)
Theorem Jacobian_empty_stencil_zero (ForwardStep : Qc) (GOMAXPROCS : Z)
    (oracle : list nat) (dst : Dense) (f : UserFn) (x : list Qc)
    (settings : option JacobianSettings) :
  accepted ForwardStep dst x settings = true ->
  stencil_points (resolve_formula ForwardStep (resolve_settings settings))
  = [] ->
  (1 <= GOMAXPROCS)%Z ->
  let r := Jacobian ForwardStep GOMAXPROCS oracle dst f x settings in
  outcome r = Returned /\ run_calls r = [] /\
  forall i c, (i < rows dst)%nat -> (c < cols dst)%nat ->
    At (run_dst r) i c = 0.
Proof.
  intros Hacc Hpts Hp. cbv zeta.
  assert (Hfit : (Z.of_nat (length x)
                  * Z.of_nat (length (stencil_points
                      (resolve_formula ForwardStep (resolve_settings settings))))
                  <= max_int)%Z).
  { rewrite Hpts. unfold max_int. simpl. lia. }
  destruct (Jacobian_run ForwardStep GOMAXPROCS Hp dst x settings Hacc Hfit
              oracle f) as (Ho & _ & _ & Hcalls & Hat).
  rewrite Hpts in Hcalls, Hat. split; [assumption|split].
  - apply Permutation_nil. symmetry.
    unfold origin_point, perturbed_points, column_points in Hcalls.
    cbn [has_origin existsb filter map] in Hcalls.
    replace (flat_map (fun _ : nat => []) (seq 0 (length x)))
      with (@nil (list Qc)) in Hcalls
      by (induction (seq 0 (length x)); auto).
    now destruct (OriginValue _).
  - intros i c Hi Hc. rewrite Hat by assumption.
    destruct (_ =? 1)%Z;
      unfold difference_quotient, concurrent_quotient, stencil_sum; simpl;
      ring.
Qed.

Lemma Jacobian_empty_stencil_zero_witness :
  let r :=
    Jacobian Demo.forward_step Demo.procs [] Demo.ones32 Demo.f32 Demo.x2
      (Some (with_concurrent Demo.empty_settings true)) in
  outcome r = Returned /\ run_calls r = [] /\
  forall i c, (i < rows Demo.ones32)%nat -> (c < cols Demo.ones32)%nat ->
    At (run_dst r) i c = 0.
Proof.
  apply (Jacobian_empty_stencil_zero Demo.forward_step Demo.procs []
           Demo.ones32 Demo.f32 Demo.x2
           (Some (with_concurrent Demo.empty_settings true))).
  - reflexivity.
  - reflexivity.
  - unfold Demo.procs. lia.
Defined.

(** ** The evaluators, further *)

(** X6.  Whatever the schedule of the workers and however many there are,
    the concurrent path returns with entry [(i, c)] equal to [1 / step] times
    the sum of the weighted evaluations of the points that are not origin
    points, plus the origin value weighted by the last origin point of the
    stencil only. *)
Theorem jacobianConcurrent_quotient (oracle : list nat) (dst : Dense)
    (f : UserFn) (x : list Qc) (origin : option (list Qc))
    (formula : Formula) (step : Qc) (nWorkers : Z) :
  length x = cols dst ->
  origin_fits origin (rows dst) = true ->
  (0 < nWorkers)%Z ->
  let r := jacobianConcurrent oracle dst f x origin formula step nWorkers in
  outcome r = Returned /\
  forall i c, (i < rows dst)%nat -> (c < cols dst)%nat ->
    At (run_dst r) i c
    = concurrent_quotient f x origin (stencil_points formula) step i c.
Proof.
  intros Hx _ Hw.
  destruct (jacobianConcurrent_run oracle dst f x origin formula step nWorkers
              Hx (or_introl Hw)) as (Ho & _ & _ & _ & _ & Hat).
  split; assumption.
Qed.

Lemma jacobianConcurrent_quotient_witness :
  let r :=
    jacobianConcurrent [1; 1; 0]%nat Demo.ones11 Demo.square Demo.x1 None
      Demo.two_origins 1 2 in
  outcome r = Returned /\
  forall i c, (i < rows Demo.ones11)%nat -> (c < cols Demo.ones11)%nat ->
    At (run_dst r) i c
    = concurrent_quotient Demo.square Demo.x1 None
        (stencil_points Demo.two_origins) 1 i c.
Proof.
  apply (jacobianConcurrent_quotient [1; 1; 0]%nat Demo.ones11 Demo.square
           Demo.x1 None Demo.two_origins 1 2).
  - reflexivity.
  - reflexivity.
  - lia.
Defined.

(** X7.  The concurrent path evaluates [f] at the same points as the serial
    path, each as often, whatever the schedule: the two records of calls are
    permutations of each other, for a matrix with at least one column. *)
Theorem evaluators_same_points (oracle : list nat) (dst : Dense)
    (f : UserFn) (x : list Qc) (origin : option (list Qc))
    (formula : Formula) (step : Qc) (nWorkers : Z) :
  length x = cols dst -> (0 < cols dst)%nat -> (0 < nWorkers)%Z ->
  Permutation
    (run_calls (jacobianSerial dst f x origin formula step))
    (run_calls
       (jacobianConcurrent oracle dst f x origin formula step nWorkers)).
Proof.
  intros Hx Hn Hw.
  rewrite jacobianSerial_trace by assumption.
  rewrite jacobianConcurrent_trace by auto.
  reflexivity.
Qed.

Lemma evaluators_same_points_witness :
  Permutation
    (run_calls
       (jacobianSerial Demo.ones32 Demo.f32 Demo.x2 None
          (Forward Demo.forward_step) (Demo.q 1 10)))
    (run_calls
       (jacobianConcurrent [2; 1; 0]%nat Demo.ones32 Demo.f32 Demo.x2 None
          (Forward Demo.forward_step) (Demo.q 1 10) 3)).
Proof.
  apply (evaluators_same_points [2; 1; 0]%nat Demo.ones32 Demo.f32 Demo.x2
           None (Forward Demo.forward_step) (Demo.q 1 10) 3).
  - reflexivity.
  - simpl. lia.
  - lia.
Defined.

(** X8.  For every accepted input whose stencil has at most one origin
    point, the concurrency flag does not change the result: with the flag on
    or off, and under any schedules, [Jacobian] returns the same matrix. *)
Theorem Jacobian_concurrent_flag (ForwardStep : Qc) (GOMAXPROCS : Z)
    (oracle1 oracle2 : list nat) (dst : Dense) (f : UserFn) (x : list Qc)
    (s : JacobianSettings) (b1 b2 : bool) :
  let pts := stencil_points (resolve_formula ForwardStep s) in
  accepted ForwardStep dst x (Some s) = true ->
  single_origin pts = true ->
  (1 <= GOMAXPROCS)%Z ->
  (Z.of_nat (length x) * Z.of_nat (length pts) <= max_int)%Z ->
  let r1 := Jacobian ForwardStep GOMAXPROCS oracle1 dst f x
              (Some (with_concurrent s b1)) in
  let r2 := Jacobian ForwardStep GOMAXPROCS oracle2 dst f x
              (Some (with_concurrent s b2)) in
  outcome r1 = Returned /\ outcome r2 = Returned /\
  Dense_eq (run_dst r1) (run_dst r2).
Proof.
  cbv zeta. intros Hacc Hone Hp Hfit.
  destruct (Jacobian_valid_entries ForwardStep GOMAXPROCS oracle1 dst f x
              (Some (with_concurrent s b1)) Hacc Hone Hp Hfit)
    as (Ho1 & Hr1 & Hc1 & Hat1).
  destruct (Jacobian_valid_entries ForwardStep GOMAXPROCS oracle2 dst f x
              (Some (with_concurrent s b2)) Hacc Hone Hp Hfit)
    as (Ho2 & Hr2 & Hc2 & Hat2).
  split; [assumption|split; [assumption|]].
  eapply Dense_eq_entries; try congruence.
  - intros i c Hi Hc. apply Hat1; congruence.
  - intros i c Hi Hc. apply Hat2; congruence.
Qed.

Lemma Jacobian_concurrent_flag_witness :
  let r1 :=
    Jacobian Demo.forward_step Demo.procs [] Demo.ones32 Demo.f32 Demo.x2
      (Some (with_concurrent (Demo.central_settings false) false)) in
  let r2 :=
    Jacobian Demo.forward_step Demo.procs [3; 1; 2]%nat Demo.ones32 Demo.f32
      Demo.x2 (Some (with_concurrent (Demo.central_settings false) true)) in
  outcome r1 = Returned /\ outcome r2 = Returned /\
  Dense_eq (run_dst r1) (run_dst r2).
Proof.
  apply (Jacobian_concurrent_flag Demo.forward_step Demo.procs []
           [3; 1; 2]%nat Demo.ones32 Demo.f32 Demo.x2
           (Demo.central_settings false) false true).
  - reflexivity.
  - reflexivity.
  - unfold Demo.procs. lia.
  - unfold max_int. simpl. lia.
Defined.

(** ** The quotient as a function of [f] *)

Lemma Qcsum_map_ext {A : Type} (g g' : A -> Qc) (l : list A) :
  (forall a, In a l -> g a = g' a) -> Qcsum (map g l) = Qcsum (map g' l).
Proof.
  intros H. induction l as [|a l IH]; [reflexivity|].
  cbn [map Qcsum fold_right]. rewrite H by (now left).
  fold (Qcsum (map g l)) (Qcsum (map g' l)).
  rewrite IH; auto. intros b Hb. apply H. now right.
Qed.

Lemma Qcsum_map_lin {A : Type} (a : Qc) (w F G : A -> Qc) (l : list A) :
  Qcsum (map (fun p => w p * (a * F p + G p)) l)
  = a * Qcsum (map (fun p => w p * F p) l)
    + Qcsum (map (fun p => w p * G p) l).
Proof.
  induction l as [|p l IH]; simpl; [ring|].
  fold (Qcsum (map (fun p => w p * (a * F p + G p)) l)).
  fold (Qcsum (map (fun p => w p * F p) l)).
  fold (Qcsum (map (fun p => w p * G p) l)).
  rewrite IH. ring.
Qed.

Lemma difference_quotient_lin (a : Qc) (f g : UserFn) (x : list Qc)
    (pts : list Point) (step : Qc) (i c : nat) :
  difference_quotient (lincomb a f g) x None pts step i c
  = a * difference_quotient f x None pts step i c
    + difference_quotient g x None pts step i c.
Proof.
  unfold difference_quotient, stencil_sum.
  rewrite (Qcsum_map_ext
             (fun p => Coeff p * stencil_term (lincomb a f g) x None step i c p)
             (fun p => Coeff p * (a * stencil_term f x None step i c p
                                  + stencil_term g x None step i c p))).
  - rewrite Qcsum_map_lin. ring.
  - intros p _. unfold stencil_term, origin_term, lincomb.
    now destruct (Qc_eqb (Loc p) 0).
Qed.

Lemma concurrent_quotient_lin (a : Qc) (f g : UserFn) (x : list Qc)
    (pts : list Point) (step : Qc) (i c : nat) :
  concurrent_quotient (lincomb a f g) x None pts step i c
  = a * concurrent_quotient f x None pts step i c
    + concurrent_quotient g x None pts step i c.
Proof.
  unfold concurrent_quotient, origin_term, lincomb.
  rewrite (Qcsum_map_lin a Coeff
             (fun p => f (perturbed x c (Loc p * step)) i)
             (fun p => g (perturbed x c (Loc p * step)) i)).
  destruct (has_origin pts); ring.
Qed.

(** X9.  The matrix [Jacobian] computes is linear in the function: for every
    accepted input without a supplied origin value, the entries for
    [a * f + g] are [a] times the entries for [f] plus the entries for [g],
    on either path and under any schedules. *)
Theorem Jacobian_linear (ForwardStep : Qc) (GOMAXPROCS : Z)
    (oracle oracle1 oracle2 : list nat) (dst : Dense) (a : Qc)
    (f g : UserFn) (x : list Qc) (settings : option JacobianSettings) :
  let s := resolve_settings settings in
  let pts := stencil_points (resolve_formula ForwardStep s) in
  accepted ForwardStep dst x settings = true ->
  OriginValue s = None ->
  (1 <= GOMAXPROCS)%Z ->
  (Z.of_nat (length x) * Z.of_nat (length pts) <= max_int)%Z ->
  forall i c, (i < rows dst)%nat -> (c < cols dst)%nat ->
    At (run_dst (Jacobian ForwardStep GOMAXPROCS oracle dst (lincomb a f g) x
                   settings)) i c
    = a * At (run_dst (Jacobian ForwardStep GOMAXPROCS oracle1 dst f x
                         settings)) i c
      + At (run_dst (Jacobian ForwardStep GOMAXPROCS oracle2 dst g x
                       settings)) i c.
Proof.
  cbv zeta. intros Hacc Hnone Hp Hfit i c Hi Hc.
  destruct (Jacobian_run ForwardStep GOMAXPROCS Hp dst x settings Hacc Hfit
              oracle (lincomb a f g)) as (_ & _ & _ & _ & Hat).
  destruct (Jacobian_run ForwardStep GOMAXPROCS Hp dst x settings Hacc Hfit
              oracle1 f) as (_ & _ & _ & _ & Hat1).
  destruct (Jacobian_run ForwardStep GOMAXPROCS Hp dst x settings Hacc Hfit
              oracle2 g) as (_ & _ & _ & _ & Hat2).
  rewrite Hat, Hat1, Hat2 by assumption. rewrite Hnone.
  destruct (_ =? 1)%Z.
  - apply difference_quotient_lin.
  - apply concurrent_quotient_lin.
Qed.

Lemma Jacobian_linear_witness :
  At (run_dst (Jacobian Demo.forward_step Demo.procs [] Demo.ones32
                 (lincomb (Demo.q 3 2) Demo.f32 identity_fn) Demo.x2
                 (Some (Demo.central_settings true)))) 2 1
  = Demo.q 3 2
    * At (run_dst (Jacobian Demo.forward_step Demo.procs [1]%nat
                     Demo.ones32 Demo.f32 Demo.x2
                     (Some (Demo.central_settings true)))) 2 1
    + At (run_dst (Jacobian Demo.forward_step Demo.procs [0; 2]%nat
                     Demo.ones32 identity_fn Demo.x2
                     (Some (Demo.central_settings true)))) 2 1.
Proof.
  apply (Jacobian_linear Demo.forward_step Demo.procs [] [1]%nat [0; 2]%nat
           Demo.ones32 (Demo.q 3 2) Demo.f32 identity_fn Demo.x2
           (Some (Demo.central_settings true))).
  - reflexivity.
  - reflexivity.
  - unfold Demo.procs. lia.
  - unfold max_int. simpl. lia.
  - simpl. lia.
  - simpl. lia.
Defined.

Lemma affine_sum_perturbed (A : nat -> nat -> Qc) (x : list Qc)
    (i c : nat) (d : Qc) (k : nat) :
  (c < length x)%nat -> (k <= length x)%nat ->
  Qcsum (map (fun k => A i k * nth k (perturbed x c d) 0) (seq 0 k))
  = Qcsum (map (fun k => A i k * nth k x 0) (seq 0 k))
    + if (c <? k)%nat then A i c * d else 0.
Proof.
  intros Hc Hk. induction k as [|k IH].
  - simpl. ring.
  - rewrite seq_S, !map_app, !Qcsum_app, IH by lia.
    cbn [map Qcsum fold_right Nat.add].
    rewrite <- add_at_perturbed, nth_add_at by lia.
    destruct (Nat.ltb_spec c k), (Nat.ltb_spec c (S k)),
      (Nat.eqb_spec k c); try lia; subst; ring.
Qed.

Lemma affine_perturbed (A : nat -> nat -> Qc) (b : nat -> Qc) (x : list Qc)
    (i c : nat) (d : Qc) :
  (c < length x)%nat ->
  affine A b (perturbed x c d) i = affine A b x i + A i c * d.
Proof.
  intros Hc. unfold affine. rewrite perturbed_length.
  rewrite affine_sum_perturbed by lia.
  destruct (Nat.ltb_spec c (length x)); [ring|lia].
Qed.

Lemma Qcsum_weighted (F K : Qc) (pts : list Point) :
  Qcsum (map (fun p => Coeff p * (F + K * Loc p)) pts)
  = F * Qcsum (map Coeff pts)
    + K * Qcsum (map (fun p => Coeff p * Loc p) pts).
Proof.
  induction pts as [|p pts IH]; simpl; [ring|].
  fold (Qcsum (map (fun p => Coeff p * (F + K * Loc p)) pts)).
  fold (Qcsum (map Coeff pts)).
  fold (Qcsum (map (fun p => Coeff p * Loc p) pts)).
  rewrite IH. ring.
Qed.

Lemma difference_quotient_affine (A : nat -> nat -> Qc) (b : nat -> Qc)
    (x : list Qc) (pts : list Point) (step : Qc) (i c : nat) :
  (c < length x)%nat -> step <> 0 -> consistent pts ->
  difference_quotient (affine A b) x None pts step i c = A i c.
Proof.
  intros Hc Hstep (Hw & Hwl). unfold difference_quotient, stencil_sum.
  rewrite (Qcsum_map_ext _
             (fun p => Coeff p * (affine A b x i + (A i c * step) * Loc p))).
  - rewrite Qcsum_weighted, Hw, Hwl. field. assumption.
  - intros p _. unfold stencil_term, origin_term.
    destruct (Qc_eqb_spec (Loc p) 0) as [->|].
    + ring.
    + rewrite affine_perturbed by assumption. ring.
Qed.

(** X10.  For a stencil that is consistent with the first derivative (its
    weights sum to 0, its weights times offsets sum to 1) and has at most one
    origin point, [Jacobian] is exact on affine functions: for
    [f(x) = A x + b] the matrix it leaves is [A], at every non-empty [x] and
    for every non-zero step. *)
Theorem Jacobian_affine_exact (ForwardStep : Qc) (GOMAXPROCS : Z)
    (oracle : list nat) (dst : Dense) (A : nat -> nat -> Qc) (b : nat -> Qc)
    (x : list Qc) (settings : option JacobianSettings) :
  let s := resolve_settings settings in
  let pts := stencil_points (resolve_formula ForwardStep s) in
  accepted ForwardStep dst x settings = true ->
  OriginValue s = None ->
  consistent pts ->
  single_origin pts = true ->
  (1 <= GOMAXPROCS)%Z ->
  (Z.of_nat (length x) * Z.of_nat (length pts) <= max_int)%Z ->
  let r :=
    Jacobian ForwardStep GOMAXPROCS oracle dst (affine A b) x settings in
  outcome r = Returned /\
  forall i c, (i < rows dst)%nat -> (c < cols dst)%nat ->
    At (run_dst r) i c = A i c.
Proof.
  cbv zeta. intros Hacc Hnone Hcons Hone Hp Hfit.
  destruct (accepted_facts ForwardStep dst x settings Hacc)
    as (_ & Hx & _ & _ & _ & _ & Hstep).
  destruct (Jacobian_valid_entries ForwardStep GOMAXPROCS oracle dst
              (affine A b) x settings Hacc Hone Hp Hfit)
    as (Ho & _ & _ & Hat).
  split; [assumption|]. intros i c Hi Hc.
  rewrite Hat, Hnone by assumption.
  apply difference_quotient_affine; auto. congruence.
Qed.

Lemma central_consistent : consistent (stencil_points Demo.central).
Proof. split; apply Qc_is_canon; reflexivity. Qed.

Lemma Jacobian_affine_exact_witness :
  let A := fun i k : nat => Demo.q (Z.of_nat (i + 3 * k)) 7 in
  let r :=
    Jacobian Demo.forward_step Demo.procs [1; 0]%nat Demo.ones32
      (affine A (fun i => Demo.q (Z.of_nat i) 2)) Demo.x2
      (Some (Demo.central_settings true)) in
  outcome r = Returned /\
  forall i c, (i < rows Demo.ones32)%nat -> (c < cols Demo.ones32)%nat ->
    At (run_dst r) i c = A i c.
Proof.
  apply (Jacobian_affine_exact Demo.forward_step Demo.procs [1; 0]%nat
           Demo.ones32 (fun i k : nat => Demo.q (Z.of_nat (i + 3 * k)) 7)
           (fun i => Demo.q (Z.of_nat i) 2) Demo.x2
           (Some (Demo.central_settings true))).
  - reflexivity.
  - reflexivity.
  - exact central_consistent.
  - reflexivity.
  - unfold Demo.procs. lia.
  - unfold max_int. simpl. lia.
Defined.

(** ** Settings that do not change the result *)

(** X11.  Supplying the value of [f] at [x] as precomputed origin value
    changes nothing in the result: for every accepted input without an origin
    value, the call with [f(x)] supplied returns the same matrix, on either
    path and under any schedules. *)
Theorem Jacobian_origin_value_supplied (ForwardStep : Qc) (GOMAXPROCS : Z)
    (oracle1 oracle2 : list nat) (dst : Dense) (f : UserFn) (x : list Qc)
    (s : JacobianSettings) :
  let pts := stencil_points (resolve_formula ForwardStep s) in
  let fx := map (f x) (seq 0 (rows dst)) in
  accepted ForwardStep dst x (Some s) = true ->
  OriginValue s = None ->
  (1 <= GOMAXPROCS)%Z ->
  (Z.of_nat (length x) * Z.of_nat (length pts) <= max_int)%Z ->
  let r1 := Jacobian ForwardStep GOMAXPROCS oracle1 dst f x (Some s) in
  let r2 := Jacobian ForwardStep GOMAXPROCS oracle2 dst f x
              (Some (with_origin s (Some fx))) in
  outcome r1 = Returned /\ outcome r2 = Returned /\
  Dense_eq (run_dst r1) (run_dst r2).
Proof.
  cbv zeta. intros Hacc Hnone Hp Hfit.
  assert (Hacc2 : accepted ForwardStep dst x
                    (Some (with_origin s (Some (map (f x) (seq 0 (rows dst))))))
                  = true).
  { unfold accepted in *. cbn [resolve_settings] in *.
    unfold with_origin at 1. cbn [OriginValue]. rewrite Hnone in Hacc.
    unfold origin_fits in *. rewrite length_map, length_seq, Nat.eqb_refl.
    exact Hacc. }
  destruct (Jacobian_run ForwardStep GOMAXPROCS Hp dst x (Some s) Hacc Hfit
              oracle1 f) as (Ho1 & Hr1 & Hc1 & _ & Hat1).
  destruct (Jacobian_run ForwardStep GOMAXPROCS Hp dst x _ Hacc2 Hfit
              oracle2 f) as (Ho2 & Hr2 & Hc2 & _ & Hat2).
  split; [assumption|split; [assumption|]].
  eapply Dense_eq_entries; try congruence.
  - intros i c Hi Hc. apply Hat1; congruence.
  - intros i c Hi Hc. rewrite Hat2 by congruence.
    cbn [resolve_settings] in *. rewrite Hnone.
    change (call_workers ForwardStep GOMAXPROCS x (Some (with_origin s _)))
      with (call_workers ForwardStep GOMAXPROCS x (Some s)).
    change (call_step ForwardStep (Some (with_origin s _)))
      with (call_step ForwardStep (Some s)).
    change (resolve_formula ForwardStep (with_origin s _))
      with (resolve_formula ForwardStep s).
    cbn [with_origin OriginValue].
    assert (Ht : origin_term f x (Some (map (f x) (seq 0 (rows dst)))) i
                 = origin_term f x None i).
    { unfold origin_term. rewrite Hr2 in Hi. now rewrite nth_map_seq. }
    destruct (_ =? 1)%Z.
    + unfold difference_quotient, stencil_sum. f_equal.
      apply Qcsum_map_ext. intros p _. unfold stencil_term.
      now rewrite Ht.
    + unfold concurrent_quotient. now rewrite Ht.
Qed.

Lemma Jacobian_origin_value_supplied_witness :
  let r1 :=
    Jacobian Demo.forward_step Demo.procs [] Demo.ones32 Demo.f32 Demo.x2
      (Some zeroSettings) in
  let r2 :=
    Jacobian Demo.forward_step Demo.procs [] Demo.ones32 Demo.f32 Demo.x2
      (Some (with_origin zeroSettings
               (Some (map (Demo.f32 Demo.x2) (seq 0 (rows Demo.ones32)))))) in
  outcome r1 = Returned /\ outcome r2 = Returned /\
  Dense_eq (run_dst r1) (run_dst r2).
Proof.
  apply (Jacobian_origin_value_supplied Demo.forward_step Demo.procs [] []
           Demo.ones32 Demo.f32 Demo.x2 zeroSettings).
  - reflexivity.
  - reflexivity.
  - unfold Demo.procs. lia.
  - unfold max_int. simpl. lia.
Defined.

Lemma Qcsum_perm (l l' : list Qc) : Permutation l l' -> Qcsum l = Qcsum l'.
Proof.
  intros H.
  induction H as [|a l1 l2 H IH|a b l1|l1 l2 l3 H1 IH1 H2 IH2];
    cbn [Qcsum fold_right].
  - reflexivity.
  - fold (Qcsum l1) (Qcsum l2). now rewrite IH.
  - fold (Qcsum l1). ring.
  - congruence.
Qed.

(** X12.  The serial path does not depend on the order of the stencil: two
    formulas whose stencils hold the same points in different orders leave
    the same matrix. *)
Theorem jacobianSerial_stencil_order (dst : Dense) (f : UserFn)
    (x : list Qc) (origin : option (list Qc)) (formula1 formula2 : Formula)
    (step : Qc) :
  length x = cols dst ->
  Permutation (stencil_points formula1) (stencil_points formula2) ->
  Dense_eq (run_dst (jacobianSerial dst f x origin formula1 step))
    (run_dst (jacobianSerial dst f x origin formula2 step)).
Proof.
  intros Hx Hperm.
  destruct (jacobianSerial_entries dst f x origin formula1 step Hx)
    as (_ & Hr1 & Hc1 & _ & Hat1).
  destruct (jacobianSerial_entries dst f x origin formula2 step Hx)
    as (_ & Hr2 & Hc2 & _ & Hat2).
  eapply Dense_eq_entries; try congruence.
  - intros i c Hi Hc. apply Hat1; congruence.
  - intros i c Hi Hc. rewrite Hat2 by congruence.
    unfold difference_quotient, stencil_sum. f_equal.
    apply Qcsum_perm. apply Permutation_map. now symmetry.
Qed.

Lemma jacobianSerial_stencil_order_witness :
  Dense_eq
    (run_dst (jacobianSerial Demo.ones32 Demo.f32 Demo.x2 None
                (mkFormula (Some [mkPoint 0 (-(1)); mkPoint 1 1]) 1 1) 1))
    (run_dst (jacobianSerial Demo.ones32 Demo.f32 Demo.x2 None
                (mkFormula (Some [mkPoint 1 1; mkPoint 0 (-(1))]) 1 1) 1)).
Proof.
  apply (jacobianSerial_stencil_order Demo.ones32 Demo.f32 Demo.x2 None
           (mkFormula (Some [mkPoint 0 (-(1)); mkPoint 1 1]) 1 1)
           (mkFormula (Some [mkPoint 1 1; mkPoint 0 (-(1))]) 1 1) 1).
  - reflexivity.
  - apply perm_swap.
Defined.

(** X13.  With a single processor the concurrency flag has no effect at all:
    for an accepted input with a stencil that holds a point, the call with
    the flag on is the same run as the call with the flag off -- the serial
    one, with the same calls of [f] in the same order. *)
Theorem Jacobian_single_processor (ForwardStep : Qc)
    (oracle1 oracle2 : list nat) (dst : Dense) (f : UserFn) (x : list Qc)
    (s : JacobianSettings) :
  let pts := stencil_points (resolve_formula ForwardStep s) in
  accepted ForwardStep dst x (Some s) = true ->
  pts <> [] ->
  (Z.of_nat (length x) * Z.of_nat (length pts) <= max_int)%Z ->
  Jacobian ForwardStep 1 oracle1 dst f x (Some (with_concurrent s true))
  = Jacobian ForwardStep 1 oracle2 dst f x (Some (with_concurrent s false)).
Proof.
  cbv zeta. intros Hacc Hpts Hfit.
  destruct (accepted_facts ForwardStep dst x (Some s) Hacc) as (Hne & _).
  assert (Hn : (1 <= length x)%nat) by (destruct x; simpl; [congruence|lia]).
  rewrite (Jacobian_accepted ForwardStep 1 oracle1 dst f x
             (Some (with_concurrent s true)) Hacc).
  rewrite (Jacobian_accepted ForwardStep 1 oracle2 dst f x
             (Some (with_concurrent s false)) Hacc).
  cbv zeta.
  assert (Hw : call_workers ForwardStep 1 x (Some (with_concurrent s true))
               = 1%Z).
  { unfold call_workers. rewrite worker_count_spec. unfold call_evals.
    cbn [resolve_settings with_concurrent Concurrent].
    change (resolve_formula ForwardStep (with_concurrent s true))
      with (resolve_formula ForwardStep s).
    rewrite count_evals_spec by exact Hfit. unfold spec_workers.
    pose proof (spec_evals_lower (length x) _ Hn Hpts). lia. }
  rewrite Hw. reflexivity.
Qed.

Lemma Jacobian_single_processor_witness :
  Jacobian Demo.forward_step 1 [1; 0]%nat Demo.ones32 Demo.f32 Demo.x2
    (Some (with_concurrent (Demo.central_settings false) true))
  = Jacobian Demo.forward_step 1 [] Demo.ones32 Demo.f32 Demo.x2
      (Some (with_concurrent (Demo.central_settings false) false)).
Proof.
  apply (Jacobian_single_processor Demo.forward_step [1; 0]%nat [] Demo.ones32
           Demo.f32 Demo.x2 (Demo.central_settings false)).
  - reflexivity.
  - discriminate.
  - unfold max_int. simpl. lia.
Defined.

(** ** Panics and blocked calls *)

Lemma Jacobian_cascade (ForwardStep : Qc) (GOMAXPROCS : Z)
    (oracle : list nat) (dst : Dense) (f : UserFn) (x : list Qc)
    (settings : option JacobianSettings) :
  let s := resolve_settings settings in
  let formula := resolve_formula ForwardStep s in
  Jacobian ForwardStep GOMAXPROCS oracle dst f x settings
  = if (length x =? 0)%nat then
      mkRun (Panicked "jacobian: x has zero length") dst x []
    else if negb (cols dst =? length x)%nat then
      mkRun (Panicked "jacobian: mismatched matrix size") dst x []
    else if negb (origin_fits (OriginValue s) (rows dst)) then
      mkRun (Panicked "jacobian: mismatched OriginValue slice length") dst x []
    else if (Derivative formula =? 0)%Z
            || match Stencil formula with None => true | Some _ => false end
            || Qc_eqb (Step formula) 0 then
      mkRun (Panicked "jacobian: bad formula") dst x []
    else if negb (Derivative formula =? 1)%Z then
      mkRun (Panicked "jacobian: invalid derivative order") dst x []
    else if (call_workers ForwardStep GOMAXPROCS x settings =? 1)%Z then
      jacobianSerial dst f x (OriginValue s) formula
        (call_step ForwardStep settings)
    else
      jacobianConcurrent oracle dst f x (OriginValue s) formula
        (call_step ForwardStep settings)
        (call_workers ForwardStep GOMAXPROCS x settings).
Proof.
  cbv zeta. unfold Jacobian, Dims, origin_fits. cbv zeta.
  destruct (OriginValue (resolve_settings settings)); reflexivity.
Qed.

Lemma dispatch_outcome (oracle : list nat) (dst : Dense) (f : UserFn)
    (x : list Qc) (origin : option (list Qc)) (formula : Formula)
    (step : Qc) (nWorkers : Z) :
  length x = cols dst -> step <> 0 ->
  let r :=
    if (nWorkers =? 1)%Z then jacobianSerial dst f x origin formula step
    else jacobianConcurrent oracle dst f x origin formula step nWorkers in
  outcome r = Returned \/
  outcome r = Panicked "makechan: size out of range" \/
  outcome r = Deadlocked.
Proof.
  intros Hx Hstep. cbv zeta. destruct (nWorkers =? 1)%Z.
  - now left.
  - destruct (jacobianConcurrent_any oracle dst f x origin formula step
                nWorkers Hx Hstep) as (Ho & _).
    rewrite Ho. destruct (nWorkers <? 0)%Z; auto.
    cbn [orb]. destruct (_ && _); auto.
Qed.

(** X14.  Which panic [Jacobian] raises: the checks are made in a fixed
    order and the first one that fails decides the message -- an empty [x]
    before the size of the matrix, that before the length of the origin
    value, that before the formula, and a zero field of the formula before
    its derivative order. *)
Theorem Jacobian_panic_messages (ForwardStep : Qc) (GOMAXPROCS : Z)
    (oracle : list nat) (dst : Dense) (f : UserFn) (x : list Qc)
    (settings : option JacobianSettings) :
  let s := resolve_settings settings in
  let formula := resolve_formula ForwardStep s in
  let r := Jacobian ForwardStep GOMAXPROCS oracle dst f x settings in
  let sized := x <> [] /\ cols dst = length x in
  let fits := origin_fits (OriginValue s) (rows dst) = true in
  (outcome r = Panicked "jacobian: x has zero length" <-> x = []) /\
  (outcome r = Panicked "jacobian: mismatched matrix size"
   <-> x <> [] /\ cols dst <> length x) /\
  (outcome r = Panicked "jacobian: mismatched OriginValue slice length"
   <-> sized /\ ~ fits) /\
  (outcome r = Panicked "jacobian: bad formula"
   <-> sized /\ fits /\
       (Derivative formula = 0%Z \/ Stencil formula = None
        \/ Step formula = 0)) /\
  (outcome r = Panicked "jacobian: invalid derivative order"
   <-> sized /\ fits /\
       Derivative formula <> 0%Z /\ Stencil formula <> None /\
       Step formula <> 0 /\ Derivative formula <> 1%Z).
Proof.
  cbv zeta. rewrite Jacobian_cascade. cbv zeta.
  destruct (Nat.eqb_spec (length x) 0) as [Hn|Hn].
  { apply length_zero_iff_nil in Hn. cbn [outcome].
    repeat split; intros; try discriminate; intuition congruence. }
  assert (Hne : x <> []) by (intros ->; now apply Hn).
  destruct (Nat.eqb_spec (cols dst) (length x)) as [Hc|Hc]; cbn [negb].
  2:{ cbn [outcome].
      repeat split; intros; try discriminate; intuition congruence. }
  destruct (origin_fits _ _) eqn:Hf; cbn [negb].
  2:{ cbn [outcome].
      repeat split; intros; try discriminate; intuition congruence. }
  destruct (Z.eqb_spec (Derivative (resolve_formula ForwardStep
                          (resolve_settings settings))) 0) as [Hd|Hd];
    cbn [orb].
  { cbn [outcome].
    repeat split; intros; try discriminate; intuition congruence. }
  destruct (Stencil (resolve_formula ForwardStep (resolve_settings settings)))
    as [pts|] eqn:Hs; cbn [orb].
  2:{ cbn [outcome].
      repeat split; intros; try discriminate; intuition congruence. }
  destruct (Qc_eqb_spec (Step (resolve_formula ForwardStep
                          (resolve_settings settings))) 0) as [Hz|Hz].
  { cbn [outcome].
    repeat split; intros; try discriminate; intuition congruence. }
  destruct (Z.eqb_spec (Derivative (resolve_formula ForwardStep
                          (resolve_settings settings))) 1) as [Hd1|Hd1];
    cbn [negb].
  2:{ cbn [outcome].
      repeat split; intros; try discriminate; intuition congruence. }
  assert (Hstep : call_step ForwardStep settings <> 0).
  { unfold call_step, resolve_step.
    destruct (Qc_eqb_spec (Settings_Step (resolve_settings settings)) 0);
      auto. }
  pose proof (dispatch_outcome oracle dst f x
                (OriginValue (resolve_settings settings))
                (resolve_formula ForwardStep (resolve_settings settings))
                (call_step ForwardStep settings)
                (call_workers ForwardStep GOMAXPROCS x settings)
                (eq_sym Hc) Hstep) as Ho.
  cbv zeta in Ho.
  repeat match goal with
         | |- _ /\ _ => split
         | |- _ <-> _ => split
         end;
    intros Hyp; try (exfalso; intuition congruence);
    destruct Ho as [Ho|[Ho|Ho]]; rewrite Ho in Hyp; discriminate.
Qed.

Lemma stencil_jobs_nonempty (n : nat) (pts : list Point) :
  (0 < n)%nat -> existsb (fun p => negb (is_origin p)) pts = true ->
  stencil_jobs n pts <> [].
Proof.
  intros Hn H. induction pts as [|p pts IH]; [discriminate|].
  unfold stencil_jobs in *. cbn [existsb filter] in *.
  destruct (is_origin p); cbn [negb orb flat_map] in *; auto.
  destruct n; [lia|]. discriminate.
Qed.

(** X15.  The concurrent evaluator clears the matrix before it creates the
    channel and the workers.  Called with a worker count that is not
    positive, for a matrix with a column and a stencil with a point that is
    not an origin point, it does not return -- it panics on a negative
    capacity and otherwise blocks on the first send -- and leaves the matrix
    all zero, having evaluated [f] nowhere. *)
Theorem jacobianConcurrent_no_workers (oracle : list nat) (dst : Dense)
    (f : UserFn) (x : list Qc) (origin : option (list Qc))
    (formula : Formula) (step : Qc) (nWorkers : Z) :
  (nWorkers <= 0)%Z ->
  (0 < cols dst)%nat ->
  existsb (fun p => negb (is_origin p)) (stencil_points formula) = true ->
  let r := jacobianConcurrent oracle dst f x origin formula step nWorkers in
  outcome r
  = (if (nWorkers <? 0)%Z then Panicked "makechan: size out of range"
     else Deadlocked) /\
  run_calls r = [] /\ run_x r = x /\
  rows (run_dst r) = rows dst /\ cols (run_dst r) = cols dst /\
  forall i c, (i < rows dst)%nat -> (c < cols dst)%nat ->
    At (run_dst r) i c = 0.
Proof.
  intros Hw Hn Hp. cbv zeta.
  destruct (zero_dst_spec dst) as (Hr & Hc & Hz).
  destruct (Z.ltb_spec nWorkers 0) as [Hneg|Hpos].
  - rewrite jacobianConcurrent_panic by assumption. cbn.
    repeat split; auto.
  - assert (nWorkers = 0%Z) as -> by lia.
    rewrite jacobianConcurrent_deadlock
      by now apply stencil_jobs_nonempty.
    cbn. repeat split; auto.
Qed.

Lemma jacobianConcurrent_no_workers_witness :
  let r :=
    jacobianConcurrent [] Demo.ones32 Demo.f32 Demo.x2 None
      (Forward Demo.forward_step) (Demo.q 1 10) 0 in
  outcome r = Deadlocked /\
  run_calls r = [] /\ run_x r = Demo.x2 /\
  rows (run_dst r) = rows Demo.ones32 /\ cols (run_dst r) = cols Demo.ones32 /\
  forall i c, (i < rows Demo.ones32)%nat -> (c < cols Demo.ones32)%nat ->
    At (run_dst r) i c = 0.
Proof.
  apply (jacobianConcurrent_no_workers [] Demo.ones32 Demo.f32 Demo.x2 None
           (Forward Demo.forward_step) (Demo.q 1 10) 0).
  - lia.
  - simpl. lia.
  - reflexivity.
Defined.

(** ** Package [graph]: adding the nodes *)

Section NodeAdderFacts.

Context {N B : Type}.
Variable Node_ID : N -> Z.
Variable add : B -> N -> option B.
Variable has : B -> Z -> Prop.
Hypothesis add_clash : forall b n, has b (Node_ID n) -> add b n = None.
Hypothesis add_adds : forall b n b',
  add b n = Some b' -> has b' (Node_ID n) /\ forall k, has b k -> has b' k.

Lemma add_nodes_has (nodes : list N) (dst dst' : B) :
  add_nodes add dst nodes = Some dst' ->
  (forall k, has dst k -> has dst' k) /\
  (forall n, In n nodes -> has dst' (Node_ID n)).
Proof.
  revert dst. induction nodes as [|a nodes IH]; intros dst H; simpl in H.
  - injection H as <-. split; [auto|intros n []].
  - destruct (add dst a) as [d|] eqn:Ea; [|discriminate].
    destruct (add_adds _ _ _ Ea) as (Ha & Hmono).
    destruct (IH _ H) as (Hmono' & Hin).
    split; [auto|]. intros n [<-|Hn]; auto.
Qed.

Lemma add_nodes_keeps (P : B -> Prop) (nodes : list N) (dst dst' : B) :
  (forall b n b', add b n = Some b' -> P b -> P b') ->
  add_nodes add dst nodes = Some dst' -> P dst -> P dst'.
Proof.
  intros HP. revert dst. induction nodes as [|a nodes IH]; intros dst H Hd;
    simpl in H.
  - now injection H as <-.
  - destruct (add dst a) as [d|] eqn:Ea; [|discriminate].
    apply (IH d); eauto.
Qed.

Lemma add_nodes_clash (nodes : list N) (dst : B) :
  (exists n, In n nodes /\ has dst (Node_ID n)) ->
  add_nodes add dst nodes = None.
Proof.
  revert dst. induction nodes as [|a nodes IH]; intros dst (n & Hin & Hn).
  - destruct Hin.
  - simpl. destruct (add dst a) as [d|] eqn:Ea; [|reflexivity].
    destruct Hin as [<-|Hin].
    + rewrite add_clash in Ea by assumption. discriminate.
    + apply IH. exists n. split; [assumption|].
      exact (proj2 (add_adds _ _ _ Ea) _ Hn).
Qed.

Lemma add_nodes_duplicate (nodes : list N) (dst : B) :
  ~ NoDup (map Node_ID nodes) -> add_nodes add dst nodes = None.
Proof.
  revert dst. induction nodes as [|a nodes IH]; intros dst Hdup.
  - exfalso. apply Hdup. constructor.
  - simpl. destruct (add dst a) as [d|] eqn:Ea; [|reflexivity].
    destruct (in_dec Z.eq_dec (Node_ID a) (map Node_ID nodes)) as [Hin|Hin].
    + apply add_nodes_clash. apply in_map_iff in Hin.
      destruct Hin as (n & Hn & Hin). exists n. split; [assumption|].
      rewrite Hn. exact (proj1 (add_adds _ _ _ Ea)).
    + apply IH. intros Hnd. apply Hdup. simpl. now constructor.
Qed.

End NodeAdderFacts.

(** ** Package [graph]: [Copy] *)

Section CopyFacts.

Context {N E B : Type}.
Variable Node_ID : N -> Z.
Variables Edge_From Edge_To : E -> N.
Variable bd : Builder N E B.
Variable has : B -> Z -> Prop.
Variable edge : B -> Z -> Z -> Prop.
Hypothesis contract : BuilderContract Node_ID Edge_From Edge_To bd has edge.

Lemma Builder_add_adds (b : B) (n : N) (b' : B) :
  Builder_AddNode bd b n = Some b' ->
  has b' (Node_ID n) /\ forall k, has b k -> has b' k.
Proof.
  intros H. destruct (AddNode_adds _ _ _ _ _ _ contract _ _ _ H)
    as (H1 & H2 & _). auto.
Qed.

Lemma set_edges_from_adds (u : N) (vs : list N) (dst dst' : B) :
  set_edges_from bd dst u vs = Some dst' ->
  (forall k, has dst k -> has dst' k) /\
  (forall a b, edge dst a b -> edge dst' a b) /\
  (forall v, In v vs -> Node_ID u <> Node_ID v ->
     edge dst' (Node_ID u) (Node_ID v)).
Proof.
  revert dst. induction vs as [|v vs IH]; intros dst H; simpl in H.
  - injection H as <-. repeat split; auto. intros v [].
  - destruct (Builder_SetEdge bd dst (Builder_NewEdge bd dst u v))
      as [d|] eqn:Es; [|discriminate].
    destruct (SetEdge_adds _ _ _ _ _ _ contract _ _ _ Es) as (Hnew & Hh & He).
    destruct (NewEdge_ends _ _ _ _ _ _ contract dst u v) as (Hf & Ht).
    rewrite Hf, Ht in Hnew.
    destruct (IH _ H) as (Hh' & He' & Hin).
    repeat split; auto.
    intros v0 [<-|Hv0] Hne; auto.
Qed.

Lemma set_edges_adds (src : Graph N E) (us : list N) (dst dst' : B) :
  set_edges bd src dst us = Some dst' ->
  (forall k, has dst k -> has dst' k) /\
  (forall a b, edge dst a b -> edge dst' a b) /\
  (forall u v, In u us -> In v (Graph_From src u) ->
     Node_ID u <> Node_ID v -> edge dst' (Node_ID u) (Node_ID v)).
Proof.
  revert dst. induction us as [|u us IH]; intros dst H; simpl in H.
  - injection H as <-. repeat split; auto. intros u v [].
  - destruct (set_edges_from bd dst u (Graph_From src u)) as [d|] eqn:Eu;
      [|discriminate].
    destruct (set_edges_from_adds _ _ _ _ Eu) as (Hh & He & Hin).
    destruct (IH _ H) as (Hh' & He' & Hin').
    repeat split; auto.
    intros u0 v [<-|Hu0] Hv Hne; eauto.
Qed.

Lemma Copy_adds (dst dst' : B) (src : Graph N E) :
  Copy bd dst src = Some dst' ->
  (forall k, has dst k -> has dst' k) /\
  (forall a b, edge dst a b -> edge dst' a b) /\
  (forall n, In n (Graph_Nodes src) -> has dst' (Node_ID n)) /\
  (forall u v, In u (Graph_Nodes src) -> In v (Graph_From src u) ->
     Node_ID u <> Node_ID v -> edge dst' (Node_ID u) (Node_ID v)).
Proof.
  unfold Copy. cbv zeta.
  destruct (add_nodes (Builder_AddNode bd) dst (Graph_Nodes src))
    as [d|] eqn:Ea; [|discriminate].
  intros Hs.
  destruct (add_nodes_has Node_ID _ has Builder_add_adds _ _ _ Ea)
    as (Hh & Hn).
  assert (He : forall a b, edge dst a b -> edge d a b).
  { intros a b. apply (add_nodes_keeps (Builder_AddNode bd)
      (fun s => edge s a b) _ _ _) with (2 := Ea).
    intros s n s' Hadd. now apply (AddNode_adds _ _ _ _ _ _ contract _ _ _ Hadd). }
  destruct (set_edges_adds _ _ _ _ Hs) as (Hh' & He' & Hin).
  repeat split; auto.
Qed.

End CopyFacts.

(** ** Package [graph]: [CopyWeighted] *)

Section CopyWeightedFacts.

Context {N E B : Type}.
Variable Node_ID : N -> Z.
Variables Edge_From Edge_To : E -> N.
Variable WeightedEdge_Weight : E -> Qc.
Variable bd : WeightedBuilder N E B.
Variable src : Weighted N E.

Lemma set_weighted_edges_from_nil (u : N) (vs : list N) (dst : B) :
  (exists v, In v vs /\ Weighted_WeightedEdge src u v = None) ->
  set_weighted_edges_from WeightedEdge_Weight bd src dst u vs = None.
Proof.
  revert dst. induction vs as [|v vs IH]; intros dst (v0 & Hin & Hnil).
  - destruct Hin.
  - simpl. destruct (Weighted_WeightedEdge src u v) as [e|] eqn:Ee;
      [|reflexivity].
    destruct (WeightedBuilder_SetWeightedEdge bd dst _) as [d|];
      [|reflexivity].
    apply IH. destruct Hin as [<-|Hin]; [congruence|eauto].
Qed.

Lemma set_weighted_edges_nil (us : list N) (dst : B) :
  (exists u v, In u us /\ In v (Graph_From (Weighted_Graph src) u) /\
               Weighted_WeightedEdge src u v = None) ->
  set_weighted_edges WeightedEdge_Weight bd src dst us = None.
Proof.
  revert dst. induction us as [|u us IH]; intros dst (u0 & v & Hu & Hv & Hnil).
  - destruct Hu.
  - simpl.
    destruct (set_weighted_edges_from WeightedEdge_Weight bd src dst u
                (Graph_From (Weighted_Graph src) u)) as [d|] eqn:Eu;
      [|reflexivity].
    destruct Hu as [<-|Hu].
    + rewrite set_weighted_edges_from_nil in Eu by eauto. discriminate.
    + apply IH. eauto.
Qed.

Variable has : B -> Z -> Prop.
Variable wt : B -> Z -> Z -> option Qc.
Hypothesis contract :
  WeightedBuilderContract Node_ID Edge_From Edge_To WeightedEdge_Weight bd
    has wt.

Lemma WeightedBuilder_add_adds (b : B) (n : N) (b' : B) :
  WeightedBuilder_AddNode bd b n = Some b' ->
  has b' (Node_ID n) /\ forall k, has b k -> has b' k.
Proof.
  intros H. destruct (WAddNode_adds _ _ _ _ _ _ _ contract _ _ _ H)
    as (H1 & H2 & _). auto.
Qed.

Lemma set_weighted_edges_from_sets (u : N) (vs : list N) (dst dst' : B) :
  set_weighted_edges_from WeightedEdge_Weight bd src dst u vs = Some dst' ->
  (forall k, has dst k -> has dst' k) /\
  (forall a b, ~ In (a, b) (map (fun v => (Node_ID u, Node_ID v)) vs) ->
     wt dst' a b = wt dst a b) /\
  (NoDup (map (fun v => (Node_ID u, Node_ID v)) vs) ->
   forall v, In v vs -> Node_ID u <> Node_ID v ->
     exists e, Weighted_WeightedEdge src u v = Some e /\
               wt dst' (Node_ID u) (Node_ID v)
               = Some (WeightedEdge_Weight e)).
Proof.
  revert dst. induction vs as [|v vs IH]; intros dst H; simpl in H.
  - injection H as <-. repeat split; auto. intros _ v [].
  - destruct (Weighted_WeightedEdge src u v) as [e|] eqn:Ee; [|discriminate].
    destruct (WeightedBuilder_SetWeightedEdge bd dst _) as [d|] eqn:Es;
      [|discriminate].
    destruct (SetWeightedEdge_sets _ _ _ _ _ _ _ contract _ _ _ Es)
      as (Hnew & Hh & Hother).
    destruct (NewWeightedEdge_ends _ _ _ _ _ _ _ contract dst u v
                (WeightedEdge_Weight e)) as (Hf & Ht & Hw).
    rewrite Hf, Ht in Hnew, Hother. rewrite Hw in Hnew.
    destruct (IH _ H) as (Hh' & Hout & Hin).
    split; [auto|split].
    + intros a b Hab. cbn [map] in Hab.
      rewrite Hout by (intros Hc; apply Hab; now right).
      apply Hother. intros Hc. apply Hab. left. now symmetry.
    + intros Hnd v0 Hv0 Hne. cbn [map] in Hnd.
      apply NoDup_cons_iff in Hnd as (Hfresh & Hnd).
      destruct Hv0 as [<-|Hv0].
      * exists e. split; [assumption|]. rewrite Hout by assumption. auto.
      * now apply Hin.
Qed.

Lemma set_weighted_edges_sets (us : list N) (dst dst' : B) :
  let pairs us :=
    flat_map
      (fun u => map (fun v => (Node_ID u, Node_ID v))
                  (Graph_From (Weighted_Graph src) u)) us in
  set_weighted_edges WeightedEdge_Weight bd src dst us = Some dst' ->
  (forall k, has dst k -> has dst' k) /\
  (forall a b, ~ In (a, b) (pairs us) -> wt dst' a b = wt dst a b) /\
  (NoDup (pairs us) ->
   forall u v, In u us -> In v (Graph_From (Weighted_Graph src) u) ->
     Node_ID u <> Node_ID v ->
     exists e, Weighted_WeightedEdge src u v = Some e /\
               wt dst' (Node_ID u) (Node_ID v)
               = Some (WeightedEdge_Weight e)).
Proof.
  cbv zeta. revert dst. induction us as [|u us IH]; intros dst H; simpl in H.
  - injection H as <-. repeat split; auto. intros _ u v [].
  - destruct (set_weighted_edges_from WeightedEdge_Weight bd src dst u
                (Graph_From (Weighted_Graph src) u)) as [d|] eqn:Eu;
      [|discriminate].
    destruct (set_weighted_edges_from_sets _ _ _ _ Eu) as (Hh & Hout & Hin).
    destruct (IH _ H) as (Hh' & Hout' & Hin').
    cbn [flat_map]. split; [auto|split].
    + intros a b Hab. rewrite Hout', Hout; auto;
        intros Hc; apply Hab; apply in_or_app; auto.
    + intros Hnd u0 v Hu0 Hv Hne.
      pose proof (NoDup_app_remove_l _ _ Hnd) as Hnd2.
      pose proof (NoDup_app_remove_r _ _ Hnd) as Hnd1.
      destruct Hu0 as [<-|Hu0]; [|now apply Hin'].
      destruct (Hin Hnd1 v Hv Hne) as (e & He & Hw).
      exists e. split; [assumption|]. rewrite Hout'; [assumption|].
      intros Hc.
      assert (Hl : In (Node_ID u, Node_ID v)
                     (map (fun v => (Node_ID u, Node_ID v))
                        (Graph_From (Weighted_Graph src) u)))
        by (apply in_map_iff; eauto).
      clear - Hnd Hc Hl.
      induction (map (fun v0 : N => (Node_ID u, Node_ID v0))
                   (Graph_From (Weighted_Graph src) u)) as [|p l IHl];
        [destruct Hl|].
      cbn [app] in Hnd. apply NoDup_cons_iff in Hnd as (Hp & Hnd).
      destruct Hl as [->|Hl]; [|auto].
      apply Hp. apply in_or_app. now right.
Qed.

End CopyWeightedFacts.

(** ** The list graph meets the contracts *)

Lemma DemoGraph_mem_In (k : Z) (l : list Z) :
  DemoGraph.mem k l = true <-> In k l.
Proof.
  unfold DemoGraph.mem. rewrite existsb_exists. split.
  - intros (y & Hy & He). apply Z.eqb_eq in He. now subst.
  - intros H. exists k. split; [assumption|apply Z.eqb_refl].
Qed.

Lemma DemoGraph_touch_keeps (k a : Z) (l : list Z) :
  In k l -> In k (DemoGraph.touch a l).
Proof.
  intros H. unfold DemoGraph.touch. destruct (DemoGraph.mem a l); simpl; auto.
Qed.

Lemma DemoGraph_add_node (b : DemoGraph.state) (n : Z)
    (b' : DemoGraph.state) :
  DemoGraph.add_node b n = Some b' -> b' = (n :: fst b, snd b).
Proof.
  unfold DemoGraph.add_node. destruct (DemoGraph.mem n (fst b)); congruence.
Qed.

Lemma DemoGraph_set_edge (b : DemoGraph.state) (e : DemoGraph.edge)
    (b' : DemoGraph.state) :
  DemoGraph.set_edge b e = Some b' ->
  snd b' = e :: snd b /\ forall k, In k (fst b) -> In k (fst b').
Proof.
  unfold DemoGraph.set_edge.
  destruct (DemoGraph.from e =? DemoGraph.to e)%Z; [discriminate|].
  intros [= <-]. split; [reflexivity|]. intros k Hk. simpl.
  now do 2 apply DemoGraph_touch_keeps.
Qed.

Lemma DemoGraph_weight_of_cons (b : DemoGraph.state) (e : DemoGraph.edge)
    (nodes : list Z) (u v : Z) :
  DemoGraph.weight_of (nodes, e :: snd b) u v
  = if ((DemoGraph.from e =? u) && (DemoGraph.to e =? v))%Z
    then Some (DemoGraph.weight e)
    else DemoGraph.weight_of b u v.
Proof.
  unfold DemoGraph.weight_of. cbn [snd find].
  now destruct ((DemoGraph.from e =? u) && (DemoGraph.to e =? v))%Z.
Qed.

Lemma DemoGraph_weighted_contract :
  WeightedBuilderContract DemoGraph.id DemoGraph.from DemoGraph.to
    DemoGraph.weight DemoGraph.weighted_builder DemoGraph.has
    DemoGraph.weight_of.
Proof.
  constructor; cbn [WeightedBuilder_AddNode WeightedBuilder_SetWeightedEdge
                    WeightedBuilder_NewWeightedEdge DemoGraph.weighted_builder].
  - intros b n H. unfold DemoGraph.add_node, DemoGraph.has, DemoGraph.id in *.
    apply DemoGraph_mem_In in H. now rewrite H.
  - intros b n b' H. apply DemoGraph_add_node in H. subst b'.
    unfold DemoGraph.has, DemoGraph.id. repeat split; simpl; auto.
  - intros b u v w. repeat split.
  - intros b e b' H. destruct (DemoGraph_set_edge _ _ _ H) as (Hs & Hn).
    unfold DemoGraph.has, DemoGraph.id.
    destruct b' as [nodes' edges']. cbn [snd fst] in *. subst edges'.
    split; [|split; [exact Hn|]].
    + intros _. rewrite DemoGraph_weight_of_cons, !Z.eqb_refl. reflexivity.
    + intros u v Hne. rewrite DemoGraph_weight_of_cons.
      destruct (Z.eqb_spec (DemoGraph.from e) u),
        (Z.eqb_spec (DemoGraph.to e) v); cbn [andb]; try reflexivity.
      congruence.
Qed.

Lemma DemoGraph_contract :
  BuilderContract DemoGraph.id DemoGraph.from DemoGraph.to DemoGraph.builder
    DemoGraph.has DemoGraph.has_edge.
Proof.
  constructor; cbn [Builder_AddNode Builder_SetEdge Builder_NewEdge
                    DemoGraph.builder].
  - intros b n H. unfold DemoGraph.add_node, DemoGraph.has, DemoGraph.id in *.
    apply DemoGraph_mem_In in H. now rewrite H.
  - intros b n b' H. apply DemoGraph_add_node in H. subst b'.
    unfold DemoGraph.has, DemoGraph.has_edge, DemoGraph.id.
    repeat split; simpl; auto.
  - intros b u v. split; reflexivity.
  - intros b e b' H. destruct (DemoGraph_set_edge _ _ _ H) as (Hs & Hn).
    unfold DemoGraph.has, DemoGraph.has_edge, DemoGraph.id.
    destruct b' as [nodes' edges']. cbn [snd fst] in *. subst edges'.
    split; [|split; [exact Hn|]].
    + intros _. rewrite DemoGraph_weight_of_cons, !Z.eqb_refl. discriminate.
    + intros u v Huv. rewrite DemoGraph_weight_of_cons.
      destruct (_ && _)%Z; [discriminate|assumption].
Qed.

(** ** Package [graph]: properties of [Copy] and [CopyWeighted] *)

(** X16.  [Copy] panics if a node ID of the source matches a node ID of the
    destination, as its comment says, and also if two nodes of the source
    share an ID: for a destination that keeps the contract of [NodeAdder],
    the call does not return. *)
Theorem Copy_panics_on_taken_ID {N E B : Type} (Node_ID : N -> Z)
    (Edge_From Edge_To : E -> N) (bd : Builder N E B)
    (has : B -> Z -> Prop) (edge : B -> Z -> Z -> Prop)
    (dst : B) (src : Graph N E) :
  BuilderContract Node_ID Edge_From Edge_To bd has edge ->
  (exists n, In n (Graph_Nodes src) /\ has dst (Node_ID n)) \/
  ~ NoDup (map Node_ID (Graph_Nodes src)) ->
  Copy bd dst src = None.
Proof.
  intros contract H. unfold Copy. cbv zeta.
  replace (add_nodes (Builder_AddNode bd) dst (Graph_Nodes src))
    with (@None B); [reflexivity|].
  symmetry. destruct H as [H|H].
  - apply (add_nodes_clash Node_ID _ has); auto.
    + apply (AddNode_clash _ _ _ _ _ _ contract).
    + now apply (Builder_add_adds Node_ID Edge_From Edge_To bd has edge).
  - apply (add_nodes_duplicate Node_ID _ has); auto.
    + apply (AddNode_clash _ _ _ _ _ _ contract).
    + now apply (Builder_add_adds Node_ID Edge_From Edge_To bd has edge).
Qed.

Lemma Copy_panics_on_taken_ID_witness :
  Copy DemoGraph.builder DemoGraph.taken DemoGraph.path = None.
Proof.
  apply (Copy_panics_on_taken_ID DemoGraph.id DemoGraph.from DemoGraph.to
           DemoGraph.builder DemoGraph.has DemoGraph.has_edge
           DemoGraph.taken DemoGraph.path).
  - exact DemoGraph_contract.
  - left. exists 2%Z. split; cbv; auto.
Defined.

(** X17.  When [Copy] returns, for a destination that keeps the contract of
    [Builder]: the destination holds every node of the source and, for every
    node [u] of the source and every [v] in [src.From(u)] with another ID, an
    edge from [u] to [v]; and it still holds every node and every edge it
    held before -- the destination is not cleared. *)
Theorem Copy_copies {N E B : Type} (Node_ID : N -> Z)
    (Edge_From Edge_To : E -> N) (bd : Builder N E B)
    (has : B -> Z -> Prop) (edge : B -> Z -> Z -> Prop)
    (dst dst' : B) (src : Graph N E) :
  BuilderContract Node_ID Edge_From Edge_To bd has edge ->
  Copy bd dst src = Some dst' ->
  (forall k, has dst k -> has dst' k) /\
  (forall a b, edge dst a b -> edge dst' a b) /\
  (forall n, In n (Graph_Nodes src) -> has dst' (Node_ID n)) /\
  (forall u v, In u (Graph_Nodes src) -> In v (Graph_From src u) ->
     Node_ID u <> Node_ID v -> edge dst' (Node_ID u) (Node_ID v)).
Proof.
  intros contract H.
  exact (Copy_adds Node_ID Edge_From Edge_To bd has edge contract dst dst'
           src H).
Qed.

Lemma Copy_copies_witness :
  exists dst',
    Copy DemoGraph.builder DemoGraph.empty DemoGraph.path = Some dst' /\
    (forall k, DemoGraph.has DemoGraph.empty k -> DemoGraph.has dst' k) /\
    (forall a b, DemoGraph.has_edge DemoGraph.empty a b ->
       DemoGraph.has_edge dst' a b) /\
    (forall n, In n (Graph_Nodes DemoGraph.path) ->
       DemoGraph.has dst' (DemoGraph.id n)) /\
    (forall u v, In u (Graph_Nodes DemoGraph.path) ->
       In v (Graph_From DemoGraph.path u) ->
       DemoGraph.id u <> DemoGraph.id v ->
       DemoGraph.has_edge dst' (DemoGraph.id u) (DemoGraph.id v)).
Proof.
  eexists. split; [reflexivity|].
  apply (Copy_copies DemoGraph.id DemoGraph.from DemoGraph.to
           DemoGraph.builder DemoGraph.has DemoGraph.has_edge
           DemoGraph.empty _ DemoGraph.path).
  - exact DemoGraph_contract.
  - reflexivity.
Defined.

(** X18.  If the source is undirected -- every neighbour [v] of a node [u]
    is a node and has [u] among its neighbours -- then after [Copy] returns
    both directions are present in the destination: an edge from [u] to [v]
    and an edge from [v] to [u]. *)
Theorem Copy_both_directions {N E B : Type} (Node_ID : N -> Z)
    (Edge_From Edge_To : E -> N) (bd : Builder N E B)
    (has : B -> Z -> Prop) (edge : B -> Z -> Z -> Prop)
    (dst dst' : B) (src : Graph N E) :
  BuilderContract Node_ID Edge_From Edge_To bd has edge ->
  (forall u v, In u (Graph_Nodes src) -> In v (Graph_From src u) ->
     In v (Graph_Nodes src) /\ In u (Graph_From src v)) ->
  Copy bd dst src = Some dst' ->
  forall u v, In u (Graph_Nodes src) -> In v (Graph_From src u) ->
    Node_ID u <> Node_ID v ->
    edge dst' (Node_ID u) (Node_ID v) /\ edge dst' (Node_ID v) (Node_ID u).
Proof.
  intros contract Hsym H u v Hu Hv Hne.
  destruct (Copy_adds Node_ID Edge_From Edge_To bd has edge contract dst dst'
              src H) as (_ & _ & _ & He).
  destruct (Hsym u v Hu Hv) as (Hv' & Hu').
  split; apply He; auto.
Qed.

Lemma DemoGraph_path_undirected (u v : Z) :
  In u (Graph_Nodes DemoGraph.path) -> In v (Graph_From DemoGraph.path u) ->
  In v (Graph_Nodes DemoGraph.path) /\ In u (Graph_From DemoGraph.path v).
Proof.
  simpl. intros [<-|[<-|[<-|[]]]]; simpl; intros [<-|H]; simpl; try tauto;
    destruct H as [<-|[]]; simpl; tauto.
Qed.

Lemma Copy_both_directions_witness :
  exists dst',
    Copy DemoGraph.builder DemoGraph.empty DemoGraph.path = Some dst' /\
    forall u v, In u (Graph_Nodes DemoGraph.path) ->
      In v (Graph_From DemoGraph.path u) ->
      DemoGraph.id u <> DemoGraph.id v ->
      DemoGraph.has_edge dst' (DemoGraph.id u) (DemoGraph.id v) /\
      DemoGraph.has_edge dst' (DemoGraph.id v) (DemoGraph.id u).
Proof.
  eexists. split; [reflexivity|].
  apply (Copy_both_directions DemoGraph.id DemoGraph.from DemoGraph.to
           DemoGraph.builder DemoGraph.has DemoGraph.has_edge
           DemoGraph.empty _ DemoGraph.path).
  - exact DemoGraph_contract.
  - exact DemoGraph_path_undirected.
  - reflexivity.
Defined.

(** X19.  [CopyWeighted] calls [Weight] on what [src.WeightedEdge(u, v)]
    returns without testing it: if the source lists a neighbour [v] of a
    node [u] and returns [nil] for the weighted edge between them, the call
    panics, whatever the destination. *)
Theorem CopyWeighted_nil_edge_panics {N E B : Type}
    (WeightedEdge_Weight : E -> Qc) (bd : WeightedBuilder N E B) (dst : B)
    (src : Weighted N E) :
  (exists u v, In u (Graph_Nodes (Weighted_Graph src)) /\
               In v (Graph_From (Weighted_Graph src) u) /\
               Weighted_WeightedEdge src u v = None) ->
  CopyWeighted WeightedEdge_Weight bd dst src = None.
Proof.
  intros H. unfold CopyWeighted. cbv zeta.
  destruct (add_nodes _ dst _) as [d|]; [|reflexivity].
  now apply set_weighted_edges_nil.
Qed.

Lemma CopyWeighted_nil_edge_panics_witness :
  CopyWeighted DemoGraph.weight DemoGraph.weighted_builder DemoGraph.empty
    DemoGraph.broken_path = None.
Proof.
  apply (CopyWeighted_nil_edge_panics DemoGraph.weight
           DemoGraph.weighted_builder DemoGraph.empty DemoGraph.broken_path).
  exists 1%Z, 2%Z. repeat split; simpl; auto.
Defined.

(** X20.  [CopyWeighted] carries the weights over: when it returns, for a
    directed destination that keeps the contract of [WeightedBuilder] and a
    source that lists no edge twice, the destination holds every node of the
    source and, for every node [u] of the source and every [v] in
    [src.From(u)] with another ID, the edge from [u] to [v] with the weight
    of [src.WeightedEdge(u, v)]. *)
Theorem CopyWeighted_weights {N E B : Type} (Node_ID : N -> Z)
    (Edge_From Edge_To : E -> N) (WeightedEdge_Weight : E -> Qc)
    (bd : WeightedBuilder N E B) (has : B -> Z -> Prop)
    (wt : B -> Z -> Z -> option Qc) (dst dst' : B) (src : Weighted N E) :
  WeightedBuilderContract Node_ID Edge_From Edge_To WeightedEdge_Weight bd
    has wt ->
  NoDup (listed_edges Node_ID (Weighted_Graph src)) ->
  CopyWeighted WeightedEdge_Weight bd dst src = Some dst' ->
  (forall n, In n (Graph_Nodes (Weighted_Graph src)) ->
     has dst' (Node_ID n)) /\
  (forall u v, In u (Graph_Nodes (Weighted_Graph src)) ->
     In v (Graph_From (Weighted_Graph src) u) ->
     Node_ID u <> Node_ID v ->
     exists e, Weighted_WeightedEdge src u v = Some e /\
               wt dst' (Node_ID u) (Node_ID v)
               = Some (WeightedEdge_Weight e)).
Proof.
  intros contract Hnd. unfold CopyWeighted. cbv zeta.
  destruct (add_nodes (WeightedBuilder_AddNode bd) dst
              (Graph_Nodes (Weighted_Graph src))) as [d|] eqn:Ea;
    [|discriminate].
  intros Hs.
  destruct (add_nodes_has Node_ID _ has
              (WeightedBuilder_add_adds Node_ID Edge_From Edge_To
                 WeightedEdge_Weight bd has wt contract) _ _ _ Ea)
    as (_ & Hn).
  destruct (set_weighted_edges_sets Node_ID Edge_From Edge_To
              WeightedEdge_Weight bd src has wt contract _ _ _ Hs)
    as (Hh & _ & Hw).
  split; [auto|]. intros u v Hu Hv Hne. now apply Hw.
Qed.

Lemma CopyWeighted_weights_witness :
  exists dst',
    CopyWeighted DemoGraph.weight DemoGraph.weighted_builder DemoGraph.empty
      DemoGraph.weighted_path = Some dst' /\
    (forall n, In n (Graph_Nodes (Weighted_Graph DemoGraph.weighted_path)) ->
       DemoGraph.has dst' (DemoGraph.id n)) /\
    (forall u v,
       In u (Graph_Nodes (Weighted_Graph DemoGraph.weighted_path)) ->
       In v (Graph_From (Weighted_Graph DemoGraph.weighted_path) u) ->
       DemoGraph.id u <> DemoGraph.id v ->
       exists e,
         Weighted_WeightedEdge DemoGraph.weighted_path u v = Some e /\
         DemoGraph.weight_of dst' (DemoGraph.id u) (DemoGraph.id v)
         = Some (DemoGraph.weight e)).
Proof.
  eexists. split; [reflexivity|].
  apply (CopyWeighted_weights DemoGraph.id DemoGraph.from DemoGraph.to
           DemoGraph.weight DemoGraph.weighted_builder DemoGraph.has
           DemoGraph.weight_of DemoGraph.empty _ DemoGraph.weighted_path).
  - exact DemoGraph_weighted_contract.
  - repeat constructor; simpl; intuition discriminate.
  - reflexivity.
Defined.

(** X21.  [CopyWeighted] panics, like [Copy], if a node ID of the source
    matches a node ID of the destination or occurs twice among the nodes of
    the source. *)
Theorem CopyWeighted_panics_on_taken_ID {N E B : Type} (Node_ID : N -> Z)
    (Edge_From Edge_To : E -> N) (WeightedEdge_Weight : E -> Qc)
    (bd : WeightedBuilder N E B) (has : B -> Z -> Prop)
    (wt : B -> Z -> Z -> option Qc) (dst : B) (src : Weighted N E) :
  WeightedBuilderContract Node_ID Edge_From Edge_To WeightedEdge_Weight bd
    has wt ->
  (exists n, In n (Graph_Nodes (Weighted_Graph src)) /\
             has dst (Node_ID n)) \/
  ~ NoDup (map Node_ID (Graph_Nodes (Weighted_Graph src))) ->
  CopyWeighted WeightedEdge_Weight bd dst src = None.
Proof.
  intros contract H. unfold CopyWeighted. cbv zeta.
  replace (add_nodes (WeightedBuilder_AddNode bd) dst
             (Graph_Nodes (Weighted_Graph src)))
    with (@None B); [reflexivity|].
  symmetry. destruct H as [H|H].
  - apply (add_nodes_clash Node_ID _ has); auto.
    + apply (WAddNode_clash _ _ _ _ _ _ _ contract).
    + now apply (WeightedBuilder_add_adds Node_ID Edge_From Edge_To
                   WeightedEdge_Weight bd has wt).
  - apply (add_nodes_duplicate Node_ID _ has); auto.
    + apply (WAddNode_clash _ _ _ _ _ _ _ contract).
    + now apply (WeightedBuilder_add_adds Node_ID Edge_From Edge_To
                   WeightedEdge_Weight bd has wt).
Qed.

Lemma CopyWeighted_panics_on_taken_ID_witness :
  CopyWeighted DemoGraph.weight DemoGraph.weighted_builder DemoGraph.taken
    DemoGraph.weighted_path = None.
Proof.
  apply (CopyWeighted_panics_on_taken_ID DemoGraph.id DemoGraph.from
           DemoGraph.to DemoGraph.weight DemoGraph.weighted_builder
           DemoGraph.has DemoGraph.weight_of DemoGraph.taken
           DemoGraph.weighted_path).
  - exact DemoGraph_weighted_contract.
  - left. exists 2%Z. split; cbv; auto.
Defined.
